(** * jquants-api-client: credentials, configuration, date ranges, data
    requests and range fetches

    A shallow embedding of [jquantsapi/client_json.py] and of the range
    fetches of [jquantsapi/client.py].  Timestamps are integers counting
    microseconds, which is the resolution of Python's [datetime]; a
    calendar day is held as its proleptic Gregorian ordinal, the number
    [date.toordinal()] returns and on which [datetime + timedelta] works.
    Strings are byte strings, so the digits seen by [strptime] are the ASCII
    ones. *)

From Stdlib Require Import ZArith String Ascii Bool Lia.
From stdpp Require Import base option list gmap strings.

Local Open Scope Z_scope.

(** ** Exceptions raised by the modelled code *)

Inductive exn : Type :=
| TypeError
| ValueError
| OverflowError
| KeyError
| HTTPError (status_code : Z)
| ConnectionError
| TokenAuthRefreshBadRequestException (status_code : Z)
| RetryError (last : exn).

Inductive result (A : Type) : Type :=
| Ok (a : A)
| Raise (e : exn).
Arguments Ok {A} a.
Arguments Raise {A} e.

(** ** The calendar of Python's [datetime] module *)

Module Calendar.

Definition MINYEAR : Z := 1.
Definition MAXYEAR : Z := 9999.
Definition _MAXORDINAL : Z := 3652059.

Definition _is_leap (year : Z) : bool :=
  (year mod 4 =? 0) && (negb (year mod 100 =? 0) || (year mod 400 =? 0)).

Definition _days_before_year (year : Z) : Z :=
  let y := year - 1 in y * 365 + y / 4 - y / 100 + y / 400.

Definition _DAYS_IN_MONTH : list Z :=
  [-1; 31; 28; 31; 30; 31; 30; 31; 31; 30; 31; 30; 31].

Definition _DAYS_BEFORE_MONTH : list Z :=
  [-1; 0; 31; 59; 90; 120; 151; 181; 212; 243; 273; 304; 334].

Definition _days_in_month (year month : Z) : Z :=
  if (month =? 2) && _is_leap year then 29
  else nth (Z.to_nat month) _DAYS_IN_MONTH 0.

Definition _days_before_month (year month : Z) : Z :=
  nth (Z.to_nat month) _DAYS_BEFORE_MONTH 0
  + (if (2 <? month) && _is_leap year then 1 else 0).

Definition _ymd2ord (year month day : Z) : Z :=
  _days_before_year year + _days_before_month year month + day.

Definition _DI400Y : Z := 146097.
Definition _DI100Y : Z := 36524.
Definition _DI4Y : Z := 1461.

Definition _ord2ymd (ordinal : Z) : Z * Z * Z :=
  let n := ordinal - 1 in
  let n400 := n / _DI400Y in
  let n := n mod _DI400Y in
  let year := n400 * 400 + 1 in
  let n100 := n / _DI100Y in
  let n := n mod _DI100Y in
  let n4 := n / _DI4Y in
  let n := n mod _DI4Y in
  let n1 := n / 365 in
  let n := n mod 365 in
  let year := year + n100 * 100 + n4 * 4 + n1 in
  if (n1 =? 4) || (n100 =? 4) then (year - 1, 12, 31)
  else
    let leapyear := (n1 =? 3) && (negb (n4 =? 24) || (n100 =? 3)) in
    let month := Z.shiftr (n + 50) 5 in
    let preceding :=
      nth (Z.to_nat month) _DAYS_BEFORE_MONTH 0
      + (if (2 <? month) && leapyear then 1 else 0) in
    let '(month, preceding) :=
      if n <? preceding
      then (month - 1,
            preceding - (nth (Z.to_nat (month - 1)) _DAYS_IN_MONTH 0
                         + (if (month - 1 =? 2) && leapyear then 1 else 0)))
      else (month, preceding) in
    (year, month, n - preceding + 1).

(** The checks of [_check_date_fields]. *)
Definition check_date_fields (year month day : Z) : bool :=
  (MINYEAR <=? year) && (year <=? MAXYEAR)
  && (1 <=? month) && (month <=? 12)
  && (1 <=? day) && (day <=? _days_in_month year month).

End Calendar.

(** ** [datetime] and [timedelta] *)

(** A tzinfo object.  A datetime holds a reference to it, so the object has
    an identity, which [is] compares: [tz_id].  Its [utcoffset(dt)] is asked
    anew for every datetime and may depend on the date and the time of day
    it is given, as it does in a zone with daylight saving time:
    [tz_utcoffset z o t] is the offset from UTC, in microseconds, at time of
    day [t] (in microseconds) of the day of ordinal [o].  (The [fold] that
    tells the two readings of a repeated hour apart is left out; sums of a
    datetime and a timedelta have it at 0.) *)
Record tzinfo_object : Type := mktzinfo {
  tz_id : Z;
  tz_utcoffset : Z -> Z -> Z
}.

(** [datetime.timezone(timedelta(microseconds=offset))]: the same offset on
    every day. *)
Definition timezone (id offset : Z) : tzinfo_object :=
  mktzinfo id (fun _ _ => offset).

Record datetime : Type := mkdatetime {
  ordinal : Z;               (* toordinal(): the calendar day *)
  hour : Z;
  minute : Z;
  second : Z;
  microsecond : Z;
  tzinfo : option tzinfo_object   (* None when naive *)
}.

Definition US_PER_DAY : Z := 86400000000.

Definition time_of_day (d : datetime) : Z :=
  ((hour d * 60 + minute d) * 60 + second d) * 1000000 + microsecond d.

(** Microseconds since the start of ordinal 0, in the datetime's own zone. *)
Definition to_us (d : datetime) : Z := ordinal d * US_PER_DAY + time_of_day d.

(** [d.utcoffset()] in microseconds; 0 stands in for the None of a naive
    value where only the difference of two offsets is used. *)
Definition utcoffset (d : datetime) : Z :=
  match tzinfo d with
  | Some z => tz_utcoffset z (ordinal d) (time_of_day d)
  | None => 0
  end.

(** The fields are in range: what the constructor checks. *)
Definition valid_fields (d : datetime) : bool :=
  (1 <=? ordinal d) && (ordinal d <=? Calendar._MAXORDINAL)
  && (0 <=? hour d) && (hour d <? 24)
  && (0 <=? minute d) && (minute d <? 60)
  && (0 <=? second d) && (second d <? 60)
  && (0 <=? microsecond d) && (microsecond d <? 1000000).

(** A value whose offset is in range as well: [utcoffset()] requires it to
    be strictly between -24 and 24 hours. *)
Definition valid_datetime (d : datetime) : bool :=
  valid_fields d
  && (- US_PER_DAY <? utcoffset d) && (utcoffset d <? US_PER_DAY).

(** The constructor [datetime(year, month, day, hour, minute, second,
    microsecond, tzinfo)]; out-of-range fields raise ValueError.  The tzinfo
    is stored as it is given. *)
Definition datetime_new (year month day h mi s us : Z) (tz : option tzinfo_object)
  : result datetime :=
  let d := mkdatetime (Calendar._ymd2ord year month day) h mi s us tz in
  if Calendar.check_date_fields year month day && valid_fields d
  then Ok d else Raise ValueError.

Definition year_month_day (d : datetime) : Z * Z * Z :=
  Calendar._ord2ymd (ordinal d).

(** [timedelta(days=n)]: the day count is limited to nine digits. *)
Definition timedelta_days (n : Z) : result Z :=
  if (-999999999 <=? n) && (n <=? 999999999) then Ok n else Raise OverflowError.

(** [d + timedelta(days=n)]: the time of day and the zone are kept and the
    ordinal must stay within [1, _MAXORDINAL]. *)
Definition with_ordinal (d : datetime) (o : Z) : datetime :=
  mkdatetime o (hour d) (minute d) (second d) (microsecond d) (tzinfo d).

Definition datetime_add_days (d : datetime) (n : Z) : result datetime :=
  let o := ordinal d + n in
  if (0 <? o) && (o <=? Calendar._MAXORDINAL)
  then Ok (with_ordinal d o)
  else Raise OverflowError.

(** The instant on the UTC time line, which [a - b] and the comparison of
    two aware values with different tzinfo objects use. *)
Definition instant (d : datetime) : Z := to_us d - utcoffset d.

(** The same calendar day at 00:00:00, zone kept. *)
Definition at_midnight (d : datetime) : datetime :=
  mkdatetime (ordinal d) 0 0 0 0 (tzinfo d).

(** Lexicographic comparison of the fields, as [datetime._cmp] does when the
    two offsets agree. *)
Definition base_compare (a b : datetime) : comparison :=
  match ordinal a ?= ordinal b with
  | Eq => match hour a ?= hour b with
          | Eq => match minute a ?= minute b with
                  | Eq => match second a ?= second b with
                          | Eq => microsecond a ?= microsecond b
                          | c => c
                          end
                  | c => c
                  end
          | c => c
          end
  | c => c
  end.

(** [a._tzinfo is b._tzinfo] *)
Definition same_tzinfo (a b : option tzinfo_object) : bool :=
  match a, b with
  | None, None => true
  | Some x, Some y => tz_id x =? tz_id y
  | _, _ => false
  end.

(** A call of [d.utcoffset()]: None for a naive value; for an aware one the
    answer of the tzinfo object, which must be strictly between -24 and 24
    hours, ValueError being raised otherwise. *)
Definition utcoffset_call (d : datetime) : result (option Z) :=
  match tzinfo d with
  | None => Ok None
  | Some z =>
      let off := tz_utcoffset z (ordinal d) (time_of_day d) in
      if (- US_PER_DAY <? off) && (off <? US_PER_DAY) then Ok (Some off)
      else Raise ValueError
  end.

(** The comparison behind [<], [<=], [>] and [>=]: two values with the same
    tzinfo object (or both naive) compare field by field, without a look at
    the offsets; otherwise the two offsets are asked for, the left one
    first: equal offsets compare field by field, a naive and an aware value
    do not compare, and different offsets compare the instants. *)
Definition datetime_cmp (a b : datetime) : result comparison :=
  if same_tzinfo (tzinfo a) (tzinfo b) then Ok (base_compare a b)
  else match utcoffset_call a with
       | Raise ex => Raise ex
       | Ok oa =>
           match utcoffset_call b with
           | Raise ex => Raise ex
           | Ok ob =>
               match oa, ob with
               | Some x, Some y =>
                   if x =? y then Ok (base_compare a b)
                   else Ok (to_us a - x ?= to_us b - y)
               | None, None => Ok (base_compare a b)
               | _, _ => Raise TypeError
               end
           end
       end.

(** [a - b] in microseconds: the difference of the fields for one tzinfo
    object (or two naive values), of the instants otherwise. *)
Definition datetime_sub (a b : datetime) : result Z :=
  if same_tzinfo (tzinfo a) (tzinfo b) then Ok (to_us a - to_us b)
  else match utcoffset_call a with
       | Raise ex => Raise ex
       | Ok oa =>
           match utcoffset_call b with
           | Raise ex => Raise ex
           | Ok ob =>
               match oa, ob with
               | Some x, Some y => Ok ((to_us a - x) - (to_us b - y))
               | None, None => Ok (to_us a - to_us b)
               | _, _ => Raise TypeError
               end
           end
       end.

(** [a <= b] *)
Definition datetime_le (a b : datetime) : result bool :=
  match datetime_cmp a b with
  | Ok Gt => Ok false
  | Ok _ => Ok true
  | Raise e => Raise e
  end.

(** ** [datetime.strptime] for the two formats the client uses *)

Module Strptime.

(** [\d] on the characters 0 to 9.  Strings are sequences of one-byte
    characters here; the other decimal digits of Unicode, which [\d] also
    matches and [int] reads, are outside the model. *)
Definition is_digit (c : ascii) : bool :=
  let n := N_of_ascii c in ((48 <=? n) && (n <=? 57))%N.

Definition between (lo hi : ascii) (c : ascii) : bool :=
  ((N_of_ascii lo <=? N_of_ascii c) && (N_of_ascii c <=? N_of_ascii hi))%N.

Definition is_char (x : ascii) (c : ascii) : bool := Ascii.eqb x c.

(** One alternative of a group is a sequence of character classes. *)
Fixpoint match_classes (cs : list (ascii -> bool)) (s : string)
  : option (string * string) :=
  match cs with
  | [] => Some (EmptyString, s)
  | p :: cs' =>
      match s with
      | String c s' =>
          if p c then
            match match_classes cs' s' with
            | Some (m, rest) => Some (String c m, rest)
            | None => None
            end
          else None
      | EmptyString => None
      end
  end.

(** The alternatives that match at the head of [s], in the order the regex
    engine tries them. *)
Definition match_group (alts : list (list (ascii -> bool))) (s : string)
  : list (string * string) :=
  omap (fun cs => match_classes cs s) alts.

(** The groups [_strptime] builds for the directives %Y, %m and %d. *)
Definition regex_Y : list (list (ascii -> bool)) :=
  [[is_digit; is_digit; is_digit; is_digit]].
Definition regex_m : list (list (ascii -> bool)) :=
  [[is_char "1"; between "0" "2"]; [is_char "0"; between "1" "9"];
   [between "1" "9"]].
Definition regex_d : list (list (ascii -> bool)) :=
  [[is_char "3"; between "0" "1"]; [between "1" "2"; is_digit];
   [is_char "0"; between "1" "9"]; [between "1" "9"];
   [is_char " "; between "1" "9"]].

Definition match_literal (x : ascii) (s : string) : list string :=
  match s with
  | String c s' => if Ascii.eqb x c then [s'] else []
  | EmptyString => []
  end.

(** All the ways the month and day groups match after the year, in
    backtracking order: (month text, day text, unconverted rest).  [sep] is
    the literal between the directives, if any. *)
Definition month_day_matches (sep : option ascii) (r1 : string)
  : list (string * string * string) :=
  let lit r := match sep with Some c => match_literal c r | None => [r] end in
  r1' ← lit r1;
  '(m, r2) ← match_group regex_m r1';
  r2' ← lit r2;
  '(d, r3) ← match_group regex_d r2';
  [(m, d, r3)].

(** All the ways the compiled format matches a prefix of the data. *)
Definition regex_matches (sep : option ascii) (s : string)
  : list (string * string * string * string) :=
  '(y, r1) ← match_group regex_Y s;
  '(m, d, r3) ← month_day_matches sep r1;
  [(y, m, d, r3)].

(** [int(text)] on a run of digits, possibly after blanks. *)
Fixpoint int_of_digits (acc : Z) (s : string) : Z :=
  match s with
  | EmptyString => acc
  | String c s' =>
      if is_digit c
      then int_of_digits (acc * 10 + Z.of_N (N_of_ascii c) - 48) s'
      else int_of_digits acc s'
  end.

(** [datetime.strptime(s, fmt)] where [fmt] is "%Y-%m-%d" ([sep] is the
    hyphen) or "%Y%m%d" ([sep] is absent).  The first regex match decides;
    data left over after it, or a day the month does not have, raise
    ValueError. *)
Definition strptime (sep : option ascii) (s : string) : result datetime :=
  match regex_matches sep s with
  | [] => Raise ValueError
  | (y, m, d, rest) :: _ =>
      match rest with
      | EmptyString =>
          datetime_new (int_of_digits 0 y) (int_of_digits 0 m)
                       (int_of_digits 0 d) 0 0 0 0 None
      | String _ _ => Raise ValueError
      end
  end.

(** ["-" in s] *)
Fixpoint contains_char (x : ascii) (s : string) : bool :=
  match s with
  | EmptyString => false
  | String c s' => Ascii.eqb x c || contains_char x s'
  end.

(** [d.strftime("%Y%m%d")] *)
Definition digit_char (n : Z) : ascii := ascii_of_N (Z.to_N (48 + n mod 10)).

Definition zfill (width : nat) (n : Z) : string :=
  (fix go (w : nat) (n : Z) (acc : string) : string :=
     match w with
     | O => acc
     | S w' => go w' (n / 10) (String (digit_char n) acc)
     end) width n EmptyString.

(** The year is written with four digits.  For years below 1000 that is
    what the C library does on some platforms and not on others (glibc
    writes 999 for the year 999); the client is used with dates of four
    digits. *)
Definition strftime_Ymd (d : datetime) : string :=
  let '(y, m, dd) := year_month_day d in
  String.append (zfill 4 y) (String.append (zfill 2 m) (zfill 2 dd)).

(** The two spellings of a day the docstring of [date_range] names:
    yyyymmdd and yyyy-mm-dd. *)
Definition compact (y m d : Z) : string :=
  String.append (zfill 4 y) (String.append (zfill 2 m) (zfill 2 d)).
Definition hyphenated (y m d : Z) : string :=
  String.append (zfill 4 y)
    (String "-" (String.append (zfill 2 m) (String "-" (zfill 2 d)))).

End Strptime.

(** ** [date_range] *)

(** The values a caller can pass for [start_date] and [end_date], by their
    concrete runtime type. *)
Inductive pyobj : Type :=
| PyStr (s : string)                         (* type(x) is str *)
| PyDatetime (d : datetime)                  (* type(x) is datetime *)
| PyDatetimeSubclass (cls : string) (d : datetime)
                                             (* e.g. pandas.Timestamp *)
| PyOther (cls : string).                    (* int, None, date, ... *)

(** The two [if type(x) is str: ... elif type(x) is not datetime: raise]
    blocks at the head of [date_range]. *)
Definition normalize_date (x : pyobj) : result datetime :=
  match x with
  | PyStr s =>
      if Strptime.contains_char "-" s
      then Strptime.strptime (Some "-"%char) s
      else Strptime.strptime None s
  | PyDatetime d => Ok d
  | PyDatetimeSubclass _ _ => Raise TypeError
  | PyOther _ => Raise TypeError
  end.

(** [date_range] is a generator function: nothing runs until the first
    [next], and the frame is suspended at each [yield]. *)
Inductive generator : Type :=
| Created (start_date end_date : pyobj) (step_days : Z)
| Suspended (current_date end_date : datetime) (step_days : Z)
| Finished.

Inductive gen_event : Type :=
| Yield (d : datetime)
| StopIteration
| GenRaise (e : exn).

(** The test of the [while] loop followed by the [yield]. *)
Definition loop_test (current_date end_date : datetime) (step_days : Z)
  : gen_event * generator :=
  match datetime_le current_date end_date with
  | Raise e => (GenRaise e, Finished)
  | Ok true => (Yield current_date, Suspended current_date end_date step_days)
  | Ok false => (StopIteration, Finished)
  end.

(** One [next(gen)]. *)
Definition date_range_next (g : generator) : gen_event * generator :=
  match g with
  | Created start_date end_date step_days =>
      match normalize_date start_date with
      | Raise e => (GenRaise e, Finished)
      | Ok start_date =>
          match normalize_date end_date with
          | Raise e => (GenRaise e, Finished)
          | Ok end_date => loop_test start_date end_date step_days
          end
      end
  | Suspended current_date end_date step_days =>
      match timedelta_days step_days with
      | Raise e => (GenRaise e, Finished)
      | Ok n =>
          match datetime_add_days current_date n with
          | Raise e => (GenRaise e, Finished)
          | Ok current_date => loop_test current_date end_date step_days
          end
      end
  | Finished => (StopIteration, Finished)
  end.

(** How a consumer that asked for at most [fuel] items found the generator. *)
Inductive ending : Type :=
| Exhausted                (* StopIteration *)
| Failed (e : exn)         (* an exception came out of next *)
| StillRunning.            (* every one of the [fuel] calls yielded *)

(** Drive the generator with at most [fuel] calls of [next]. *)
Fixpoint consume (fuel : nat) (g : generator) : list datetime * ending :=
  match fuel with
  | O => ([], StillRunning)
  | S fuel' =>
      match date_range_next g with
      | (Yield d, g') =>
          let '(ds, e) := consume fuel' g' in (d :: ds, e)
      | (StopIteration, _) => ([], Exhausted)
      | (GenRaise e, _) => ([], Failed e)
      end
  end.

Definition date_range (start_date end_date : pyobj) (step_days : Z) : generator :=
  Created start_date end_date step_days.

(** The keys the range fetchers send: [s.strftime("%Y%m%d") for s in dates]. *)
Definition date_keys (ds : list datetime) : list string :=
  map Strptime.strftime_Ymd ds.

(** *** Notions used to state the properties of [date_range] *)

(** The time fields are in range. *)
Definition valid_time (d : datetime) : Prop :=
  0 <= hour d < 24 /\ 0 <= minute d < 60 /\ 0 <= second d < 60
  /\ 0 <= microsecond d < 1000000.

(** Two values that [<=] accepts: both naive or both aware. *)
Definition comparable (a b : datetime) : Prop :=
  (tzinfo a = None <-> tzinfo b = None).

(** The offset is one that [utcoffset()] accepts. *)
Definition offset_in_range (d : datetime) : Prop :=
  - US_PER_DAY < utcoffset d < US_PER_DAY.

(** [end - start] in microseconds, for two values that compare: the value
    of [datetime_sub e s]. *)
Definition gap (s e : datetime) : Z :=
  if same_tzinfo (tzinfo s) (tzinfo e) then to_us e - to_us s
  else instant e - instant s.

(** The offset of [d] is the same on every day: its tzinfo is a
    [datetime.timezone] and not a zone with daylight saving time.  A naive
    value has that property. *)
Definition fixed_offset (d : datetime) : Prop :=
  forall o, utcoffset (with_ordinal d o) = utcoffset d.

(** The tests of the loop all compare in one way: start and end have one
    tzinfo object (or none), and then the fields are compared and no offset
    is asked for, or the offset of the start does not depend on the day. *)
Definition steady (s e : datetime) : Prop :=
  same_tzinfo (tzinfo s) (tzinfo e) = true \/ fixed_offset s.

(** The last ordinal at which the start, moved to that day, is not after
    [e], when the tests of the loop are steady. *)
Definition last_ordinal (s e : datetime) : Z :=
  (gap s e + ordinal s * US_PER_DAY) / US_PER_DAY.

(** floor((end - start) / step_days) + 1 *)
Definition span (s e : datetime) (step_days : Z) : Z :=
  gap s e / (step_days * US_PER_DAY) + 1.

(** The spellings of the day (y, m, d) that [date_range] documents: the
    yyyymmdd string, the yyyy-mm-dd string and the datetime at midnight. *)
Definition represents (y m d : Z) (x : pyobj) : Prop :=
  x = PyStr (Strptime.compact y m d)
  \/ x = PyStr (Strptime.hyphenated y m d)
  \/ exists dt, datetime_new y m d 0 0 0 0 None = Ok dt /\ x = PyDatetime dt.

(** [type(x) is str] or [type(x) is datetime]. *)
Definition exact_type_ok (x : pyobj) : bool :=
  match x with
  | PyStr _ | PyDatetime _ => true
  | PyDatetimeSubclass _ _ | PyOther _ => false
  end.

(** A boolean property checked on [n] consecutive integers from [lo]. *)
Fixpoint all_from (f : Z -> bool) (lo : Z) (n : nat) : bool :=
  match n with
  | O => true
  | S n' => f lo && all_from f (lo + 1) n'
  end.

(** The text of month [m] and day [d], as [strftime] writes it, is matched
    whole by the month and day groups and reads back as [m] and [d]. *)
Definition month_day_ok (sep : option ascii) (m d : Z) : bool :=
  let text := match sep with
              | Some c => String c (String.append (Strptime.zfill 2 m)
                                      (String c (Strptime.zfill 2 d)))
              | None => String.append (Strptime.zfill 2 m) (Strptime.zfill 2 d)
              end in
  match Strptime.month_day_matches sep text with
  | (mt, dt, EmptyString) :: _ =>
      (Strptime.int_of_digits 0 mt =? m) && (Strptime.int_of_digits 0 dt =? d)
  | _ => false
  end.

(** ** The client object and the world around it *)

Record JSONClient : Type := mkJSONClient {
  _mail_address : string;
  _password : string;
  _refresh_token : string;
  _refresh_token_expire : Z;
  _id_token : string;
  _id_token_expire : Z
}.

(** A POST: the URL and the JSON body sent with it. *)
Record request : Type := mkrequest {
  req_url : string;
  req_json : list (string * string)
}.

(** What comes back from [session.post]: a response with a status code and a
    JSON object, or no response at all (connection failure, timeout,
    transport retries used up).  The session the client mounts retries by
    itself on the statuses 429, 500, 502, 503 and 504 and, its retries used
    up, raises an exception of its own instead of returning the response;
    here every response is returned and handed to [raise_for_status], as in
    a session that does not retry.  The body is a JSON object; an answer
    whose body does not parse is not among the replies. *)
Inductive reply : Type :=
| Response (status_code : Z) (body : gmap string string)
| NoResponse.

(** The client together with what the run has done so far: how many times the
    clock was read, the POSTs sent (latest first) and the sleeps of the retry
    decorator (latest first). *)
Record state : Type := mkstate {
  self : JSONClient;
  clock_reads : nat;
  posted : list request;
  slept : list Z
}.

(** The state after one more reading of the clock. *)
Definition tick (s : state) : state :=
  mkstate (self s) (S (clock_reads s)) (posted s) (slept s).

Definition M (A : Type) : Type := state -> result A * state.

#[global] Instance M_ret : MRet M := fun A a s => (Ok a, s).
#[global] Instance M_bind : MBind M := fun A B f m s =>
  match m s with
  | (Ok a, s') => f a s'
  | (Raise e, s') => (Raise e, s')
  end.

Definition raise {A : Type} (e : exn) : M A := fun s => (Raise e, s).

Definition gets {A : Type} (f : JSONClient -> A) : M A :=
  fun s => (Ok (f (self s)), s).

Definition modify (f : JSONClient -> JSONClient) : M unit :=
  fun s => (Ok tt, mkstate (f (self s)) (clock_reads s) (posted s) (slept s)).

Definition set_refresh_token (v : string) (c : JSONClient) : JSONClient :=
  mkJSONClient (_mail_address c) (_password c) v (_refresh_token_expire c)
               (_id_token c) (_id_token_expire c).
Definition set_refresh_token_expire (v : Z) (c : JSONClient) : JSONClient :=
  mkJSONClient (_mail_address c) (_password c) (_refresh_token c) v
               (_id_token c) (_id_token_expire c).
Definition set_id_token (v : string) (c : JSONClient) : JSONClient :=
  mkJSONClient (_mail_address c) (_password c) (_refresh_token c)
               (_refresh_token_expire c) v (_id_token_expire c).
Definition set_id_token_expire (v : Z) (c : JSONClient) : JSONClient :=
  mkJSONClient (_mail_address c) (_password c) (_refresh_token c)
               (_refresh_token_expire c) (_id_token c) v.
Definition set_mail_address (v : string) (c : JSONClient) : JSONClient :=
  mkJSONClient v (_password c) (_refresh_token c)
               (_refresh_token_expire c) (_id_token c) (_id_token_expire c).
Definition set_password (v : string) (c : JSONClient) : JSONClient :=
  mkJSONClient (_mail_address c) v (_refresh_token c)
               (_refresh_token_expire c) (_id_token c) (_id_token_expire c).

(** [timedelta(days=6)] and [timedelta(hours=23)] in microseconds. *)
Definition SIX_DAYS : Z := 6 * US_PER_DAY.
Definition TWENTY_THREE_HOURS : Z := 23 * 3600 * 1000000.

Definition JQUANTS_API_BASE : string := "https://api.jpx-jquants.com/v1".

Definition auth_user_url : string :=
  String.append JQUANTS_API_BASE "/token/auth_user".
Definition auth_refresh_prefix : string :=
  String.append JQUANTS_API_BASE "/token/auth_refresh?refreshtoken=".
Definition auth_refresh_url (_refresh_token : string) : string :=
  String.append auth_refresh_prefix _refresh_token.

(** ** The retry policy of the decorator (tenacity) *)

Module Tenacity.

(** [wait_exponential(multiplier, min, max)], with [exp_base] 2: the wait
    after attempt [attempt_number] failed.  [min] is a floor under the
    doubling value and [max] a ceiling over it. *)
Definition wait_exponential (multiplier min_ max_ : Z) (attempt_number : Z) : Z :=
  let exp := 2 ^ (attempt_number - 1) in
  let result := multiplier * exp in
  Z.max (Z.max 0 min_) (Z.min result max_).

(** [stop_after_attempt(max_attempt_number)] *)
Definition stop_after_attempt (max_attempt_number : Z) (attempt_number : Z) : bool :=
  max_attempt_number <=? attempt_number.

(** [retry_if_exception_type(TokenAuthRefreshBadRequestException)] *)
Definition retry_if_exception_type (e : exn) : bool :=
  match e with
  | TokenAuthRefreshBadRequestException _ => true
  | _ => false
  end.

End Tenacity.

(** ** Configuration files and environment variables *)

(** A parsed TOML document: its tables, each a mapping of keys to strings. *)
Definition toml : Type := gmap string (gmap string string).

(** What [_load_config] looks at: whether the process runs in colab, the
    home directory, the regular files by path (a file tomllib cannot parse is
    [None]) and the environment variables. *)
Record os_environment : Type := mkos {
  is_colab : bool;
  home : string;
  files : gmap string (option toml);
  environ : gmap string string
}.

#[global] Instance result_ret : MRet result := fun A a => Ok a.
#[global] Instance result_bind : MBind result := fun A B f m =>
  match m with
  | Ok a => f a
  | Raise e => Raise e
  end.

(** [_read_config]; [tomllib.TOMLDecodeError] is a ValueError. *)
Definition _read_config (os : os_environment) (config_path : string)
  : result (gmap string string) :=
  match files os !! config_path with
  | None => Ok ∅
  | Some None => Raise ValueError
  | Some (Some ret) =>
      match ret !! "jquants-api-client"%string with
      | None => Ok ∅
      | Some table => Ok table
      end
  end.

(** [{**config, **update}] *)
Definition dict_merge (config update : gmap string string) : gmap string string :=
  update ∪ config.

(** [os.environ.get(var, config.get(key, ""))] *)
Definition env_or_config (os : os_environment) (var key : string)
    (config : gmap string string) : string :=
  default (default ""%string (config !! key)) (environ os !! var).

Definition _load_config (os : os_environment) : result (gmap string string) :=
  let config : gmap string string := ∅ in
  config ← (if is_colab os
            then c ← _read_config os
                       "/content/drive/MyDrive/drive_ws/secret/jquants-api.toml";
                 mret (dict_merge config c)
            else mret config);
  c ← _read_config os (String.append (home os) "/.jquants-api/jquants-api.toml");
  let config := dict_merge config c in
  c ← _read_config os "jquants-api.toml";
  let config := dict_merge config c in
  config ← match environ os !! "JQUANTS_API_CLIENT_CONFIG_FILE"%string with
           | Some env_config_path =>
               c ← _read_config os env_config_path;
               mret (dict_merge config c)
           | None => mret config
           end;
  let config :=
    <["mail_address"%string :=
        env_or_config os "JQUANTS_API_MAIL_ADDRESS" "mail_address" config]> config in
  let config :=
    <["password"%string :=
        env_or_config os "JQUANTS_API_PASSWORD" "password" config]> config in
  let config :=
    <["refresh_token"%string :=
        env_or_config os "JQUANTS_API_REFRESH_TOKEN" "refresh_token" config]> config in
  mret config.

(** An argument of the constructor that brings nothing: left out, or the
    empty string. *)
Definition empty_arg (a : option string) : Prop := a = None \/ a = Some ""%string.

(** Neither the configuration files nor the environment variables supply a
    credential: [_load_config] returns three empty strings. *)
Definition supplies_nothing (os : os_environment) : Prop :=
  exists config,
    _load_config os = Ok config
    /\ config !!! "mail_address"%string = ""%string
    /\ config !!! "password"%string = ""%string
    /\ config !!! "refresh_token"%string = ""%string.

Definition blank_client : JSONClient := mkJSONClient "" "" "" 0 "" 0.

(** What the decorator does with the outcome of attempt [attempt_number]:
    hand it back, or sleep and go round again. *)
Inductive verdict (A : Type) : Type :=
| Finish (r : result A)
| Again (wait : Z).
Arguments Finish {A} r.
Arguments Again {A} wait.

Definition MAX_ATTEMPTS : Z := 3.

Definition after_attempt {A : Type} (attempt_number : Z) (r : result A) : verdict A :=
  match r with
  | Ok a => Finish (Ok a)
  | Raise e =>
      if Tenacity.retry_if_exception_type e then
        if Tenacity.stop_after_attempt MAX_ATTEMPTS attempt_number
        then Finish (Raise (RetryError e))
        else Again (Tenacity.wait_exponential 1 5 300 attempt_number)
      else Finish (Raise e)
  end.

Definition is_empty (s : string) : bool := String.eqb s "".

(** ["@" in mail_address] *)
Definition has_at (mail_address : string) : bool :=
  Strptime.contains_char "@" mail_address.

Section Client.

(** The clock and the remote service are given from outside: [utcnow k] is
    what the k-th call of [datetime.now(timezone.utc)] returns, and
    [upstream k r] is the answer to request [r] when it is the k-th POST. *)
Variable utcnow : nat -> Z.
Variable upstream : nat -> request -> reply.

Definition datetime_now : M Z :=
  fun s => (Ok (utcnow (clock_reads s)), tick s).

Definition time_sleep (seconds : Z) : M unit :=
  fun s => (Ok tt, mkstate (self s) (clock_reads s) (posted s) (seconds :: slept s)).

(** [_post]: send, then [raise_for_status], which raises HTTPError for the
    status codes 400 to 599. *)
Definition _post (url : string) (json : list (string * string)) : M (gmap string string) :=
  fun s =>
    let r := mkrequest url json in
    let s' := mkstate (self s) (clock_reads s) (r :: posted s) (slept s) in
    match upstream (List.length (posted s)) r with
    | NoResponse => (Raise ConnectionError, s')
    | Response status_code body =>
        if (400 <=? status_code) && (status_code <? 600)
        then (Raise (HTTPError status_code), s')
        else (Ok body, s')
    end.

(** [ret.json()[key]] *)
Definition json_field (body : gmap string string) (key : string) : M string :=
  match body !! key with
  | Some v => mret v
  | None => raise KeyError
  end.

Definition get_refresh_token (mail_address password : option string) : M string :=
  now ← datetime_now;
  expire ← gets _refresh_token_expire;
  if now <? expire then gets _refresh_token
  else
    mail_address ← match mail_address with
                   | Some m => mret m
                   | None => gets _mail_address
                   end;
    password ← match password with
               | Some p => mret p
               | None => gets _password
               end;
    if is_empty mail_address || is_empty password then raise ValueError
    else if negb (has_at mail_address) then raise ValueError
    else
      ret ← _post auth_user_url
                  [("mailaddress"%string, mail_address); ("password"%string, password)];
      refresh_token ← json_field ret "refreshToken";
      modify (set_refresh_token refresh_token);;
      now ← datetime_now;
      modify (set_refresh_token_expire (now + SIX_DAYS));;
      gets _refresh_token.

(** [__init__], run on the object under construction. *)
Definition __init__ (os : os_environment)
    (refresh_token mail_address password : option string) : M unit :=
  config ← (fun s => (_load_config os, s));
  modify (set_mail_address (config !!! "mail_address"));;
  match mail_address with
  | Some m => modify (set_mail_address m)
  | None => mret tt
  end;;
  modify (set_password (config !!! "password"));;
  match password with
  | Some p => modify (set_password p)
  | None => mret tt
  end;;
  modify (set_refresh_token (config !!! "refresh_token"));;
  match refresh_token with
  | Some r => modify (set_refresh_token r)
  | None => mret tt
  end;;
  now ← datetime_now;
  modify (set_refresh_token_expire now);;
  stored ← gets _refresh_token;
  (if negb (is_empty stored)
   then expire ← gets _refresh_token_expire;
        modify (set_refresh_token_expire (expire + SIX_DAYS))
   else mret tt);;
  modify (set_id_token "");;
  now ← datetime_now;
  modify (set_id_token_expire now);;
  mail ← gets _mail_address;
  pass ← gets _password;
  stored ← gets _refresh_token;
  if (is_empty mail || is_empty pass) && is_empty stored then raise ValueError
  else if negb (is_empty mail) && negb (has_at mail) then raise ValueError
  else mret tt.

(** [JSONClient(refresh_token, mail_address=..., password=...)] when the
    clock has been read [reads] times: the new object, or the exception that
    came out of [__init__]. *)
Definition construct (os : os_environment)
    (refresh_token mail_address password : option string) (reads : nat)
  : result JSONClient :=
  match __init__ os refresh_token mail_address password
                 (mkstate blank_client reads [] []) with
  | (Ok _, s) => Ok (self s)
  | (Raise e, _) => Raise e
  end.

(** The request of the exchange, and a state with one more POST on record. *)
Definition exchange_request (_refresh_token : string) : request :=
  mkrequest (auth_refresh_url _refresh_token) [].

Definition sent (r : request) (s : state) : state :=
  mkstate (self s) (clock_reads s) (r :: posted s) (slept s).

(** The head of [get_id_token]: the cached token when it has not expired,
    otherwise the refresh token to exchange. *)
Definition id_token_check (refresh_token : option string) : M (string + string) :=
  now ← datetime_now;
  expire ← gets _id_token_expire;
  if now <? expire then
    id_token ← gets _id_token; mret (inl id_token)
  else
    _refresh_token ← match refresh_token with
                     | Some r => mret r
                     | None => get_refresh_token None None
                     end;
    mret (inr _refresh_token).

(** The [except HTTPError as e] block. *)
Definition on_http_error {A : Type} (refresh_token : option string) (status_code : Z)
  : M A :=
  mail_address ← gets _mail_address;
  password ← gets _password;
  if bool_decide (refresh_token = None) && (status_code =? 400)
     && negb (is_empty mail_address) && negb (is_empty password)
  then
    modify (set_refresh_token "");;
    now ← datetime_now;
    modify (set_refresh_token_expire now);;
    modify (set_id_token "");;
    now ← datetime_now;
    modify (set_id_token_expire now);;
    raise (TokenAuthRefreshBadRequestException status_code)
  else raise (HTTPError status_code).

(** The rest of [get_id_token]: the exchange inside [try], then the store. *)
Definition id_token_exchange (refresh_token : option string) (_refresh_token : string)
  : M string :=
  let url := auth_refresh_url _refresh_token in
  ret ← (fun s => match _post url [] s with
                  | (Raise (HTTPError status_code), s') =>
                      on_http_error refresh_token status_code s'
                  | r => r
                  end);
  id_token ← json_field ret "idToken";
  modify (set_id_token id_token);;
  now ← datetime_now;
  modify (set_id_token_expire (now + TWENTY_THREE_HOURS));;
  gets _id_token.

(** The undecorated body of [get_id_token]. *)
Definition get_id_token_body (refresh_token : option string) : M string :=
  r ← id_token_check refresh_token;
  match r with
  | inl id_token => mret id_token
  | inr _refresh_token => id_token_exchange refresh_token _refresh_token
  end.

(** The loop of [@retry(...)] from attempt [attempt_number] on; [None] when
    [fuel] rounds were not enough. *)
Fixpoint retrying {A : Type} (fuel : nat) (attempt_number : Z) (fn : M A) (s : state)
  : option (result A * state) :=
  match fuel with
  | O => None
  | S fuel' =>
      let '(r, s') := fn s in
      match after_attempt attempt_number r with
      | Finish r' => Some (r', s')
      | Again wait =>
          let '(_, s'') := time_sleep wait s' in
          retrying fuel' (attempt_number + 1) fn s''
      end
  end.

(** [get_id_token] as callers see it, decorator included. *)
Definition get_id_token (refresh_token : option string) (s : state)
  : option (result string * state) :=
  retrying 3 1 (get_id_token_body refresh_token) s.

(** *** Several callers of [get_id_token] on one client

    The client has no lock, so callers running on different threads
    interleave.  A caller is followed through two stretches, each taken as one
    step: the validity check with the choice of the refresh token, and the
    exchange with the store that follows it.  The decorator acts on a caller
    after either stretch exactly as in [retrying]. *)

Inductive caller : Type :=
| Calling (refresh_token : option string) (attempt_number : Z)
| Exchanging (refresh_token : option string) (attempt_number : Z)
             (_refresh_token : string)
| Returned (r : result string).

Definition settle (refresh_token : option string) (attempt_number : Z)
    (r : result string) (s : state) : caller * state :=
  match after_attempt attempt_number r with
  | Finish r' => (Returned r', s)
  | Again wait =>
      let '(_, s') := time_sleep wait s in
      (Calling refresh_token (attempt_number + 1), s')
  end.

Definition caller_step (c : caller) (s : state) : caller * state :=
  match c with
  | Calling refresh_token attempt_number =>
      match id_token_check refresh_token s with
      | (Ok (inr _refresh_token), s') =>
          (Exchanging refresh_token attempt_number _refresh_token, s')
      | (Ok (inl id_token), s') =>
          settle refresh_token attempt_number (Ok id_token) s'
      | (Raise e, s') => settle refresh_token attempt_number (Raise e) s'
      end
  | Exchanging refresh_token attempt_number _refresh_token =>
      let '(r, s') := id_token_exchange refresh_token _refresh_token s in
      settle refresh_token attempt_number r s'
  | Returned r => (Returned r, s)
  end.

(** A schedule names, step by step, the caller that runs next. *)
Definition schedule_step (p : list caller * state) (i : nat) : list caller * state :=
  match fst p !! i with
  | Some c =>
      let '(c', s') := caller_step c (snd p) in (<[i := c']> (fst p), s')
  | None => p
  end.

Definition run_schedule (schedule : list nat) (p : list caller * state)
  : list caller * state :=
  foldl schedule_step p schedule.

(** [n] callers that have just entered [get_id_token()]. *)
Definition callers (n : nat) : list caller := replicate n (Calling None 1).

End Client.

(** The POSTs to the refresh endpoint: the credential exchanges. *)
Definition is_exchange (r : request) : bool :=
  String.prefix auth_refresh_prefix (req_url r).

Definition exchange_calls (s : state) : nat :=
  List.length (List.filter is_exchange (posted s)).

(** ** The batch range fetch of [Client.get_price_range]

    One task per date is submitted to a [ThreadPoolExecutor] of
    [MAX_WORKERS] threads; the main thread takes the futures from
    [as_completed] and leaves the [with] block through
    [shutdown(wait=True)], which joins the workers after they have run
    every submitted task.  Workers and main thread interleave, so a run is a
    list of events, each allowed or not in the state it meets. *)

Definition MAX_WORKERS : nat := 5.

Section RangeFetch.

Context {dataframe : Type}.
(** [get_prices_daily_quotes(date_yyyymmdd=key)] as the task finds it. *)
Variable fetch : string -> result dataframe.
(** [pd.concat(buff).sort_values(["Code", "Date"])] *)
Variable concat_sorted : list dataframe -> result dataframe.

Inductive future : Type :=
| Queued
| Running
| Done (r : result dataframe).

Inductive main_thread : Type :=
| Collecting (buff : list dataframe)   (* inside the for loop *)
| Leaving (e : exn)                    (* unwinding through the with block *)
| Ended (r : result dataframe).        (* back in the caller *)

Record pool : Type := mkpool {
  futures : list (string * future);    (* in submission order *)
  taken : list nat;                    (* yielded by as_completed, latest first *)
  main : main_thread
}.

Inductive event : Type :=
| WorkerStart (i : nat)      (* a free worker takes task i off the queue *)
| WorkerFinish (i : nat)     (* task i returns or raises *)
| MainNext (i : nat)         (* as_completed yields future i to the loop *)
| MainExit.                  (* the with block is left *)

Definition is_queued (f : string * future) : bool :=
  match snd f with Queued => true | _ => false end.
Definition is_running (f : string * future) : bool :=
  match snd f with Running => true | _ => false end.
Definition is_done (f : string * future) : bool :=
  match snd f with Done _ => true | _ => false end.

Definition all_taken (p : pool) : bool :=
  forallb (fun i => bool_decide (i ∈ taken p)) (seq 0 (List.length (futures p))).

Definition pool_step (ev : event) (p : pool) : option pool :=
  match ev with
  | WorkerStart i =>
      match futures p !! i with
      | Some (key, Queued) =>
          if (List.length (List.filter is_running (futures p)) <? MAX_WORKERS)%nat
             && negb (existsb is_queued (take i (futures p)))
          then Some (mkpool (<[i := (key, Running)]> (futures p)) (taken p) (main p))
          else None
      | _ => None
      end
  | WorkerFinish i =>
      match futures p !! i with
      | Some (key, Running) =>
          Some (mkpool (<[i := (key, Done (fetch key))]> (futures p)) (taken p) (main p))
      | _ => None
      end
  | MainNext i =>
      match main p with
      | Collecting buff =>
          if bool_decide (i ∈ taken p) then None
          else match futures p !! i with
               | Some (_, Done (Ok df)) =>
                   Some (mkpool (futures p) (i :: taken p) (Collecting (buff ++ [df])))
               | Some (_, Done (Raise e)) =>
                   Some (mkpool (futures p) (i :: taken p) (Leaving e))
               | _ => None
               end
      | _ => None
      end
  | MainExit =>
      match main p with
      | Collecting buff =>
          if all_taken p
          then Some (mkpool (futures p) (taken p) (Ended (concat_sorted buff)))
          else None
      | Leaving e =>
          if forallb is_done (futures p)
          then Some (mkpool (futures p) (taken p) (Ended (Raise e)))
          else None
      | Ended _ => None
      end
  end.

Fixpoint pool_run (evs : list event) (p : pool) : option pool :=
  match evs with
  | [] => Some p
  | ev :: evs' =>
      match pool_step ev p with
      | Some p' => pool_run evs' p'
      | None => None
      end
  end.

(** The state once every date of [dates] has been submitted. *)
Definition submitted (keys : list string) : pool :=
  mkpool (map (fun key => (key, Queued)) keys) [] (Collecting []).

(** [get_price_range]: the token is loaded first, and an error there ends
    the call before anything is submitted. *)
Definition get_price_range (preload : result string) (keys : list string) : pool :=
  match preload with
  | Ok _ => submitted keys
  | Raise e => mkpool [] [] (Ended (Raise e))
  end.

(** Future [i] of [p] holds a successful result. *)
Definition succeeded (p : pool) (i : nat) : Prop :=
  exists key df, futures p !! i = Some (key, Done (Ok df)).

(** What holds of every state a run can reach from the submission of
    [keys]. *)
Record pool_inv (keys : list string) (p : pool) : Prop := {
  inv_keys : forall i key f,
      futures p !! i = Some (key, f) ->
      keys !! i = Some key /\ forall r, f = Done r -> r = fetch key;
  inv_length : List.length (futures p) = List.length keys;
  inv_main :
    match main p with
    | Collecting _ => forall i, i ∈ taken p -> succeeded p i
    | Leaving e =>
        exists j rest key,
          taken p = j :: rest
          /\ futures p !! j = Some (key, Done (Raise e))
          /\ forall i, i ∈ rest -> succeeded p i
    | Ended r =>
        (exists e j rest key,
            r = Raise e
            /\ taken p = j :: rest
            /\ futures p !! j = Some (key, Done (Raise e))
            /\ (forall i, i ∈ rest -> succeeded p i)
            /\ forallb is_done (futures p) = true)
        \/ (forall i, (i < List.length (futures p))%nat -> succeeded p i)
    end
}.

End RangeFetch.

(** The service accepts every exchange. *)
Definition always_exchanges (upstream : nat -> request -> reply) : Prop :=
  forall k rt, exists status_code body tok,
    upstream k (exchange_request rt) = Response status_code body
    /\ ~ 400 <= status_code < 600
    /\ body !! "idToken"%string = Some tok.

(** ** Notions used to state further properties of the credentials *)

(** The call returned: it did not raise. *)
Definition is_ok {A : Type} (r : result A) : bool :=
  match r with
  | Ok _ => true
  | Raise _ => false
  end.

(** The credentials a login would use: the argument where given, the stored
    value otherwise. *)
Definition login_mail (mail_address : option string) (c : JSONClient) : string :=
  default (_mail_address c) mail_address.
Definition login_password (password : option string) (c : JSONClient) : string :=
  default (_password c) password.

(** Mail address and password that [get_refresh_token] accepts. *)
Definition usable_login (mail password : string) : Prop :=
  mail <> ""%string /\ password <> ""%string /\ Strptime.contains_char "@" mail = true.

(** The POST of a login. *)
Definition login_request (mail password : string) : request :=
  mkrequest auth_user_url
    [("mailaddress"%string, mail); ("password"%string, password)].

(** The id token had expired at some reading of the clock already taken. *)
Definition expired_before (utcnow : nat -> Z) (s : state) : Prop :=
  exists k, (k <= clock_reads s)%nat /\ _id_token_expire (self s) <= utcnow k.

(** A clock that does not run backwards. *)
Definition monotone_clock (utcnow : nat -> Z) : Prop :=
  forall i j, (i <= j)%nat -> utcnow i <= utcnow j.

(** ** Notions used to state the precedence of the configuration sources *)

Definition colab_config_path : string :=
  "/content/drive/MyDrive/drive_ws/secret/jquants-api.toml".
Definition user_config_path (os : os_environment) : string :=
  String.append (home os) "/.jquants-api/jquants-api.toml".
Definition current_config_path : string := "jquants-api.toml".

(** The table a configuration file contributes: empty when the file is
    absent or has no table of the client. *)
Definition read_table (os : os_environment) (config_path : string)
  : gmap string string :=
  match _read_config os config_path with
  | Ok table => table
  | Raise _ => ∅
  end.

(** The tables [_load_config] merges, the one that wins first: the file named
    by JQUANTS_API_CLIENT_CONFIG_FILE, the file of the current directory, the
    file of the home directory and, in colab, the file of the drive. *)
Definition consulted (os : os_environment) : list (gmap string string) :=
  match environ os !! "JQUANTS_API_CLIENT_CONFIG_FILE"%string with
  | Some env_config_path => [read_table os env_config_path]
  | None => []
  end
  ++ [read_table os current_config_path; read_table os (user_config_path os)]
  ++ (if is_colab os then [read_table os colab_config_path] else []).

Fixpoint lookup_first (key : string) (tables : list (gmap string string))
  : option string :=
  match tables with
  | [] => None
  | table :: rest =>
      match table !! key with
      | Some v => Some v
      | None => lookup_first key rest
      end
  end.

(** The paths [_load_config] opens. *)
Definition consulted_paths (os : os_environment) : list string :=
  (if is_colab os then [colab_config_path] else [])
  ++ [user_config_path os; current_config_path]
  ++ match environ os !! "JQUANTS_API_CLIENT_CONFIG_FILE"%string with
     | Some env_config_path => [env_config_path]
     | None => []
     end.

(** ** Measures and invariants of the range fetch *)

Section RangeFetchNotions.

Context {dataframe : Type}.
Variable fetch : string -> result dataframe.
Variable concat_sorted : list dataframe -> result dataframe.

Definition running (p : @pool dataframe) : nat :=
  List.length (List.filter is_running (futures p)).
Definition queued (p : @pool dataframe) : nat :=
  List.length (List.filter is_queued (futures p)).

(** The futures not yet handed to the loop. *)
Definition untaken (p : @pool dataframe) : nat :=
  List.length (List.filter (fun i => negb (bool_decide (i ∈ taken p)))
                           (seq 0 (List.length (futures p)))).

Definition main_rank (p : @pool dataframe) : nat :=
  match main p with
  | Collecting _ => 2
  | Leaving _ => 1
  | Ended _ => 0
  end.

(** What is left to do: a queued task has two events before it, a running
    one has one, each future is taken once and the loop is left once. *)
Definition work_left (p : @pool dataframe) : nat :=
  2 * queued p + running p + untaken p + main_rank p.

(** Each future belongs to the key at its place, and a finished one holds
    what the fetch of that key gives. *)
Definition futures_ok (keys : list string) (futs : list (string * @future dataframe))
  : Prop :=
  List.length futs = List.length keys
  /\ forall i key f, futs !! i = Some (key, f) ->
       keys !! i = Some key /\ forall r, f = Done r -> r = fetch key.

(** The frames collected are [buff0] followed by the results of the futures
    taken, in the order they were taken, and no future is taken twice. *)
Record collect_inv (buff0 : list dataframe) (keys : list string) (p : @pool dataframe)
  : Prop := {
  ci_nodup : NoDup (taken p);
  ci_main :
    match main p with
    | Collecting buff =>
        exists fetched,
          buff = buff0 ++ fetched
          /\ map (fun df => Some (Ok df)) fetched
             = map (fun i => fetch <$> keys !! i) (reverse (taken p))
    | Leaving e => exists key, key ∈ keys /\ fetch key = Raise e
    | Ended r =>
        (exists e key, key ∈ keys /\ fetch key = Raise e)
        \/ (exists fetched,
               r = concat_sorted (buff0 ++ fetched)
               /\ map Ok fetched ≡ₚ map fetch keys
               /\ forall i, (i < List.length keys)%nat -> i ∈ taken p)
    end
}.

End RangeFetchNotions.

(** ** GET requests: [_base_headers], [_get] and an endpoint *)

(** A GET as [session.get(url, params=params, headers=headers, timeout=30)]
    sends it: the params dict in insertion order, [None] when the caller
    passes none. *)
Record get_request : Type := mkget {
  get_url : string;
  get_params : option (list (string * string));
  get_headers : list (string * string);
  get_timeout : Z
}.

(** What comes back from [session.get]: a response with its status code and
    its body, as the text it decodes to under a given encoding, or no
    response at all.  As for [session.post], every response is returned,
    whatever its status. *)
Inductive get_reply : Type :=
| GetResponse (status_code : Z) (text : string -> string)
| GetNoResponse.

(** The run so far, with the GETs sent (latest first). *)
Record world : Type := mkworld {
  client : state;
  got : list get_request
}.

Definition RAW_ENCODING : string := "utf-8".

(** {"Authorization": f"Bearer {id_token}"} *)
Definition bearer (id_token : string) : list (string * string) :=
  [("Authorization"%string, String.append "Bearer " id_token)].

Section Endpoints.

Variable utcnow : nat -> Z.
Variable upstream : nat -> request -> reply.
(** [service k r] is the answer to [r] when it is the k-th GET. *)
Variable service : nat -> get_request -> get_reply.

Definition _base_headers (w : world)
  : option (result (list (string * string)) * world) :=
  match get_id_token utcnow upstream None (client w) with
  | None => None
  | Some (Ok id_token, s) => Some (Ok (bearer id_token), mkworld s (got w))
  | Some (Raise e, s) => Some (Raise e, mkworld s (got w))
  end.

(** [_get]: the headers first, then the request and [raise_for_status].
    The session is the one [_post] uses; what its adapter retries is part
    of the answer [service] gives. *)
Definition _get (url : string) (params : option (list (string * string))) (w : world)
  : option (result (string -> string) * world) :=
  match _base_headers w with
  | None => None
  | Some (Raise e, w1) => Some (Raise e, w1)
  | Some (Ok headers, w1) =>
      let r := mkget url params headers 30 in
      let w2 := mkworld (client w1) (r :: got w1) in
      match service (List.length (got w1)) r with
      | GetNoResponse => Some (Raise ConnectionError, w2)
      | GetResponse status_code text =>
          if (400 <=? status_code) && (status_code <? 600)
          then Some (Raise (HTTPError status_code), w2)
          else Some (Ok text, w2)
      end
  end.

(** [ret.encoding = self.RAW_ENCODING; return ret.text] *)
Definition raw_text (r : option (result (string -> string) * world))
  : option (result string * world) :=
  match r with
  | Some (Ok text, w) => Some (Ok (text RAW_ENCODING), w)
  | Some (Raise e, w) => Some (Raise e, w)
  | None => None
  end.

Definition get_prices_daily_quotes
    (code from_yyyymmdd to_yyyymmdd date_yyyymmdd : string) (w : world)
  : option (result string * world) :=
  let url := String.append JQUANTS_API_BASE "/prices/daily_quotes" in
  let params := [("code"%string, code)] in
  let params :=
    if negb (is_empty date_yyyymmdd)
    then params ++ [("date"%string, date_yyyymmdd)]
    else
      let params :=
        if negb (is_empty from_yyyymmdd)
        then params ++ [("from"%string, from_yyyymmdd)] else params in
      if negb (is_empty to_yyyymmdd)
      then params ++ [("to"%string, to_yyyymmdd)] else params in
  raw_text (_get url (Some params) w).

End Endpoints.

(** ** [Client.get_statements_range] and its cache directory

    The range fetch of the financial statements differs from
    [Client.get_price_range] in its cache: a first loop reads the dates that
    have a cache file and submits the others, and the loop over
    [as_completed] writes a cache file for each frame it takes. *)

(** f"{cache_dir}/{yyyy}/fins_statements_{yyyymmdd}.csv.gz" with
    [yyyy = yyyymmdd[:4]] *)
Definition cache_file_path (cache_dir yyyymmdd : string) : string :=
  let yyyy := String.substring 0 4 yyyymmdd in
  let cache_file :=
    String.append "fins_statements_" (String.append yyyymmdd ".csv.gz") in
  String.append cache_dir
    (String.append "/" (String.append yyyy (String.append "/" cache_file))).

(** [(cache_dir != "") and os.path.isfile(path)], with the content of the
    file when the test holds; [fs] maps the paths of the regular files to
    their contents. *)
Definition cache_lookup (cache_dir : string) (fs : gmap string string)
    (yyyymmdd : string) : option string :=
  if negb (is_empty cache_dir) then fs !! cache_file_path cache_dir yyyymmdd
  else None.

Definition is_cached (cache_dir : string) (fs : gmap string string)
    (yyyymmdd : string) : bool :=
  match cache_lookup cache_dir fs yyyymmdd with
  | Some _ => true
  | None => false
  end.

(** The dates served from the cache and the dates to fetch. *)
Definition hits (cache_dir : string) (fs : gmap string string) (keys : list string)
  : list string :=
  List.filter (is_cached cache_dir fs) keys.
Definition misses (cache_dir : string) (fs : gmap string string) (keys : list string)
  : list string :=
  List.filter (fun key => negb (is_cached cache_dir fs key)) keys.

Section StatementsRange.

Context {dataframe : Type}.
(** [get_fins_statements(date_yyyymmdd=key)] as the task finds it. *)
Variable fetch : string -> result dataframe.
(** [pd.concat(buff).sort_values(["DisclosedUnixTime", "DisclosureNumber"])] *)
Variable concat_sorted : list dataframe -> result dataframe.
(** [pd.read_csv] on the content of a file, and the content that
    [df.to_csv(path, index=False)] writes.  The cache directory is taken to
    be writable: [os.makedirs] and [to_csv] succeed. *)
Variable read_csv : string -> result dataframe.
Variable to_csv : dataframe -> string.

(** The first loop of the [with] block: a cached date is read into [buff],
    any other is submitted. *)
Fixpoint first_loop (cache_dir : string) (fs : gmap string string)
    (keys : list string) (buff : list dataframe)
    (futs : list (string * @future dataframe))
  : @main_thread dataframe * list (string * @future dataframe) :=
  match keys with
  | [] => (Collecting buff, futs)
  | yyyymmdd :: keys' =>
      match cache_lookup cache_dir fs yyyymmdd with
      | Some content =>
          match read_csv content with
          | Ok df => first_loop cache_dir fs keys' (buff ++ [df]) futs
          | Raise e => (Leaving e, futs)
          end
      | None => first_loop cache_dir fs keys' buff (futs ++ [(yyyymmdd, Queued)])
      end
  end.

(** The executor and the loop, with the files. *)
Record statements_pool : Type := mkstatements {
  run_pool : @pool dataframe;
  run_files : gmap string string
}.

(** Workers, [as_completed] and the exit of the [with] block are those of
    [pool_step]; after a frame is taken its cache file is written when
    [cache_dir] is not empty. *)
Definition statements_step (cache_dir : string) (ev : event) (c : statements_pool)
  : option statements_pool :=
  match pool_step fetch concat_sorted ev (run_pool c) with
  | None => None
  | Some p' =>
      let files' :=
        match ev with
        | MainNext i =>
            match futures (run_pool c) !! i with
            | Some (yyyymmdd, Done (Ok df)) =>
                if negb (is_empty cache_dir)
                then <[cache_file_path cache_dir yyyymmdd := to_csv df]> (run_files c)
                else run_files c
            | _ => run_files c
            end
        | _ => run_files c
        end in
      Some (mkstatements p' files')
  end.

Fixpoint statements_run (cache_dir : string) (evs : list event) (c : statements_pool)
  : option statements_pool :=
  match evs with
  | [] => Some c
  | ev :: evs' =>
      match statements_step cache_dir ev c with
      | Some c' => statements_run cache_dir evs' c'
      | None => None
      end
  end.

(** [get_statements_range] up to the end of its first loop: the token is
    loaded first, and an error there ends the call at once. *)
Definition get_statements_range (preload : result string) (cache_dir : string)
    (fs : gmap string string) (keys : list string) : statements_pool :=
  match preload with
  | Ok _ =>
      let '(m, futs) := first_loop cache_dir fs keys [] [] in
      mkstatements (mkpool futs [] m) fs
  | Raise e => mkstatements (mkpool [] [] (Ended (Raise e))) fs
  end.

(** The cached frames of [keys], in the order of the dates: every cache file
    found reads. *)
Definition read_all (cache_dir : string) (fs : gmap string string)
    (keys : list string) (cached : list dataframe) : Prop :=
  Forall2 (fun key df => exists content,
               cache_lookup cache_dir fs key = Some content
               /\ read_csv content = Ok df)
          (hits cache_dir fs keys) cached.

(** The cache files during a run over the uncached dates [keys]. *)
Record files_inv (cache_dir : string) (fs : gmap string string) (keys : list string)
    (c : statements_pool) : Prop := {
  fi_off : is_empty cache_dir = true -> run_files c = fs;
  fi_old : forall path content,
      fs !! path = Some content -> run_files c !! path = Some content;
  fi_new : forall path content,
      run_files c !! path = Some content ->
      fs !! path = Some content
      \/ (is_empty cache_dir = false
          /\ exists key df, key ∈ keys /\ fetch key = Ok df
                            /\ path = cache_file_path cache_dir key
                            /\ content = to_csv df);
  fi_taken : forall i key df,
      is_empty cache_dir = false ->
      i ∈ taken (run_pool c) ->
      keys !! i = Some key -> fetch key = Ok df ->
      is_Some (run_files c !! cache_file_path cache_dir key)
}.

(** The call is unwinding with [e], or has ended with it, and has written
    nothing. *)
Definition unwinding (e : exn) (fs : gmap string string) (c : statements_pool) : Prop :=
  run_files c = fs
  /\ (main (run_pool c) = Leaving e
      \/ main (run_pool c) = Ended (Raise e)
         /\ forallb is_done (futures (run_pool c)) = true).

End StatementsRange.

(** ** Concrete values used in examples *)

(** Four tzinfo objects: UTC, +09:00, -04:00, and America/New_York as it
    is in 2020: five hours behind UTC until 02:00 on 8 March (ordinal
    737492), four hours behind from then until 02:00 on 1 November (ordinal
    737730), and five hours behind again afterwards. *)
Definition utc : tzinfo_object := timezone 0 0.
Definition tokyo : tzinfo_object := timezone 1 32400000000.
Definition minus_four : tzinfo_object := timezone 3 (-14400000000).
Definition new_york : tzinfo_object :=
  mktzinfo 2 (fun o t =>
                if (o <? 737492) || ((o =? 737492) && (t <? 7200000000))
                then -18000000000
                else if (o <? 737730) || ((o =? 737730) && (t <? 7200000000))
                then -14400000000
                else -18000000000).

(** datetime(2020, 2, 27, 12, 0) and datetime(2020, 2, 27, tzinfo=+09:00) *)
Definition noon_20200227 : datetime := mkdatetime 737482 12 0 0 0 None.
Definition tokyo_20200227 : datetime := mkdatetime 737482 0 0 0 0 (Some tokyo).

(** Noon of 7 March 2020 in New York, and 16:30 of 9 March in UTC. *)
Definition new_york_20200307 : datetime := mkdatetime 737491 12 0 0 0 (Some new_york).
Definition utc_20200309 : datetime := mkdatetime 737493 16 30 0 0 (Some utc).

(** Noon of 31 October 2020 in New York, and 12:30 of 1 November at -04:00. *)
Definition new_york_20201031 : datetime := mkdatetime 737729 12 0 0 0 (Some new_york).
Definition minus_four_20201101 : datetime :=
  mkdatetime 737730 12 30 0 0 (Some minus_four).

(** A clock frozen at 2022-09-08T22:00:00Z, as in the tests, and one that
    advances a second at each reading. *)
Definition frozen_clock (k : nat) : Z := 1662674400000000.
Definition ticking_clock (k : nat) : Z := 1662674400000000 + 1000000 * Z.of_nat k.

(** A service that logs anybody in and refuses every exchange with 400, and
    one that accepts every exchange. *)
Definition rejecting_service (k : nat) (r : request) : reply :=
  if is_exchange r then Response 400 ∅
  else Response 200 {[ "refreshToken"%string := "fresh"%string ]}.
Definition accepting_service (k : nat) (r : request) : reply :=
  if is_exchange r then Response 200 {[ "idToken"%string := "id"%string ]}
  else Response 200 {[ "refreshToken"%string := "fresh"%string ]}.

(** Clients: one built from mail address and password, one that also holds
    a refresh token still valid, one with a valid id token. *)
Definition mail_client : JSONClient :=
  mkJSONClient "user@example.com" "secret" "" 1662674400000000 "" 1662674400000000.
Definition full_client : JSONClient :=
  mkJSONClient "user@example.com" "secret" "stored"
               (1662674400000000 + SIX_DAYS) "" 1662674400000000.
Definition warm_client : JSONClient :=
  mkJSONClient "" "" "stored" (1662674400000000 + SIX_DAYS)
               "cached" (1662674400000000 + TWENTY_THREE_HOURS).

(** The state of a run that has done nothing yet. *)
Definition fresh (c : JSONClient) : state := mkstate c 0 [] [].

(** No configuration file, no environment variable. *)
Definition bare_os : os_environment := mkos false "/home/user" ∅ ∅.

(** A range fetch over two dates, the second of which fails. *)
Definition fetch_fails_on_28 (key : string) : result (list string) :=
  if String.eqb key "20200228" then Raise (HTTPError 500) else Ok [key].
Definition concat_frames (buff : list (list string)) : result (list string) :=
  match buff with
  | [] => Raise ValueError
  | _ => Ok (concat buff)
  end.

(** A service that refuses the stored refresh token and accepts the one a
    login hands out, and one that never answers. *)
Definition renewing_service (k : nat) (r : request) : reply :=
  if is_exchange r then
    if String.eqb (req_url r) (auth_refresh_url "fresh")
    then Response 200 {[ "idToken"%string := "id"%string ]}
    else Response 400 ∅
  else Response 200 {[ "refreshToken"%string := "fresh"%string ]}.
Definition silent_service (k : nat) (r : request) : reply := NoResponse.

(** A client whose tokens have expired and that holds no mail address. *)
Definition spent_client : JSONClient :=
  mkJSONClient "" "" "old" 1662674400000000 "" 1662674400000000.

(** A configuration file in the current directory and a mail address in the
    environment; a configuration file that does not parse. *)
Definition configured_os : os_environment :=
  mkos false "/home/user"
       {[ "jquants-api.toml"%string :=
            Some {[ "jquants-api-client"%string :=
                      {[ "mail_address"%string := "file@example.com"%string;
                         "password"%string := "from-file"%string ]} ]} ]}
       {[ "JQUANTS_API_MAIL_ADDRESS"%string := "env@example.com"%string ]}.
Definition broken_os : os_environment :=
  mkos false "/home/user" {[ "jquants-api.toml"%string := None ]} ∅.

(** A data service that answers every GET with an empty JSON object. *)
Definition data_service (k : nat) (r : get_request) : get_reply :=
  GetResponse 200 (fun encoding => "{}"%string).

(** A fetch that succeeds on every date; a reader of cache files that takes
    the content for the frame and rejects an empty file, as [pd.read_csv]
    does with EmptyDataError (a ValueError); the matching writer. *)
Definition fetch_all (key : string) : result (list string) := Ok [key].
Definition read_csv_lines (content : string) : result (list string) :=
  if is_empty content then Raise ValueError else Ok [content].
Definition to_csv_lines (df : list string) : string := String.concat "," df.

(** A cache directory that holds the file of 2020-02-27, and one in which
    that file is empty. *)
Definition cache_with_27 : gmap string string :=
  {[ cache_file_path "cache" "20200227" := "20200227"%string ]}.
Definition cache_with_empty_27 : gmap string string :=
  {[ cache_file_path "cache" "20200227" := ""%string ]}.

(** * Properties *)

(** ** Reading the monadic code *)

Ltac unfold_m :=
  unfold get_id_token_body, id_token_check, id_token_exchange, on_http_error,
    get_refresh_token, __init__, json_field, _post, datetime_now, time_sleep,
    gets, modify, raise, tick;
  unfold mbind, mret, M_bind, M_ret;
  cbn [self clock_reads posted slept].

Lemma is_empty_true (x : string) : is_empty x = true <-> x = ""%string.
Proof. unfold is_empty. apply String.eqb_eq. Qed.

Lemma is_empty_false (x : string) : is_empty x = false <-> x <> ""%string.
Proof. unfold is_empty. apply String.eqb_neq. Qed.

(** ** Dates: comparison and the loop of [date_range] *)

Lemma valid_datetime_time d : valid_datetime d = true -> valid_time d.
Proof.
  unfold valid_datetime, valid_fields, valid_time. intros H.
  repeat (apply andb_prop in H; destruct H as [H ?]).
  repeat match goal with
         | H : (_ <=? _) = true |- _ => apply Z.leb_le in H
         | H : (_ <? _) = true |- _ => apply Z.ltb_lt in H
         end. lia.
Qed.

Lemma valid_datetime_ordinal d :
  valid_datetime d = true -> 1 <= ordinal d <= Calendar._MAXORDINAL.
Proof.
  unfold valid_datetime, valid_fields. intros H.
  repeat (apply andb_prop in H; destruct H as [H ?]).
  repeat match goal with
         | H : (_ <=? _) = true |- _ => apply Z.leb_le in H
         | H : (_ <? _) = true |- _ => apply Z.ltb_lt in H
         end. lia.
Qed.

Lemma time_of_day_range d : valid_time d -> 0 <= time_of_day d < US_PER_DAY.
Proof. unfold valid_time, time_of_day, US_PER_DAY. lia. Qed.

Lemma base_compare_to_us a b :
  valid_time a -> valid_time b ->
  base_compare a b = (to_us a ?= to_us b).
Proof.
  unfold valid_time, base_compare, to_us, time_of_day, US_PER_DAY.
  intros Ha Hb.
  destruct (Z.compare_spec (ordinal a) (ordinal b));
  destruct (Z.compare_spec (hour a) (hour b));
  destruct (Z.compare_spec (minute a) (minute b));
  destruct (Z.compare_spec (second a) (second b));
  destruct (Z.compare_spec (microsecond a) (microsecond b));
  symmetry; first [apply Z.compare_eq_iff | apply Z.compare_lt_iff | apply Z.compare_gt_iff]; lia.
Qed.

Lemma valid_datetime_offset d : valid_datetime d = true -> offset_in_range d.
Proof.
  unfold valid_datetime, offset_in_range. intros H.
  repeat (apply andb_prop in H as [H ?]). lia.
Qed.

Lemma same_tzinfo_refl z : same_tzinfo z z = true.
Proof. destruct z as [z|]; cbn; [apply Z.eqb_refl|reflexivity]. Qed.

Lemma same_tzinfo_sym a b : same_tzinfo a b = same_tzinfo b a.
Proof. destruct a, b; cbn; try reflexivity. apply Z.eqb_sym. Qed.

Lemma same_tzinfo_None a b :
  same_tzinfo a b = true -> (a = None <-> b = None).
Proof. destruct a, b; cbn; intros H; split; intros E; congruence. Qed.

Lemma same_tzinfo_comparable s e :
  same_tzinfo (tzinfo s) (tzinfo e) = true -> comparable s e.
Proof. apply same_tzinfo_None. Qed.

(** A naive value, and one whose tzinfo is a [timezone], have the same
    offset on every day. *)
Lemma fixed_offset_naive d : tzinfo d = None -> fixed_offset d.
Proof. intros H o. unfold utcoffset. cbn [tzinfo with_ordinal]. now rewrite H. Qed.

Lemma fixed_offset_timezone d id offset :
  tzinfo d = Some (timezone id offset) -> fixed_offset d.
Proof. intros H o. unfold utcoffset. cbn [tzinfo with_ordinal]. now rewrite H. Qed.

Lemma to_us_with_ordinal s o :
  to_us (with_ordinal s o) = o * US_PER_DAY + time_of_day s.
Proof. reflexivity. Qed.

Lemma utcoffset_call_naive d : tzinfo d = None -> utcoffset_call d = Ok None.
Proof. unfold utcoffset_call. now intros ->. Qed.

Lemma utcoffset_call_aware d :
  tzinfo d <> None -> offset_in_range d ->
  utcoffset_call d = Ok (Some (utcoffset d)).
Proof.
  unfold utcoffset_call, offset_in_range, utcoffset.
  destruct (tzinfo d) as [z|]; [|congruence]. intros _ H.
  destruct (Z.ltb_spec (- US_PER_DAY) (tz_utcoffset z (ordinal d) (time_of_day d))); [|lia].
  destruct (Z.ltb_spec (tz_utcoffset z (ordinal d) (time_of_day d)) US_PER_DAY); [|lia].
  reflexivity.
Qed.

(** A naive and an aware value do not compare. *)
Lemma datetime_le_mixed a b :
  offset_in_range a -> offset_in_range b -> ~ comparable a b ->
  datetime_le a b = Raise TypeError.
Proof.
  intros Ha Hb Hc. unfold datetime_le, datetime_cmp.
  unfold comparable in Hc.
  destruct (tzinfo a) as [za|] eqn:Ea, (tzinfo b) as [zb|] eqn:Eb.
  - exfalso. apply Hc. split; discriminate.
  - cbn [same_tzinfo].
    rewrite (utcoffset_call_aware a), (utcoffset_call_naive b); auto; congruence.
  - cbn [same_tzinfo].
    rewrite (utcoffset_call_naive a), (utcoffset_call_aware b); auto; congruence.
  - exfalso. apply Hc. split; reflexivity.
Qed.

(** [end - start] in terms of [gap]. *)
Lemma datetime_sub_gap s e :
  offset_in_range s -> offset_in_range e -> comparable s e ->
  datetime_sub e s = Ok (gap s e).
Proof.
  intros Hs He Hc. unfold datetime_sub, gap.
  rewrite (same_tzinfo_sym (tzinfo e)).
  destruct (same_tzinfo (tzinfo s) (tzinfo e)) eqn:E; [reflexivity|].
  unfold comparable in Hc.
  destruct (tzinfo s) eqn:Es, (tzinfo e) eqn:Ee; try discriminate.
  - rewrite (utcoffset_call_aware e), (utcoffset_call_aware s); auto; congruence.
  - exfalso. destruct Hc as [_ Hc]. now specialize (Hc eq_refl).
  - exfalso. destruct Hc as [Hc _]. now specialize (Hc eq_refl).
Qed.

Lemma last_ordinal_spec s e x :
  x <= last_ordinal s e <-> (x - ordinal s) * US_PER_DAY <= gap s e.
Proof.
  unfold last_ordinal. split; intros H.
  - assert (US_PER_DAY * ((gap s e + ordinal s * US_PER_DAY) / US_PER_DAY)
            <= gap s e + ordinal s * US_PER_DAY)
      by (apply Z.mul_div_le; reflexivity).
    assert (0 < US_PER_DAY) by reflexivity. nia.
  - apply Z.div_le_lower_bound; [reflexivity|]. lia.
Qed.

(** With steady tests the loop has one threshold: the start moved to the
    day of ordinal [o] is not after the end exactly when [o] is not after
    [last_ordinal]. *)
Lemma datetime_le_threshold s e o :
  valid_time s -> valid_time e -> comparable s e -> steady s e ->
  same_tzinfo (tzinfo s) (tzinfo e) = true
  \/ offset_in_range s /\ offset_in_range e ->
  datetime_le (with_ordinal s o) e = Ok (o <=? last_ordinal s e).
Proof.
  intros Hs He Hc Hst Hor.
  assert (Hso : valid_time (with_ordinal s o)) by exact Hs.
  pose proof (last_ordinal_spec s e o) as Hiff.
  pose proof (to_us_with_ordinal s o) as Hus.
  assert (Hs0 : to_us s = ordinal s * US_PER_DAY + time_of_day s) by reflexivity.
  unfold datetime_le, datetime_cmp. cbn [tzinfo with_ordinal].
  unfold gap in Hiff.
  destruct (same_tzinfo (tzinfo s) (tzinfo e)) eqn:E.
  - rewrite (base_compare_to_us _ _ Hso He).
    destruct (Z.compare_spec (to_us (with_ordinal s o)) (to_us e));
      destruct (Z.leb_spec o (last_ordinal s e)); try reflexivity; lia.
  - destruct Hst as [Hst|Hfix]; [congruence|].
    destruct Hor as [Hor|[Hrs Hre]]; [congruence|].
    specialize (Hfix o).
    assert (Hrw : offset_in_range (with_ordinal s o))
      by (unfold offset_in_range; now rewrite Hfix).
    unfold comparable in Hc.
    destruct (tzinfo s) as [za|] eqn:Ea, (tzinfo e) as [zb|] eqn:Eb;
      try discriminate.
    + rewrite (utcoffset_call_aware (with_ordinal s o)), (utcoffset_call_aware e), Hfix;
        auto; [|congruence|cbn [tzinfo with_ordinal]; congruence].
      unfold instant in Hiff.
      destruct (Z.eqb_spec (utcoffset s) (utcoffset e)) as [Hoff|Hoff].
      * rewrite (base_compare_to_us _ _ Hso He).
        destruct (Z.compare_spec (to_us (with_ordinal s o)) (to_us e));
          destruct (Z.leb_spec o (last_ordinal s e)); try reflexivity; lia.
      * destruct (Z.compare_spec (to_us (with_ordinal s o) - utcoffset s)
                                 (to_us e - utcoffset e));
          destruct (Z.leb_spec o (last_ordinal s e)); try reflexivity; lia.
    + exfalso. destruct Hc as [_ Hc]. now specialize (Hc eq_refl).
    + exfalso. destruct Hc as [Hc _]. now specialize (Hc eq_refl).
Qed.

Lemma consume_suspended fuel c e step :
  consume (S fuel) (Suspended c e step)
  = match timedelta_days step with
    | Raise ex => ([], Failed ex)
    | Ok n =>
        match datetime_add_days c n with
        | Raise ex => ([], Failed ex)
        | Ok c' =>
            match datetime_le c' e with
            | Raise ex => ([], Failed ex)
            | Ok true =>
                let '(ds, en) := consume fuel (Suspended c' e step) in (c' :: ds, en)
            | Ok false => ([], Exhausted)
            end
        end
    end.
Proof.
  cbn [consume date_range_next]. unfold loop_test.
  destruct (timedelta_days step); [|reflexivity].
  destruct (datetime_add_days c a); [|reflexivity].
  destruct (datetime_le a0 e) as [[|]|]; reflexivity.
Qed.

Lemma consume_created fuel start_date end_date step s e :
  normalize_date start_date = Ok s ->
  normalize_date end_date = Ok e ->
  consume (S fuel) (Created start_date end_date step)
  = match datetime_le s e with
    | Raise ex => ([], Failed ex)
    | Ok true =>
        let '(ds, en) := consume fuel (Suspended s e step) in (s :: ds, en)
    | Ok false => ([], Exhausted)
    end.
Proof.
  intros Hs He. cbn [consume date_range_next]. rewrite Hs, He. unfold loop_test.
  destruct (datetime_le s e) as [[|]|]; reflexivity.
Qed.

Lemma with_ordinal_same d : with_ordinal d (ordinal d) = d.
Proof. now destruct d. Qed.

Lemma with_ordinal_twice d o o' : with_ordinal (with_ordinal d o) o' = with_ordinal d o'.
Proof. reflexivity. Qed.

Section Loop.

Variables (s e : datetime).
Hypothesis Hs : valid_time s.
Hypothesis He : valid_time e.
Hypothesis Hc : comparable s e.
Hypothesis Hst : steady s e.
Hypothesis Hor :
  same_tzinfo (tzinfo s) (tzinfo e) = true \/ offset_in_range s /\ offset_in_range e.

#[local] Abbreviation T := (last_ordinal s e).
#[local] Abbreviation MAXO := Calendar._MAXORDINAL.

Lemma add_step step o :
  datetime_add_days (with_ordinal s o) step
  = if (0 <? o + step) && (o + step <=? MAXO) then Ok (with_ordinal s (o + step))
    else Raise OverflowError.
Proof. reflexivity. Qed.

(** Going up: after the yield at [o], the loop yields (min T MAXO - o) / step
    more dates. *)
Lemma consume_up step (k : nat) : forall o,
  1 <= step -> 1 <= o <= MAXO -> o <= T ->
  Z.to_nat ((Z.min T MAXO - o) / step) = k ->
  exists ds en,
    List.length ds = k
    /\ (en = Exhausted /\ T <= MAXO \/ en = Failed OverflowError)
    /\ forall fuel, (k < fuel)%nat ->
         consume fuel (Suspended (with_ordinal s o) e step) = (ds, en).
Proof.
  induction k as [|k IH]; intros o Hstep Ho HoT Hk.
  - assert (Hlt : Z.min T MAXO - o < step).
    { assert (0 <= (Z.min T MAXO - o) / step) by (apply Z.div_pos; lia).
      assert ((Z.min T MAXO - o) / step = 0) by lia.
      apply Z.div_small_iff in H0; lia. }
    destruct (timedelta_days step) as [n|ex] eqn:Etd.
    2:{ exists [], (Failed OverflowError). split; [reflexivity|]. split; [auto|].
        intros [|fuel] Hf; [lia|]. rewrite consume_suspended, Etd.
        unfold timedelta_days in Etd. destruct (_ && _); now inversion Etd. }
    assert (n = step) as -> by (unfold timedelta_days in Etd; destruct (_ && _); congruence).
    destruct ((0 <? o + step) && (o + step <=? MAXO)) eqn:Erange.
    + apply andb_prop in Erange as [_ Hle]. apply Z.leb_le in Hle.
      exists [], Exhausted. split; [reflexivity|]. split; [left; split; [reflexivity|lia]|].
      intros [|fuel] Hf; [lia|]. rewrite consume_suspended, Etd, add_step.
      destruct (0 <? o + step) eqn:E0; [|apply Z.ltb_ge in E0; lia].
      destruct (Z.leb_spec (o + step) MAXO); [|lia]. cbn [andb].
      rewrite (datetime_le_threshold _ _ _ Hs He Hc Hst Hor). fold T.
      destruct (Z.leb_spec (o + step) T); [lia|]. reflexivity.
    + exists [], (Failed OverflowError). split; [reflexivity|]. split; [auto|].
      intros [|fuel] Hf; [lia|]. rewrite consume_suspended, Etd, add_step.
      now rewrite Erange.
  - assert (Hge : step <= Z.min T MAXO - o).
    { destruct (Z.lt_ge_cases (Z.min T MAXO - o) step) as [Hlt|]; [|lia].
      rewrite Z.div_small in Hk by lia. discriminate. }
    assert (Hk' : Z.to_nat ((Z.min T MAXO - (o + step)) / step) = k).
    { replace (Z.min T MAXO - o) with ((Z.min T MAXO - (o + step)) + 1 * step) in Hk by lia.
      rewrite Z.div_add in Hk by lia.
      assert (0 <= (Z.min T MAXO - (o + step)) / step) by (apply Z.div_pos; lia).
      lia. }
    destruct (IH (o + step)) as (ds & en & Hlen & Hen & Hrun); try lia.
    exists (with_ordinal s (o + step) :: ds), en.
    split; [cbn; now rewrite Hlen|]. split; [exact Hen|].
    intros [|fuel] Hf; [lia|]. rewrite consume_suspended.
    assert (timedelta_days step = Ok step) as ->.
    { unfold timedelta_days.
      assert (MAXO = 3652059) by reflexivity.
      destruct (Z.leb_spec (-999999999) step); [|lia].
      destruct (Z.leb_spec step 999999999); [|lia]. reflexivity. }
    rewrite add_step.
    destruct (Z.ltb_spec 0 (o + step)); [|lia].
    destruct (Z.leb_spec (o + step) MAXO); [|lia]. cbn [andb].
    rewrite (datetime_le_threshold _ _ _ Hs He Hc Hst Hor). fold T.
    destruct (Z.leb_spec (o + step) T); [|lia].
    rewrite Hrun by lia. reflexivity.
Qed.

(** Standing still. *)
Lemma consume_still step o fuel :
  step = 0 -> 1 <= o <= MAXO -> o <= T ->
  consume fuel (Suspended (with_ordinal s o) e step)
  = (replicate fuel (with_ordinal s o), StillRunning).
Proof.
  intros -> Ho HoT. induction fuel as [|fuel IH]; [reflexivity|].
  rewrite consume_suspended.
  change (timedelta_days 0) with (Ok (A:=Z) 0). cbv iota.
  rewrite add_step, Z.add_0_r.
  destruct (Z.ltb_spec 0 o); [|lia].
  destruct (Z.leb_spec o MAXO); [|lia]. cbn [andb].
  rewrite (datetime_le_threshold _ _ _ Hs He Hc Hst Hor). fold T.
  destruct (Z.leb_spec o T); [|lia].
  rewrite IH. reflexivity.
Qed.

(** Going down: the dates stay on or before the end and the loop is cut off
    by the lower end of the calendar. *)
Lemma consume_down step (k : nat) : forall o,
  step <= -1 -> 1 <= o <= MAXO -> o <= T ->
  Z.to_nat ((o - 1) / (- step)) = k ->
  exists ds,
    List.length ds = k
    /\ Forall (fun d => datetime_le d e = Ok true) ds
    /\ forall fuel, (k < fuel)%nat ->
         consume fuel (Suspended (with_ordinal s o) e step) = (ds, Failed OverflowError).
Proof.
  induction k as [|k IH]; intros o Hstep Ho HoT Hk.
  - assert (Hlt : o - 1 < - step).
    { assert (0 <= (o - 1) / (- step)) by (apply Z.div_pos; lia).
      assert ((o - 1) / (- step) = 0) by lia.
      apply Z.div_small_iff in H0; lia. }
    exists []. split; [reflexivity|]. split; [constructor|].
    intros [|fuel] Hf; [lia|]. rewrite consume_suspended.
    unfold timedelta_days. destruct (_ && _); [|reflexivity].
    rewrite add_step. destruct (Z.ltb_spec 0 (o + step)); [lia|]. reflexivity.
  - assert (Hge : - step <= o - 1).
    { destruct (Z.lt_ge_cases (o - 1) (- step)) as [Hlt|]; [|lia].
      rewrite Z.div_small in Hk by lia. discriminate. }
    assert (Hk' : Z.to_nat ((o + step - 1) / (- step)) = k).
    { replace (o - 1) with ((o + step - 1) + 1 * (- step)) in Hk by lia.
      rewrite Z.div_add in Hk by lia.
      assert (0 <= (o + step - 1) / (- step)) by (apply Z.div_pos; lia).
      lia. }
    destruct (IH (o + step)) as (ds & Hlen & Hall & Hrun); try lia.
    assert (Hle : datetime_le (with_ordinal s (o + step)) e = Ok true).
    { rewrite (datetime_le_threshold _ _ _ Hs He Hc Hst Hor). fold T.
      destruct (Z.leb_spec (o + step) T); [reflexivity|lia]. }
    exists (with_ordinal s (o + step) :: ds).
    split; [cbn; now rewrite Hlen|]. split; [now constructor|].
    intros [|fuel] Hf; [lia|]. rewrite consume_suspended.
    assert (timedelta_days step = Ok step) as ->.
    { unfold timedelta_days.
      assert (MAXO = 3652059) by reflexivity.
      destruct (Z.leb_spec (-999999999) step); [|lia].
      destruct (Z.leb_spec step 999999999); [|lia]. reflexivity. }
    rewrite add_step.
    destruct (Z.ltb_spec 0 (o + step)); [|lia].
    destruct (Z.leb_spec (o + step) MAXO); [|lia]. cbn [andb].
    rewrite Hle, Hrun by lia. reflexivity.
Qed.

End Loop.

(** ** Dates: the strings [strptime] reads *)

Module StrptimeFacts.
Import Strptime.

Lemma all_from_spec f n : forall lo x,
  all_from f lo n = true -> lo <= x < lo + Z.of_nat n -> f x = true.
Proof.
  induction n as [|n IH]; intros lo x H Hx; [lia|].
  cbn [all_from] in H. apply andb_prop in H as [H0 H1].
  destruct (Z.eq_dec x lo) as [->|]; [exact H0|].
  apply (IH (lo + 1)); [exact H1|lia].
Qed.

Lemma is_digit_digit_char n : is_digit (digit_char n) = true.
Proof.
  unfold digit_char. assert (0 <= n mod 10 < 10) as H by (apply Z.mod_pos_bound; lia).
  revert H. generalize (n mod 10). intros r Hr.
  apply (all_from_spec (fun r => is_digit (ascii_of_N (Z.to_N (48 + r)))) 10 0 r);
    [reflexivity|lia].
Qed.

Lemma hyphen_digit_char n : Ascii.eqb "-" (digit_char n) = false.
Proof.
  unfold digit_char. assert (0 <= n mod 10 < 10) as H by (apply Z.mod_pos_bound; lia).
  revert H. generalize (n mod 10). intros r Hr.
  apply (all_from_spec (fun r => negb (Ascii.eqb "-" (ascii_of_N (Z.to_N (48 + r))))) 10 0 r) in Hr;
    [now apply negb_true_iff in Hr|reflexivity].
Qed.

Lemma zfill_4 y :
  zfill 4 y = String (digit_char (y / 10 / 10 / 10)) (String (digit_char (y / 10 / 10))
               (String (digit_char (y / 10)) (String (digit_char y) EmptyString))).
Proof. reflexivity. Qed.

Lemma zfill_2 n : zfill 2 n = String (digit_char (n / 10)) (String (digit_char n) EmptyString).
Proof. reflexivity. Qed.

Lemma int_of_zfill_4 y : 0 <= y < 10000 -> int_of_digits 0 (zfill 4 y) = y.
Proof.
  intros H.
  apply (all_from_spec (fun y => int_of_digits 0 (zfill 4 y) =? y)
           (Z.to_nat 10000) 0 y) in H;
    [now apply Z.eqb_eq in H|vm_compute; reflexivity].
Qed.

Lemma append_cons c a b : String.append (String c a) b = String c (String.append a b).
Proof. reflexivity. Qed.

Lemma append_nil b : String.append EmptyString b = b.
Proof. reflexivity. Qed.

Lemma match_year y rest :
  match_group regex_Y (String.append (zfill 4 y) rest) = [(zfill 4 y, rest)].
Proof.
  rewrite zfill_4, !append_cons, append_nil. unfold match_group, regex_Y.
  cbn -[is_digit digit_char Z.div]. rewrite !is_digit_digit_char. reflexivity.
Qed.

Lemma month_day_ok_all sep m d :
  sep = None \/ sep = Some "-"%char ->
  1 <= m <= 12 -> 1 <= d <= 31 -> month_day_ok sep m d = true.
Proof.
  intros Hsep Hm Hd.
  assert (forall sep, sep = None \/ sep = Some "-"%char ->
            all_from (fun m => all_from (fun d => month_day_ok sep m d) 1 31) 1 12 = true) as Hall.
  { intros ? [-> | ->]; vm_compute; reflexivity. }
  specialize (Hall sep Hsep).
  apply (all_from_spec _ _ _ m) in Hall; [|lia].
  apply (all_from_spec _ _ _ d) in Hall; [exact Hall|lia].
Qed.

Lemma contains_char_append x a b :
  contains_char x (String.append a b) = contains_char x a || contains_char x b.
Proof.
  induction a as [|c a IH]; [reflexivity|].
  rewrite append_cons. cbn [contains_char]. rewrite IH. apply orb_assoc.
Qed.

Lemma contains_hyphen_zfill_2 n : contains_char "-" (zfill 2 n) = false.
Proof. rewrite zfill_2. cbn [contains_char]. now rewrite !hyphen_digit_char. Qed.

Lemma contains_hyphen_zfill_4 n : contains_char "-" (zfill 4 n) = false.
Proof. rewrite zfill_4. cbn [contains_char]. now rewrite !hyphen_digit_char. Qed.

Lemma check_date_fields_range y m d :
  Calendar.check_date_fields y m d = true ->
  1 <= y <= 9999 /\ 1 <= m <= 12 /\ 1 <= d <= 31.
Proof.
  unfold Calendar.check_date_fields, Calendar.MINYEAR, Calendar.MAXYEAR. intros H.
  repeat (apply andb_prop in H; destruct H as [H ?]).
  repeat match goal with
         | H : (_ <=? _) = true |- _ => apply Z.leb_le in H
         end.
  assert (Calendar._days_in_month y m <= 31).
  { unfold Calendar._days_in_month. destruct (_ && _); [lia|].
    assert (m = 1 \/ m = 2 \/ m = 3 \/ m = 4 \/ m = 5 \/ m = 6 \/ m = 7 \/ m = 8
            \/ m = 9 \/ m = 10 \/ m = 11 \/ m = 12) as Hc by lia.
    repeat destruct Hc as [-> | Hc]; try subst m; apply Z.leb_le; reflexivity. }
  lia.
Qed.

Lemma strptime_of_text sep y m d :
  sep = None \/ sep = Some "-"%char ->
  1 <= y <= 9999 -> 1 <= m <= 12 -> 1 <= d <= 31 ->
  strptime sep
    (String.append (zfill 4 y)
       match sep with
       | Some c => String c (String.append (zfill 2 m) (String c (zfill 2 d)))
       | None => String.append (zfill 2 m) (zfill 2 d)
       end)
  = datetime_new y m d 0 0 0 0 None.
Proof.
  intros Hsep Hy Hm Hd. unfold strptime, regex_matches.
  rewrite match_year. cbn [mbind list_bind].
  pose proof (month_day_ok_all sep m d Hsep Hm Hd) as Hok.
  unfold month_day_ok in Hok.
  destruct (month_day_matches sep _) as [|[[mt dt] rest] tl]; [discriminate|].
  destruct rest; [|discriminate].
  apply andb_prop in Hok as [H1 H2]. apply Z.eqb_eq in H1, H2.
  cbn -[int_of_digits zfill datetime_new]. rewrite H1, H2, int_of_zfill_4 by lia.
  reflexivity.
Qed.

Lemma normalize_compact y m d :
  Calendar.check_date_fields y m d = true ->
  normalize_date (PyStr (compact y m d)) = datetime_new y m d 0 0 0 0 None.
Proof.
  intros H. apply check_date_fields_range in H as (Hy & Hm & Hd).
  unfold normalize_date, compact.
  rewrite !contains_char_append, contains_hyphen_zfill_4, !contains_hyphen_zfill_2.
  cbn [orb]. apply (strptime_of_text None); auto.
Qed.

Lemma normalize_hyphenated y m d :
  Calendar.check_date_fields y m d = true ->
  normalize_date (PyStr (hyphenated y m d)) = datetime_new y m d 0 0 0 0 None.
Proof.
  intros H. apply check_date_fields_range in H as (Hy & Hm & Hd).
  unfold normalize_date, hyphenated.
  rewrite contains_char_append. cbn [contains_char].
  rewrite Ascii.eqb_refl, orb_true_r.
  apply (strptime_of_text (Some "-"%char)); auto.
Qed.

End StrptimeFacts.

(** ** Dates: one day, several spellings *)

Lemma datetime_new_valid y m d h mi sec us tz dt :
  datetime_new y m d h mi sec us tz = Ok dt ->
  valid_fields dt = true /\ tzinfo dt = tz.
Proof.
  unfold datetime_new. destruct (Calendar.check_date_fields y m d); [|discriminate].
  cbn [andb]. destruct (valid_fields _) eqn:E; [|discriminate].
  intros [= <-]. now split.
Qed.

Lemma valid_naive d :
  valid_fields d = true -> tzinfo d = None -> valid_datetime d = true.
Proof. unfold valid_datetime, utcoffset. now intros -> ->. Qed.

(** What [strptime] returns is naive. *)
Lemma normalize_str_naive t d :
  normalize_date (PyStr t) = Ok d -> tzinfo d = None /\ valid_datetime d = true.
Proof.
  assert (forall sep, Strptime.strptime sep t = Ok d ->
                      tzinfo d = None /\ valid_datetime d = true) as H.
  { intros sep. unfold Strptime.strptime.
    destruct (Strptime.regex_matches sep t) as [|[[[y m] dd] rest] tl]; [discriminate|].
    destruct rest; [|discriminate].
    intros E. apply datetime_new_valid in E as [Hf Hz].
    split; [exact Hz|now apply valid_naive]. }
  cbn [normalize_date]. destruct (Strptime.contains_char _ _); apply H.
Qed.

Lemma represents_normalize y m d x :
  Calendar.check_date_fields y m d = true ->
  represents y m d x ->
  normalize_date x = datetime_new y m d 0 0 0 0 None.
Proof.
  intros Hc [-> | [-> | (dt & Hdt & ->)]].
  - now apply StrptimeFacts.normalize_compact.
  - now apply StrptimeFacts.normalize_hyphenated.
  - now rewrite Hdt.
Qed.

Lemma consume_normalized a a' b b' step fuel :
  normalize_date a = normalize_date a' ->
  normalize_date b = normalize_date b' ->
  consume fuel (date_range a b step) = consume fuel (date_range a' b' step).
Proof.
  intros Ha Hb. destruct fuel as [|fuel]; [reflexivity|].
  unfold date_range. cbn [consume date_range_next]. now rewrite Ha, Hb.
Qed.

(** two runs whose loops stop at the same ordinal yield the same days *)
Lemma consume_same_days s e s' e' step :
  valid_time s -> valid_time e ->
  same_tzinfo (tzinfo s) (tzinfo e) = true ->
  valid_time s' -> valid_time e' ->
  same_tzinfo (tzinfo s') (tzinfo e') = true ->
  last_ordinal s e = last_ordinal s' e' ->
  forall fuel o,
    map ordinal (fst (consume fuel (Suspended (with_ordinal s o) e step)))
    = map ordinal (fst (consume fuel (Suspended (with_ordinal s' o) e' step)))
    /\ snd (consume fuel (Suspended (with_ordinal s o) e step))
       = snd (consume fuel (Suspended (with_ordinal s' o) e' step)).
Proof.
  intros Hs He Hz Hs' He' Hz' HT. induction fuel as [|fuel IH]; intros o; [now split|].
  rewrite !consume_suspended.
  destruct (timedelta_days step) as [n|ex]; [|now split].
  rewrite !add_step. destruct (_ && _); [|now split].
  rewrite (datetime_le_threshold s e _ Hs He (same_tzinfo_comparable _ _ Hz)
             (or_introl Hz) (or_introl Hz)),
          (datetime_le_threshold s' e' _ Hs' He' (same_tzinfo_comparable _ _ Hz')
             (or_introl Hz') (or_introl Hz')), HT.
  destruct (_ <=? _); [|now split].
  specialize (IH (o + n)).
  destruct (consume fuel (Suspended (with_ordinal s (o + n)) e step)) as [ds en].
  destruct (consume fuel (Suspended (with_ordinal s' (o + n)) e' step)) as [ds' en'].
  cbn in IH |- *. destruct IH as [-> ->]. now split.
Qed.

Lemma date_keys_ordinal ds ds' :
  map ordinal ds = map ordinal ds' -> date_keys ds = date_keys ds'.
Proof.
  unfold date_keys. revert ds'. induction ds as [|d ds IH]; intros [|d' ds'] H;
    try discriminate; [reflexivity|].
  cbn in H. injection H as Ho Hrest. cbn [map].
  rewrite (IH _ Hrest). f_equal.
  unfold Strptime.strftime_Ymd, year_month_day. now rewrite Ho.
Qed.

Lemma valid_time_midnight d : valid_time (at_midnight d).
Proof. unfold valid_time, at_midnight; cbn. lia. Qed.

Lemma last_ordinal_same_zone s e :
  valid_time s -> valid_time e ->
  same_tzinfo (tzinfo s) (tzinfo e) = true ->
  time_of_day s <= time_of_day e ->
  last_ordinal s e = ordinal e.
Proof.
  intros Hs He Htz Hle. unfold last_ordinal, gap, to_us. rewrite Htz.
  pose proof (time_of_day_range _ Hs). pose proof (time_of_day_range _ He).
  replace (ordinal e * US_PER_DAY + time_of_day e
           - (ordinal s * US_PER_DAY + time_of_day s) + ordinal s * US_PER_DAY)
    with ((time_of_day e - time_of_day s) + ordinal e * US_PER_DAY) by lia.
  rewrite Z.div_add by discriminate. rewrite Z.div_small by lia. lia.
Qed.

Lemma last_ordinal_same_zone_before s e :
  valid_time s -> valid_time e ->
  same_tzinfo (tzinfo s) (tzinfo e) = true ->
  time_of_day e < time_of_day s ->
  last_ordinal s e = ordinal e - 1.
Proof.
  intros Hs He Htz Hlt. unfold last_ordinal, gap, to_us. rewrite Htz.
  pose proof (time_of_day_range _ Hs). pose proof (time_of_day_range _ He).
  replace (ordinal e * US_PER_DAY + time_of_day e
           - (ordinal s * US_PER_DAY + time_of_day s) + ordinal s * US_PER_DAY)
    with ((time_of_day e - time_of_day s + US_PER_DAY) + (ordinal e - 1) * US_PER_DAY)
    by lia.
  rewrite Z.div_add by discriminate. rewrite Z.div_small by lia. lia.
Qed.

(** two ranges, each between values of one tzinfo object, that start on the
    same day and stop at the same ordinal *)
Lemma range_same_days s e s' e' step fuel :
  valid_time s -> valid_time e -> valid_time s' -> valid_time e' ->
  same_tzinfo (tzinfo s) (tzinfo e) = true ->
  same_tzinfo (tzinfo s') (tzinfo e') = true ->
  ordinal s' = ordinal s ->
  last_ordinal s e = last_ordinal s' e' ->
  date_keys (fst (consume fuel (date_range (PyDatetime s) (PyDatetime e) step)))
  = date_keys (fst (consume fuel (date_range (PyDatetime s') (PyDatetime e') step)))
  /\ snd (consume fuel (date_range (PyDatetime s) (PyDatetime e) step))
     = snd (consume fuel (date_range (PyDatetime s') (PyDatetime e') step)).
Proof.
  intros Hs He Hs' He' Hz Hz' Hord HT.
  assert (Hle : datetime_le s e = Ok (ordinal s <=? last_ordinal s e)).
  { rewrite <- (with_ordinal_same s) at 1.
    apply datetime_le_threshold; auto using same_tzinfo_comparable. now left. }
  assert (Hle' : datetime_le s' e' = Ok (ordinal s <=? last_ordinal s e)).
  { rewrite <- (with_ordinal_same s') at 1. rewrite Hord, HT.
    apply datetime_le_threshold; auto using same_tzinfo_comparable. now left. }
  unfold date_range. destruct fuel as [|fuel]; [split; reflexivity|].
  rewrite (consume_created _ (PyDatetime s) (PyDatetime e) _ s e eq_refl eq_refl).
  rewrite (consume_created _ (PyDatetime s') (PyDatetime e') _ s' e' eq_refl eq_refl).
  rewrite Hle, Hle'.
  destruct (ordinal s <=? last_ordinal s e); [|split; reflexivity].
  destruct (consume_same_days s e s' e' step Hs He Hz Hs' He' Hz' HT fuel (ordinal s))
    as [Hds Hen].
  rewrite (with_ordinal_same s) in Hds, Hen.
  rewrite <- Hord, (with_ordinal_same s') in Hds, Hen.
  destruct (consume fuel (Suspended s e step)) as [ds en].
  destruct (consume fuel (Suspended s' e' step)) as [ds0 en0].
  cbn [fst snd] in *. split; [|exact Hen].
  apply date_keys_ordinal. cbn [map]. now rewrite Hds, Hord.
Qed.

(** ** Dates: how long the iteration runs *)

Lemma start_before_end s e :
  ordinal s <= last_ordinal s e <-> 0 <= gap s e.
Proof. rewrite last_ordinal_spec. lia. Qed.

Lemma last_ordinal_distance s e :
  last_ordinal s e - ordinal s = gap s e / US_PER_DAY.
Proof.
  unfold last_ordinal. rewrite Z.div_add by discriminate. lia.
Qed.

Lemma last_ordinal_le_end s e :
  valid_time s -> valid_time e ->
  same_tzinfo (tzinfo s) (tzinfo e) = true \/ utcoffset s = utcoffset e ->
  last_ordinal s e <= ordinal e.
Proof.
  intros Hs He Htz.
  pose proof (time_of_day_range _ Hs). pose proof (time_of_day_range _ He).
  assert (last_ordinal s e < ordinal e + 1); [|lia].
  unfold last_ordinal. apply Z.div_lt_upper_bound; [reflexivity|].
  unfold gap, instant, to_us.
  destruct (same_tzinfo (tzinfo s) (tzinfo e)); [lia|].
  destruct Htz as [Htz|Htz]; [discriminate|]. lia.
Qed.

Lemma timedelta_days_ok step n : timedelta_days step = Ok n -> n = step.
Proof. unfold timedelta_days. destruct (_ && _); congruence. Qed.

(** Whatever the tzinfo objects answer, a loop that goes up ends: the
    date leaves the calendar after year 9999 at the latest. *)
Lemma consume_ends e step (k : nat) : forall c,
  1 <= step -> ordinal c <= Calendar._MAXORDINAL ->
  Z.to_nat ((Calendar._MAXORDINAL - ordinal c) / step) = k ->
  exists ds en,
    (List.length ds <= k)%nat /\ en <> StillRunning
    /\ forall fuel, (List.length ds < fuel)%nat ->
         consume fuel (Suspended c e step) = (ds, en).
Proof.
  induction k as [|k IH]; intros c Hstep Ho Hk.
  - exists [], (Failed OverflowError). split; [reflexivity|]. split; [discriminate|].
    intros [|fuel] Hf; [cbn in Hf; lia|]. rewrite consume_suspended.
    destruct (timedelta_days step) as [n|ex] eqn:Etd.
    2:{ unfold timedelta_days in Etd. destruct (_ && _); now inversion Etd. }
    apply timedelta_days_ok in Etd as ->.
    assert (Hlt : Calendar._MAXORDINAL - ordinal c < step).
    { assert (0 <= (Calendar._MAXORDINAL - ordinal c) / step) by (apply Z.div_pos; lia).
      assert ((Calendar._MAXORDINAL - ordinal c) / step = 0) as H0 by lia.
      apply Z.div_small_iff in H0; lia. }
    unfold datetime_add_days.
    destruct (Z.leb_spec (ordinal c + step) Calendar._MAXORDINAL); [lia|].
    now rewrite andb_false_r.
  - destruct (timedelta_days step) as [n|ex] eqn:Etd.
    2:{ exists [], (Failed ex). split; [cbn; lia|]. split; [discriminate|].
        intros [|fuel] Hf; [cbn in Hf; lia|]. now rewrite consume_suspended, Etd. }
    pose proof (timedelta_days_ok _ _ Etd) as ->.
    destruct (datetime_add_days c step) as [c'|ex] eqn:Ea.
    2:{ exists [], (Failed ex). split; [cbn; lia|]. split; [discriminate|].
        intros [|fuel] Hf; [cbn in Hf; lia|]. now rewrite consume_suspended, Etd, Ea. }
    destruct (datetime_le c' e) as [[|]|ex] eqn:El.
    + unfold datetime_add_days in Ea.
      destruct (Z.ltb_spec 0 (ordinal c + step)); [|discriminate].
      destruct (Z.leb_spec (ordinal c + step) Calendar._MAXORDINAL); [|discriminate].
      cbn [andb] in Ea. injection Ea as <-.
      destruct (IH (with_ordinal c (ordinal c + step))) as (ds & en & Hlen & Hen & Hrun);
        [lia|cbn [ordinal with_ordinal]; lia| |].
      { cbn [ordinal with_ordinal].
        replace (Calendar._MAXORDINAL - ordinal c)
          with ((Calendar._MAXORDINAL - (ordinal c + step)) + 1 * step) in Hk by lia.
        rewrite Z.div_add in Hk by lia.
        assert (0 <= (Calendar._MAXORDINAL - (ordinal c + step)) / step)
          by (apply Z.div_pos; lia).
        lia. }
      exists (with_ordinal c (ordinal c + step) :: ds), en.
      split; [cbn; lia|]. split; [exact Hen|].
      intros [|fuel] Hf; [cbn in Hf; lia|]. rewrite consume_suspended, Etd.
      unfold datetime_add_days.
      destruct (Z.ltb_spec 0 (ordinal c + step)); [|lia].
      destruct (Z.leb_spec (ordinal c + step) Calendar._MAXORDINAL); [|lia].
      cbn [andb]. rewrite El, Hrun by (cbn in Hf; lia). reflexivity.
    + exists [], Exhausted. split; [cbn; lia|]. split; [discriminate|].
      intros [|fuel] Hf; [cbn in Hf; lia|]. now rewrite consume_suspended, Etd, Ea, El.
    + exists [], (Failed ex). split; [cbn; lia|]. split; [discriminate|].
      intros [|fuel] Hf; [cbn in Hf; lia|]. now rewrite consume_suspended, Etd, Ea, El.
Qed.

(** C10, as amended.  Let the inputs normalise to valid datetimes.  With
    [step_days >= 1] the iteration ends, whatever the tzinfo objects answer:
    by StopIteration or by an exception, after at most
    floor((9999-12-31 - start) / step_days) + 1 dates.  Let start and end,
    moreover, compare (both naive or both aware) and the tests of the loop be
    steady: start and end have the same tzinfo object (or none), or the
    offset of the start is the same on every day (no daylight saving time).
    Then [end - start] is [gap] and [start <= end] says that it is not
    negative, and: with [step_days >= 1] the iteration ends by StopIteration
    or by the OverflowError of a date past year 9999; it yields no date when
    start > end and otherwise at least one and at most
    floor((end - start) / step_days) + 1 dates, exactly that many when both
    have the same tzinfo object or the same offset, or when it ends by
    StopIteration.  With [step_days = 0] and start <= end it yields the start
    date for ever.  With [step_days <= -1] and start <= end no date exceeds
    the end date, and after floor((start.toordinal() - 1) / -step_days) + 1
    dates the iteration ends with OverflowError, the date having left the
    calendar at year 1 (or the step being too large for a timedelta). *)
Theorem date_range_termination start_date end_date step_days s e :
  normalize_date start_date = Ok s ->
  normalize_date end_date = Ok e ->
  valid_datetime s = true ->
  valid_datetime e = true ->
  let g := date_range start_date end_date step_days in
  (1 <= step_days ->
   exists ds en,
     (forall fuel, (List.length ds < fuel)%nat -> consume fuel g = (ds, en))
     /\ en <> StillRunning
     /\ Z.of_nat (List.length ds)
        <= (Calendar._MAXORDINAL - ordinal s) / step_days + 1)
  /\ (comparable s e -> steady s e ->
      datetime_sub e s = Ok (gap s e)
      /\ datetime_le s e = Ok (0 <=? gap s e)
      /\ (1 <= step_days ->
          exists ds en,
            (forall fuel, (List.length ds < fuel)%nat -> consume fuel g = (ds, en))
            /\ (en = Exhausted \/ en = Failed OverflowError)
            /\ (gap s e < 0 -> ds = [] /\ en = Exhausted)
            /\ (0 <= gap s e ->
                1 <= Z.of_nat (List.length ds) <= span s e step_days
                /\ (same_tzinfo (tzinfo s) (tzinfo e) = true
                    \/ utcoffset s = utcoffset e \/ en = Exhausted ->
                    Z.of_nat (List.length ds) = span s e step_days)))
      /\ (step_days = 0 -> 0 <= gap s e ->
          forall fuel, consume fuel g = (replicate fuel s, StillRunning))
      /\ (step_days <= -1 -> 0 <= gap s e ->
          exists ds,
            (forall fuel, (List.length ds < fuel)%nat ->
                          consume fuel g = (ds, Failed OverflowError))
            /\ Z.of_nat (List.length ds) = (ordinal s - 1) / (- step_days) + 1
            /\ Forall (fun d => datetime_le d e = Ok true) ds)).
Proof.
  intros Hns Hne Hvs Hve g.
  pose proof (valid_datetime_time _ Hvs) as Hts.
  pose proof (valid_datetime_time _ Hve) as Hte.
  pose proof (valid_datetime_ordinal _ Hvs) as Hos.
  pose proof (valid_datetime_offset _ Hvs) as Hrs.
  pose proof (valid_datetime_offset _ Hve) as Hre.
  split.
  { intros Hstep.
    assert (Hk : 0 <= (Calendar._MAXORDINAL - ordinal s) / step_days)
      by (apply Z.div_pos; lia).
    destruct (datetime_le s e) as [[|]|ex] eqn:El.
    - destruct (consume_ends e step_days _ s Hstep (proj2 Hos) eq_refl)
        as (ds & en & Hlen & Hen & Hrun).
      exists (s :: ds), en. split; [|split; [exact Hen|]].
      + intros [|fuel] Hf; [cbn in Hf; lia|]. unfold g, date_range.
        rewrite (consume_created _ _ _ _ _ _ Hns Hne), El, Hrun by (cbn in Hf; lia).
        reflexivity.
      + cbn [List.length]. lia.
    - exists [], Exhausted. split; [|split; [discriminate|cbn; lia]].
      intros [|fuel] Hf; [cbn in Hf; lia|]. unfold g, date_range.
      now rewrite (consume_created _ _ _ _ _ _ Hns Hne), El.
    - exists [], (Failed ex). split; [|split; [discriminate|cbn; lia]].
      intros [|fuel] Hf; [cbn in Hf; lia|]. unfold g, date_range.
      now rewrite (consume_created _ _ _ _ _ _ Hns Hne), El. }
  intros Hc Hst.
  assert (Hor : same_tzinfo (tzinfo s) (tzinfo e) = true
                \/ offset_in_range s /\ offset_in_range e) by auto.
  assert (Hle : datetime_le s e = Ok (ordinal s <=? last_ordinal s e)).
  { rewrite <- (with_ordinal_same s) at 1. now apply datetime_le_threshold. }
  assert (Hstart : forall fuel,
            consume (S fuel) g
            = if ordinal s <=? last_ordinal s e
              then let '(ds, en) := consume fuel (Suspended (with_ordinal s (ordinal s)) e step_days)
                   in (s :: ds, en)
              else ([], Exhausted)).
  { intros fuel. unfold g, date_range.
    rewrite (consume_created _ _ _ _ _ _ Hns Hne), Hle, with_ordinal_same.
    now destruct (_ <=? _). }
  split; [now apply datetime_sub_gap|].
  split.
  { rewrite Hle. f_equal. pose proof (start_before_end s e).
    destruct (Z.leb_spec (ordinal s) (last_ordinal s e));
      destruct (Z.leb_spec 0 (gap s e)); try reflexivity; lia. }
  split; [|split].
  - intros Hstep.
    destruct (Z.leb_spec (ordinal s) (last_ordinal s e)) as [HT|HT].
    + destruct (consume_up s e Hts Hte Hc Hst Hor step_days _ (ordinal s) Hstep Hos HT eq_refl)
        as (ds & en & Hlen & Hen & Hrun).
      exists (s :: ds), en. split; [|split; [|split]].
      * intros [|fuel] Hf; [cbn in Hf; lia|]. rewrite Hstart.
        cbn [List.length] in Hf. rewrite Hrun by lia. reflexivity.
      * destruct Hen as [[-> _]| ->]; auto.
      * intros Hlt. apply start_before_end in HT. lia.
      * intros _. cbn [List.length]. rewrite Hlen.
        set (Tm := Z.min (last_ordinal s e) Calendar._MAXORDINAL) in *.
        assert (Hdiv : forall x, 0 <= x -> Z.of_nat (Z.to_nat (x / step_days)) = x / step_days).
        { intros x Hx. apply Z2Nat.id. apply Z.div_pos; lia. }
        assert (Hspan : span s e step_days
                        = (last_ordinal s e - ordinal s) / step_days + 1).
        { unfold span. rewrite last_ordinal_distance, Z.div_div by (discriminate || lia).
          now rewrite (Z.mul_comm US_PER_DAY). }
        rewrite Nat2Z.inj_succ, Hdiv by (unfold Tm; lia). rewrite Hspan.
        split.
        -- split.
           ++ assert (0 <= (Tm - ordinal s) / step_days) by (apply Z.div_pos; unfold Tm; lia). lia.
           ++ assert ((Tm - ordinal s) / step_days
                      <= (last_ordinal s e - ordinal s) / step_days)
                by (apply Z.div_le_mono; unfold Tm; lia). lia.
        -- intros Hcase.
           assert (last_ordinal s e <= Calendar._MAXORDINAL) as Hb.
           { pose proof (valid_datetime_ordinal _ Hve).
             destruct Hcase as [Htz | [Htz | ->]].
             - pose proof (last_ordinal_le_end s e Hts Hte (or_introl Htz)). lia.
             - pose proof (last_ordinal_le_end s e Hts Hte (or_intror Htz)). lia.
             - destruct Hen as [[_ ?]|?]; [assumption|discriminate]. }
           unfold Tm. rewrite Z.min_l by exact Hb. reflexivity.
    + exists [], Exhausted. split; [|split; [|split]].
      * intros [|fuel] Hf; [cbn in Hf; lia|]. rewrite Hstart.
        destruct (Z.leb_spec (ordinal s) (last_ordinal s e)); [lia|reflexivity].
      * auto.
      * auto.
      * intros Hle'. apply start_before_end in Hle'. lia.
  - intros -> Hse fuel. apply start_before_end in Hse.
    destruct fuel as [|fuel]; [reflexivity|]. rewrite Hstart.
    destruct (Z.leb_spec (ordinal s) (last_ordinal s e)); [|lia].
    rewrite (consume_still s e Hts Hte Hc Hst Hor 0 _ _ eq_refl Hos Hse), with_ordinal_same.
    reflexivity.
  - intros Hstep Hse. apply start_before_end in Hse.
    destruct (consume_down s e Hts Hte Hc Hst Hor step_days _ (ordinal s) Hstep Hos Hse eq_refl)
      as (ds & Hlen & Hall & Hrun).
    exists (s :: ds). split; [|split].
    + intros [|fuel] Hf; [cbn in Hf; lia|]. rewrite Hstart.
      destruct (Z.leb_spec (ordinal s) (last_ordinal s e)); [|lia].
      cbn [List.length] in Hf. rewrite Hrun by lia. reflexivity.
    + cbn [List.length]. rewrite Hlen, Nat2Z.inj_succ, Z2Nat.id; [lia|].
      apply Z.div_pos; lia.
    + constructor; [|exact Hall]. rewrite Hle.
      destruct (Z.leb_spec (ordinal s) (last_ordinal s e)); [reflexivity|lia].
Qed.

(** ** Dates: the claims on representations and types *)

(** C4, as amended.  The yyyymmdd string, the yyyy-mm-dd string and the
    naive datetime at midnight of one calendar day are interchangeable as
    start and as end: the generator behaves the same whichever is passed.
    A datetime is otherwise used as it is.  For valid start and end with
    the same tzinfo object (or both naive), the keys are those of the two
    days at midnight when the start's time of day is not later than the
    end's, and those up to the day before the end's when it is later.  A
    naive value (what a string becomes) and an aware one raise TypeError at
    the first comparison, before any date.  A subclass instance raises
    TypeError as start, and as end once the start has been normalised. *)
Theorem same_day_same_range :
  (forall y m d y' m' d' a a' b b' step_days fuel,
      Calendar.check_date_fields y m d = true ->
      Calendar.check_date_fields y' m' d' = true ->
      represents y m d a -> represents y m d a' ->
      represents y' m' d' b -> represents y' m' d' b' ->
      consume fuel (date_range a b step_days)
      = consume fuel (date_range a' b' step_days))
  /\ (forall s e step_days fuel,
         valid_datetime s = true -> valid_datetime e = true ->
         same_tzinfo (tzinfo s) (tzinfo e) = true ->
         time_of_day s <= time_of_day e ->
         let r := consume fuel (date_range (PyDatetime s) (PyDatetime e) step_days) in
         let r0 := consume fuel (date_range (PyDatetime (at_midnight s))
                                            (PyDatetime (at_midnight e)) step_days) in
         date_keys (fst r) = date_keys (fst r0) /\ snd r = snd r0)
  /\ (forall s e step_days fuel,
         valid_datetime s = true -> valid_datetime e = true ->
         same_tzinfo (tzinfo s) (tzinfo e) = true ->
         time_of_day e < time_of_day s ->
         1 < ordinal e ->
         let day_before := at_midnight (with_ordinal e (ordinal e - 1)) in
         let r := consume fuel (date_range (PyDatetime s) (PyDatetime e) step_days) in
         let r0 := consume fuel (date_range (PyDatetime (at_midnight s))
                                            (PyDatetime day_before) step_days) in
         valid_fields day_before = true
         /\ date_keys (fst r) = date_keys (fst r0) /\ snd r = snd r0)
  /\ (forall t d, normalize_date (PyStr t) = Ok d ->
                  tzinfo d = None /\ valid_datetime d = true)
  /\ (forall a b s e step_days fuel,
         normalize_date a = Ok s -> normalize_date b = Ok e ->
         valid_datetime s = true -> valid_datetime e = true ->
         ~ comparable s e ->
         consume (S fuel) (date_range a b step_days) = ([], Failed TypeError))
  /\ (forall cls d b step_days fuel,
         consume (S fuel) (date_range (PyDatetimeSubclass cls d) b step_days)
         = ([], Failed TypeError))
  /\ (forall cls d a s step_days fuel,
         normalize_date a = Ok s ->
         consume (S fuel) (date_range a (PyDatetimeSubclass cls d) step_days)
         = ([], Failed TypeError)).
Proof.
  split; [|split; [|split; [|split; [|split; [|split]]]]].
  - intros y m d y' m' d' a a' b b' step fuel Hc Hc' Ha Ha' Hb Hb'.
    apply consume_normalized.
    + now rewrite (represents_normalize _ _ _ _ Hc Ha), (represents_normalize _ _ _ _ Hc Ha').
    + now rewrite (represents_normalize _ _ _ _ Hc' Hb), (represents_normalize _ _ _ _ Hc' Hb').
  - intros s e step fuel Hvs Hve Htz Htod r r0.
    pose proof (valid_datetime_time _ Hvs) as Hts.
    pose proof (valid_datetime_time _ Hve) as Hte.
    assert (Hz0 : same_tzinfo (tzinfo (at_midnight s)) (tzinfo (at_midnight e)) = true)
      by exact Htz.
    apply range_same_days; auto using valid_time_midnight.
    rewrite !last_ordinal_same_zone; auto using valid_time_midnight.
    reflexivity.
  - intros s e step fuel Hvs Hve Htz Htod Ho day_before r r0.
    pose proof (valid_datetime_time _ Hvs) as Hts.
    pose proof (valid_datetime_time _ Hve) as Hte.
    split.
    { pose proof (valid_datetime_ordinal _ Hve) as Hoe.
      unfold valid_fields, day_before. cbn [ordinal hour minute second microsecond
                                             at_midnight with_ordinal].
      destruct (Z.leb_spec 1 (ordinal e - 1)); [|lia].
      destruct (Z.leb_spec (ordinal e - 1) Calendar._MAXORDINAL); [|lia].
      reflexivity. }
    assert (Hz0 : same_tzinfo (tzinfo (at_midnight s)) (tzinfo day_before) = true)
      by exact Htz.
    assert (Hd : valid_time day_before) by apply valid_time_midnight.
    apply range_same_days; auto using valid_time_midnight.
    rewrite last_ordinal_same_zone_before by auto.
    rewrite last_ordinal_same_zone; auto using valid_time_midnight.
    reflexivity.
  - apply normalize_str_naive.
  - intros a b s e step fuel Ha Hb Hvs Hve Hc. unfold date_range.
    rewrite (consume_created _ _ _ _ _ _ Ha Hb).
    now rewrite datetime_le_mixed by auto using valid_datetime_offset.
  - reflexivity.
  - intros cls d a s step fuel Ha. unfold date_range.
    cbn [consume date_range_next]. now rewrite Ha.
Qed.

(** Against C4 as stated: 2020-02-27 as a string and as a datetime at noon
    give different key sequences up to the string 20200302, the same day
    with an offset cannot be compared with a string's naive datetime, and a
    subclass instance of that day is rejected. *)
Lemma time_of_day_changes_keys :
  datetime_new 2020 2 27 12 0 0 0 None = Ok noon_20200227
  /\ datetime_new 2020 2 27 0 0 0 0 (Some tokyo) = Ok tokyo_20200227
  /\ date_keys (fst (consume 10 (date_range (PyStr "20200227") (PyStr "20200302") 1)))
     = ["20200227"; "20200228"; "20200229"; "20200301"; "20200302"]%string
  /\ date_keys (fst (consume 10 (date_range (PyDatetime noon_20200227) (PyStr "20200302") 1)))
     = ["20200227"; "20200228"; "20200229"; "20200301"]%string
  /\ consume 10 (date_range (PyDatetime tokyo_20200227) (PyStr "20200302") 1)
     = ([], Failed TypeError)
  /\ consume 10 (date_range (PyDatetimeSubclass "Timestamp" (at_midnight noon_20200227))
                            (PyStr "20200302") 1)
     = ([], Failed TypeError).
Proof. vm_compute. repeat split. Qed.

Lemma normalize_date_errors x ex :
  normalize_date x = Raise ex -> ex = TypeError \/ ex = ValueError.
Proof.
  destruct x as [t|d|cls d|cls]; cbn [normalize_date]; try (intros [= <-]; auto; fail);
    try discriminate.
  assert (forall sep, Strptime.strptime sep t = Raise ex -> ex = ValueError) as H.
  { intros sep. unfold Strptime.strptime, datetime_new.
    repeat case_match; intros; simplify_eq; reflexivity. }
  destruct (Strptime.contains_char _ _); intros E; right; eapply H; exact E.
Qed.

(** C9, as amended.  A [start_date] that is neither a str nor exactly a
    datetime makes the first [next] raise TypeError, nothing having been
    yielded.  An [end_date] of that kind does the same once [start_date] has
    been normalised; when [start_date] is rejected first, its own exception
    (TypeError, or the ValueError of [strptime]) is the one raised, still
    before any date.  A value of a proper subclass of datetime is of that
    kind. *)
Theorem date_range_type_check start_date end_date step_days :
  let g := date_range start_date end_date step_days in
  (exact_type_ok start_date = false ->
   forall fuel, consume (S fuel) g = ([], Failed TypeError))
  /\ (exact_type_ok end_date = false ->
      forall fuel,
        match normalize_date start_date with
        | Ok _ => consume (S fuel) g = ([], Failed TypeError)
        | Raise ex =>
            consume (S fuel) g = ([], Failed ex) /\ (ex = TypeError \/ ex = ValueError)
        end)
  /\ (forall cls d, exact_type_ok (PyDatetimeSubclass cls d) = false).
Proof.
  intros g. unfold g, date_range. split; [|split].
  - intros H fuel. cbn [consume date_range_next].
    destruct start_date; try discriminate; reflexivity.
  - intros H fuel. cbn [consume date_range_next].
    destruct (normalize_date start_date) as [s|ex] eqn:E.
    + destruct end_date; try discriminate; reflexivity.
    + split; [reflexivity|]. now apply normalize_date_errors in E.
  - reflexivity.
Qed.

(** Against C9 as stated: with an end date of a wrong type and a start
    string [strptime] cannot read, the exception is ValueError. *)
Lemma bad_start_string_raises_ValueError :
  exact_type_ok (PyOther "NoneType") = false
  /\ consume 1 (date_range (PyStr "2020/02/27") (PyOther "NoneType") 1)
     = ([], Failed ValueError).
Proof. vm_compute. split; reflexivity. Qed.

(** Against C10 as stated: from 0001-01-02 to itself with step -1 the
    iteration yields two dates and ends with OverflowError. *)
Lemma negative_step_terminates :
  normalize_date (PyStr "00010102") = Ok (mkdatetime 2 0 0 0 0 None)
  /\ datetime_le (mkdatetime 2 0 0 0 0 None) (mkdatetime 2 0 0 0 0 None) = Ok true
  /\ consume 3 (date_range (PyStr "00010102") (PyStr "00010102") (-1))
     = ([mkdatetime 2 0 0 0 0 None; mkdatetime 1 0 0 0 0 None], Failed OverflowError)
  /\ snd (consume 3 (date_range (PyStr "00010102") (PyStr "00010102") (-1)))
     <> StillRunning.
Proof. vm_compute. repeat split. discriminate. Qed.

(** Daylight saving time.  From noon of 7 March 2020 in New York to 16:30
    of 9 March in UTC there are 47 hours and a half, so that
    floor((end - start) / 1 day) + 1 is 2; the iteration yields three dates,
    the clocks of New York having gone forward in the night to 8 March:
    noon of 9 March there is 16:00 in UTC.  The tests of that loop are not
    steady. *)
Lemma daylight_saving_adds_a_date :
  valid_datetime new_york_20200307 = true
  /\ valid_datetime utc_20200309 = true
  /\ comparable new_york_20200307 utc_20200309
  /\ ~ steady new_york_20200307 utc_20200309
  /\ datetime_sub utc_20200309 new_york_20200307 = Ok 171000000000
  /\ span new_york_20200307 utc_20200309 1 = 2
  /\ consume 5 (date_range (PyDatetime new_york_20200307) (PyDatetime utc_20200309) 1)
     = ([new_york_20200307;
         with_ordinal new_york_20200307 737492;
         with_ordinal new_york_20200307 737493], Exhausted).
Proof.
  split; [reflexivity|]. split; [reflexivity|].
  split; [split; discriminate|].
  split.
  { intros [H|H]; [discriminate H|].
    specialize (H 737493). vm_compute in H. discriminate H. }
  split; [reflexivity|]. split; reflexivity.
Qed.

(** The same offset does not make up for another tzinfo object.  Noon of 31
    October 2020 in New York and 12:30 of 1 November at -04:00 have the
    same offset, and the start's time of day is the earlier; the range
    between them has one key and the range between their midnights two, the
    clocks of New York going back on 1 November at 02:00. *)
Lemma same_offset_other_tzinfo :
  utcoffset new_york_20201031 = utcoffset minus_four_20201101
  /\ time_of_day new_york_20201031 <= time_of_day minus_four_20201101
  /\ date_keys (fst (consume 5 (date_range (PyDatetime new_york_20201031)
                                           (PyDatetime minus_four_20201101) 1)))
     = ["20201031"]%string
  /\ date_keys (fst (consume 5 (date_range
                                  (PyDatetime (at_midnight new_york_20201031))
                                  (PyDatetime (at_midnight minus_four_20201101)) 1)))
     = ["20201031"; "20201101"]%string.
Proof.
  split; [reflexivity|]. split; [vm_compute; discriminate|].
  split; vm_compute; reflexivity.
Qed.
(** ** The credentials *)

Section ClientFacts.

Variable utcnow : nat -> Z.
Variable upstream : nat -> request -> reply.

(** *** The validity check *)

Lemma id_token_check_valid refresh_token s :
  utcnow (clock_reads s) < _id_token_expire (self s) ->
  id_token_check utcnow upstream refresh_token s
  = (Ok (inl (_id_token (self s))), tick s).
Proof.
  intros H. unfold_m.
  destruct (Z.ltb_spec (utcnow (clock_reads s)) (_id_token_expire (self s))); [|lia].
  reflexivity.
Qed.

Lemma id_token_check_given r s :
  _id_token_expire (self s) <= utcnow (clock_reads s) ->
  id_token_check utcnow upstream (Some r) s = (Ok (inr r), tick s).
Proof.
  intros H. unfold_m.
  destruct (Z.ltb_spec (utcnow (clock_reads s)) (_id_token_expire (self s))); [lia|].
  reflexivity.
Qed.

Lemma id_token_check_stored s :
  _id_token_expire (self s) <= utcnow (clock_reads s) ->
  id_token_check utcnow upstream None s =
    match get_refresh_token utcnow upstream None None (tick s) with
    | (Ok r, s') => (Ok (inr r), s')
    | (Raise e, s') => (Raise e, s')
    end.
Proof.
  intros H. unfold id_token_check, datetime_now, gets.
  unfold mbind, mret, M_bind, M_ret. cbn [self clock_reads posted slept tick].
  destruct (Z.ltb_spec (utcnow (clock_reads s)) (_id_token_expire (self s))); [lia|].
  destruct (get_refresh_token _ _ None None _) as [[r|e] s']; reflexivity.
Qed.

(** A fast-path return: the body, then the whole decorated call. *)
Lemma get_id_token_body_valid refresh_token s :
  utcnow (clock_reads s) < _id_token_expire (self s) ->
  get_id_token_body utcnow upstream refresh_token s
  = (Ok (_id_token (self s)), tick s).
Proof.
  intros H. unfold get_id_token_body, mbind, M_bind.
  rewrite id_token_check_valid by exact H. reflexivity.
Qed.

(** C2. When the cached id token expires strictly after the current
    time, [get_id_token] returns the cached token, and the state afterwards
    differs only in the count of clock readings: the client (both tokens and
    both expiries) is the same, no POST was sent (neither the exchange nor a
    login) and nothing slept. *)
Theorem get_id_token_cached refresh_token s :
  utcnow (clock_reads s) < _id_token_expire (self s) ->
  get_id_token utcnow upstream refresh_token s
  = Some (Ok (_id_token (self s)), tick s)
  /\ self (tick s) = self s
  /\ posted (tick s) = posted s
  /\ slept (tick s) = slept s.
Proof.
  intros H. split; [|now unfold tick].
  unfold get_id_token. cbn [retrying].
  rewrite get_id_token_body_valid by exact H. reflexivity.
Qed.

(** *** What one attempt leaves behind *)

Lemma prefix_append (p x : string) : String.prefix p (String.append p x) = true.
Proof.
  induction p as [|c p IH]; simpl.
  - now destruct x.
  - destruct (Ascii.ascii_dec c c); [exact IH|congruence].
Qed.

Lemma is_exchange_request rt : is_exchange (exchange_request rt) = true.
Proof. unfold is_exchange, exchange_request, auth_refresh_url. apply prefix_append. Qed.

Lemma is_exchange_login json : is_exchange (mkrequest auth_user_url json) = false.
Proof. reflexivity. Qed.

(** [get_refresh_token] never sleeps, and sends at most the login. *)
Lemma get_refresh_token_frame mail_address password s r s' :
  get_refresh_token utcnow upstream mail_address password s = (r, s') ->
  slept s' = slept s
  /\ (posted s' = posted s
      \/ exists json, posted s' = mkrequest auth_user_url json :: posted s).
Proof.
  unfold_m. intros H.
  repeat case_match; simplify_eq; cbn; eauto.
Qed.

(** A successful [get_refresh_token] either handed back the cached token or
    logged in and stored the new token with its expiry. *)
Lemma get_refresh_token_ok mail_address password s tok s' :
  get_refresh_token utcnow upstream mail_address password s = (Ok tok, s') ->
  (utcnow (clock_reads s) < _refresh_token_expire (self s)
   /\ tok = _refresh_token (self s) /\ s' = tick s)
  \/ (_refresh_token_expire (self s) <= utcnow (clock_reads s)
      /\ _refresh_token (self s') = tok
      /\ _refresh_token_expire (self s') = utcnow (Nat.pred (clock_reads s')) + SIX_DAYS
      /\ exists json, posted s' = mkrequest auth_user_url json :: posted s).
Proof.
  unfold_m. intros H.
  destruct (Z.ltb_spec (utcnow (clock_reads s)) (_refresh_token_expire (self s))).
  - left. simplify_eq. auto.
  - right. repeat case_match; simplify_eq; cbn; eauto.
Qed.

(** The [except] block always raises, whatever the [try] would have
    returned. *)
Lemma on_http_error_raises {A B} refresh_token status_code s :
  exists e s',
    on_http_error (A:=A) utcnow refresh_token status_code s = (Raise e, s')
    /\ on_http_error (A:=B) utcnow refresh_token status_code s = (Raise e, s').
Proof. unfold_m. case_match; eauto. Qed.

(** The exchange, by the answer of the service. *)
Lemma id_token_exchange_http_error refresh_token rt s status_code body :
  upstream (List.length (posted s)) (exchange_request rt) = Response status_code body ->
  400 <= status_code < 600 ->
  id_token_exchange utcnow upstream refresh_token rt s
  = on_http_error utcnow refresh_token status_code (sent (exchange_request rt) s).
Proof.
  intros Hup Hst. unfold id_token_exchange, _post, mbind, M_bind.
  fold (exchange_request rt). rewrite Hup.
  destruct (Z.leb_spec 400 status_code); [|lia].
  destruct (Z.ltb_spec status_code 600); [|lia].
  cbn [andb]. fold (sent (exchange_request rt) s).
  destruct (on_http_error_raises (A:=gmap string string) (B:=string)
              refresh_token status_code (sent (exchange_request rt) s))
    as (e & s' & -> & ->).
  reflexivity.
Qed.

Lemma on_http_error_retry {A} status_code s :
  status_code = 400 ->
  _mail_address (self s) <> ""%string ->
  _password (self s) <> ""%string ->
  on_http_error (A:=A) utcnow None status_code s
  = (Raise (TokenAuthRefreshBadRequestException status_code),
     mkstate (set_id_token_expire (utcnow (S (clock_reads s)))
               (set_id_token ""
                 (set_refresh_token_expire (utcnow (clock_reads s))
                   (set_refresh_token "" (self s)))))
             (S (S (clock_reads s))) (posted s) (slept s)).
Proof.
  intros -> Hm Hp. unfold_m.
  apply is_empty_false in Hm, Hp. rewrite Hm, Hp.
  rewrite bool_decide_eq_true_2 by reflexivity. reflexivity.
Qed.

Lemma on_http_error_propagate {A} refresh_token status_code s :
  ~ (refresh_token = None /\ status_code = 400
     /\ _mail_address (self s) <> ""%string /\ _password (self s) <> ""%string) ->
  on_http_error (A:=A) utcnow refresh_token status_code s
  = (Raise (HTTPError status_code), s).
Proof.
  intros Hn. unfold_m.
  destruct (bool_decide (refresh_token = None) && (status_code =? 400)
            && negb (is_empty (_mail_address (self s)))
            && negb (is_empty (_password (self s)))) eqn:E; [|reflexivity].
  exfalso. apply Hn.
  repeat (apply andb_prop in E; destruct E as [E ?]).
  apply bool_decide_eq_true_1 in E.
  repeat match goal with
         | H : negb _ = true |- _ => apply negb_true_iff, is_empty_false in H
         end.
  intuition lia.
Qed.

(** *** One round of the decorator *)

Lemma retrying_unfold {A} fuel attempt_number (fn : M A) s :
  retrying (S fuel) attempt_number fn s
  = match after_attempt attempt_number (fst (fn s)) with
    | Finish r => Some (r, snd (fn s))
    | Again wait =>
        retrying fuel (attempt_number + 1) fn
          (mkstate (self (snd (fn s))) (clock_reads (snd (fn s)))
                   (posted (snd (fn s))) (wait :: slept (snd (fn s))))
    end.
Proof. cbn [retrying]. destruct (fn s) as [r s']. reflexivity. Qed.

Lemma wait_before_third attempt_number :
  attempt_number < 3 -> Tenacity.wait_exponential 1 5 300 attempt_number = 5.
Proof.
  intros H. unfold Tenacity.wait_exponential.
  assert (2 ^ (attempt_number - 1) <= 2).
  { destruct (Z.le_gt_cases 1 attempt_number).
    - assert (attempt_number = 1 \/ attempt_number = 2) as [-> | ->] by lia;
        cbn; lia.
    - rewrite Z.pow_neg_r by lia. lia. }
  lia.
Qed.

(** C1, as amended.  Take an attempt of [get_id_token] that got as far as
    the exchange, and let the service answer the exchange with an HTTP error
    status.  If no refresh token was passed in, the status is 400 and the
    stored mail address and password are both non-empty, then the attempt
    empties both cached tokens, sets their expiries to the clock readings
    taken at that moment and raises the retry signal; the decorator then
    sleeps and runs the operation again when fewer than three attempts have
    been made, and raises RetryError on the third.  In every other case the
    HTTPError itself comes out of the attempt and of the decorated call at
    once, with the client as it was before the exchange and nothing slept. *)
Theorem exchange_failure_policy refresh_token s rt s1 status_code body
    (attempt_number : Z) (fuel : nat) :
  id_token_check utcnow upstream refresh_token s = (Ok (inr rt), s1) ->
  upstream (List.length (posted s1)) (exchange_request rt) = Response status_code body ->
  400 <= status_code < 600 ->
  let gate := refresh_token = None /\ status_code = 400
              /\ _mail_address (self s1) <> ""%string
              /\ _password (self s1) <> ""%string in
  let body_ := get_id_token_body utcnow upstream refresh_token in
  (gate ->
   exists s2,
     body_ s = (Raise (TokenAuthRefreshBadRequestException status_code), s2)
     /\ _refresh_token (self s2) = ""%string
     /\ _refresh_token_expire (self s2) = utcnow (clock_reads s1)
     /\ _id_token (self s2) = ""%string
     /\ _id_token_expire (self s2) = utcnow (S (clock_reads s1))
     /\ _mail_address (self s2) = _mail_address (self s1)
     /\ _password (self s2) = _password (self s1)
     /\ posted s2 = exchange_request rt :: posted s1
     /\ slept s2 = slept s1
     /\ (attempt_number < 3 ->
         retrying (S fuel) attempt_number body_ s
         = retrying fuel (attempt_number + 1) body_
             (mkstate (self s2) (clock_reads s2) (posted s2) (5 :: slept s2)))
     /\ (3 <= attempt_number ->
         retrying (S fuel) attempt_number body_ s
         = Some (Raise (RetryError (TokenAuthRefreshBadRequestException status_code)),
                 s2)))
  /\ (~ gate ->
      body_ s = (Raise (HTTPError status_code), sent (exchange_request rt) s1)
      /\ retrying (S fuel) attempt_number body_ s
         = Some (Raise (HTTPError status_code), sent (exchange_request rt) s1)).
Proof.
  intros Hcheck Hup Hst gate body_.
  assert (Hbody : body_ s = id_token_exchange utcnow upstream refresh_token rt s1).
  { unfold body_, get_id_token_body, mbind, M_bind. now rewrite Hcheck. }
  rewrite (id_token_exchange_http_error _ _ _ _ _ Hup Hst) in Hbody.
  split.
  - intros (-> & H400 & Hm & Hp).
    rewrite (on_http_error_retry _ _ H400) in Hbody by (exact Hm || exact Hp).
    eexists. split; [exact Hbody|].
    do 8 (split; [reflexivity|]). split.
    + intros Ha. rewrite retrying_unfold, Hbody. cbn [fst snd after_attempt].
      cbn [Tenacity.retry_if_exception_type]. unfold Tenacity.stop_after_attempt, MAX_ATTEMPTS.
      destruct (Z.leb_spec 3 attempt_number); [lia|].
      now rewrite wait_before_third by exact Ha.
    + intros Ha. rewrite retrying_unfold, Hbody. cbn [fst snd after_attempt].
      cbn [Tenacity.retry_if_exception_type]. unfold Tenacity.stop_after_attempt, MAX_ATTEMPTS.
      destruct (Z.leb_spec 3 attempt_number); [|lia]. reflexivity.
  - intros Hn.
    rewrite on_http_error_propagate in Hbody by exact Hn.
    split; [exact Hbody|].
    rewrite retrying_unfold, Hbody. reflexivity.
Qed.

(** *** Frames: what an attempt can add to the record *)

Lemma id_token_check_frame refresh_token s r s1 :
  id_token_check utcnow upstream refresh_token s = (r, s1) ->
  slept s1 = slept s
  /\ (posted s1 = posted s
      \/ exists json, posted s1 = mkrequest auth_user_url json :: posted s).
Proof.
  unfold id_token_check, datetime_now, gets, mbind, mret, M_bind, M_ret.
  cbn [self clock_reads posted slept tick].
  destruct (_ <? _).
  - intros [= <- <-]. auto.
  - destruct refresh_token as [x|].
    + intros [= <- <-]. auto.
    + destruct (get_refresh_token _ _ None None (tick s)) as [[x|e] s2] eqn:E;
        intros [= <- <-]; exact (get_refresh_token_frame _ _ _ _ _ E).
Qed.

Lemma id_token_exchange_frame refresh_token rt s r s' :
  id_token_exchange utcnow upstream refresh_token rt s = (r, s') ->
  slept s' = slept s /\ posted s' = exchange_request rt :: posted s.
Proof.
  unfold_m. unfold exchange_request. intros H.
  repeat case_match; simplify_eq; cbn; auto.
Qed.

Lemma exchange_calls_cons r s s' :
  posted s' = r :: posted s ->
  exchange_calls s' = ((if is_exchange r then 1 else 0) + exchange_calls s)%nat.
Proof.
  unfold exchange_calls. intros ->. cbn [List.filter].
  now destruct (is_exchange r).
Qed.

Lemma get_id_token_body_frame refresh_token s r s' :
  get_id_token_body utcnow upstream refresh_token s = (r, s') ->
  slept s' = slept s
  /\ (exchange_calls s <= exchange_calls s' <= exchange_calls s + 1)%nat.
Proof.
  unfold get_id_token_body, mbind, M_bind.
  destruct (id_token_check _ _ _ s) as [[[tok|rt]|e] s1] eqn:E;
    apply id_token_check_frame in E as [Hs Hposted];
    assert (exchange_calls s1 = exchange_calls s) as Hcalls
      by (destruct Hposted as [Hp | [json Hp]];
          [unfold exchange_calls; now rewrite Hp
          |now rewrite (exchange_calls_cons _ _ _ Hp), is_exchange_login]).
  - intros [= <- <-]. split; [exact Hs|lia].
  - intros H. apply id_token_exchange_frame in H as [Hs' Hx].
    rewrite (exchange_calls_cons _ _ _ Hx), is_exchange_request, Hcalls.
    split; [congruence|lia].
  - intros [= <- <-]. split; [exact Hs|lia].
Qed.

Lemma after_attempt_cases {A} attempt_number (r : result A) :
  (exists r', after_attempt attempt_number r = Finish r')
  \/ (attempt_number < 3 /\ after_attempt attempt_number r = Again 5).
Proof.
  destruct r as [a|e]; cbn; [eauto|].
  destruct (Tenacity.retry_if_exception_type e); [|eauto].
  unfold Tenacity.stop_after_attempt, MAX_ATTEMPTS.
  destruct (Z.leb_spec 3 attempt_number); [eauto|].
  right. now rewrite wait_before_third.
Qed.

Lemma after_third_attempt {A} (r : result A) :
  exists r', after_attempt 3 r = Finish r'.
Proof. destruct (after_attempt_cases 3 r) as [H|[H _]]; [exact H|lia]. Qed.

(** The attempt that returned a value is the last one run. *)
Lemma retrying_last_attempt {A} fuel attempt_number (fn : M A) s v s' :
  retrying fuel attempt_number fn s = Some (Ok v, s') ->
  exists s0, fn s0 = (Ok v, s').
Proof.
  revert attempt_number s. induction fuel as [|fuel IH]; intros a s; [discriminate|].
  rewrite retrying_unfold. destruct (fn s) as [r s1] eqn:E. cbn [fst snd].
  destruct r as [x|e]; cbn [after_attempt].
  - intros [= -> ->]. eauto.
  - destruct (Tenacity.retry_if_exception_type e); [|discriminate].
    destruct (Tenacity.stop_after_attempt _ _); [discriminate|]. apply IH.
Qed.

(** C3, as amended.  A call of [get_id_token] always ends within three
    attempts: it makes at most three exchange calls and sleeps at most twice,
    and both sleeps last 5 seconds.  The wait after failed attempt n is
    max(5, min(2^(n-1), 300)) seconds, so 5 seconds is a floor that the
    doubling passes only from the fourth attempt on, which the limit of
    three attempts never reaches. *)
Theorem retry_policy refresh_token s :
  (exists r s' waits,
      get_id_token utcnow upstream refresh_token s = Some (r, s')
      /\ slept s' = waits ++ slept s
      /\ (waits = [] \/ waits = [5] \/ waits = [5; 5])
      /\ (exchange_calls s' <= exchange_calls s + 3)%nat)
  /\ (forall n, Tenacity.wait_exponential 1 5 300 n = Z.max 5 (Z.min (2 ^ (n - 1)) 300))
  /\ Tenacity.wait_exponential 1 5 300 1 = 5
  /\ Tenacity.wait_exponential 1 5 300 2 = 5
  /\ (forall n, Tenacity.stop_after_attempt MAX_ATTEMPTS n = true <-> 3 <= n).
Proof.
  split; [|split; [|split; [|split]]].
  - unfold get_id_token.
    set (fn := get_id_token_body utcnow upstream refresh_token).
    rewrite retrying_unfold.
    destruct (fn s) as [r1 s1] eqn:E1. cbn [fst snd].
    apply get_id_token_body_frame in E1 as [Hs1 Hx1].
    destruct (after_attempt_cases 1 r1) as [[r' ->] | [_ ->]].
    { exists r', s1, []. repeat split; auto. lia. }
    rewrite retrying_unfold. cbn [self clock_reads posted slept].
    match goal with |- context [fn ?x] => set (s1' := x) end.
    destruct (fn s1') as [r2 s2] eqn:E2. cbn [fst snd].
    apply get_id_token_body_frame in E2 as [Hs2 Hx2].
    assert (exchange_calls s1' = exchange_calls s1) as Hc1 by reflexivity.
    destruct (after_attempt_cases (1 + 1) r2) as [[r' ->] | [_ ->]].
    { exists r', s2, [5]. rewrite Hs2. cbn. rewrite Hs1. repeat split; auto. lia. }
    rewrite retrying_unfold. cbn [self clock_reads posted slept].
    match goal with |- context [fn ?x] => set (s2' := x) end.
    destruct (fn s2') as [r3 s3] eqn:E3. cbn [fst snd].
    apply get_id_token_body_frame in E3 as [Hs3 Hx3].
    assert (exchange_calls s2' = exchange_calls s2) as Hc2 by reflexivity.
    destruct (after_third_attempt r3) as [r' Hr].
    change (1 + 1 + 1) with 3. rewrite Hr.
    exists r', s3, [5; 5]. rewrite Hs3. cbn. rewrite Hs2. cbn. rewrite Hs1.
    repeat split; auto. lia.
  - intros n. unfold Tenacity.wait_exponential. lia.
  - reflexivity.
  - reflexivity.
  - intros n. unfold Tenacity.stop_after_attempt, MAX_ATTEMPTS.
    rewrite Z.leb_le. reflexivity.
Qed.

(** *** Construction *)

(** [__init__] in closed form: the three values are the arguments where
    given and the configuration otherwise. *)
Lemma construct_closed_form os refresh_token mail_address password reads :
  construct utcnow os refresh_token mail_address password reads
  = match _load_config os with
    | Raise e => Raise e
    | Ok config =>
        let mail := default (config !!! "mail_address"%string) mail_address in
        let pass := default (config !!! "password"%string) password in
        let tok := default (config !!! "refresh_token"%string) refresh_token in
        if (is_empty mail || is_empty pass) && is_empty tok then Raise ValueError
        else if negb (is_empty mail) && negb (has_at mail) then Raise ValueError
        else Ok (mkJSONClient mail pass tok
                   (if is_empty tok then utcnow reads else utcnow reads + SIX_DAYS)
                   "" (utcnow (S reads)))
    end.
Proof.
  unfold construct, __init__, datetime_now, gets, modify, raise, tick.
  unfold mbind, mret, M_bind, M_ret. cbn [self clock_reads posted slept].
  destruct (_load_config os) as [config|e]; [|reflexivity].
  unfold is_empty, has_at.
  destruct mail_address as [m|], password as [p|], refresh_token as [t|];
    cbn;
    repeat (match goal with
            | |- context [String.eqb ?x ""] => destruct (String.eqb x "") eqn:?
            | |- context [Strptime.contains_char "@" ?x] =>
                destruct (Strptime.contains_char "@" x) eqn:?
            end; cbn);
    try reflexivity; try congruence.
Qed.

Lemma empty_arg_default (a : option string) :
  empty_arg a -> default ""%string a = ""%string.
Proof. now intros [-> | ->]. Qed.

(** An environment without configuration files and without the three
    variables supplies nothing. *)
Lemma bare_environment_supplies_nothing os :
  files os = ∅ ->
  environ os !! "JQUANTS_API_CLIENT_CONFIG_FILE"%string = None ->
  environ os !! "JQUANTS_API_MAIL_ADDRESS"%string = None ->
  environ os !! "JQUANTS_API_PASSWORD"%string = None ->
  environ os !! "JQUANTS_API_REFRESH_TOKEN"%string = None ->
  supplies_nothing os.
Proof.
  intros Hf Hc Hm Hp Hr. unfold supplies_nothing, _load_config, _read_config.
  unfold env_or_config, dict_merge. rewrite Hf, Hc, Hm, Hp, Hr.
  rewrite !lookup_empty. destruct (is_colab os); cbn; eexists; (split; [reflexivity|]);
    rewrite !lookup_total_alt; repeat split; reflexivity.
Qed.

(** C5. Where configuration files and environment variables supply no
    credential: constructing with an empty refresh token and an empty mail
    address or password raises ValueError; constructing with a non-empty mail
    address without '@' raises ValueError, whatever else is passed;
    constructing with a non-empty refresh token and empty mail address and
    password succeeds and keeps the token. *)
Theorem construct_credentials os reads :
  supplies_nothing os ->
  (forall refresh_token mail_address password,
      empty_arg refresh_token ->
      empty_arg mail_address \/ empty_arg password ->
      construct utcnow os refresh_token mail_address password reads = Raise ValueError)
  /\ (forall refresh_token mail password,
         mail <> ""%string ->
         Strptime.contains_char "@" mail = false ->
         construct utcnow os refresh_token (Some mail) password reads = Raise ValueError)
  /\ (forall tok mail_address password,
         tok <> ""%string ->
         empty_arg mail_address ->
         empty_arg password ->
         exists c,
           construct utcnow os (Some tok) mail_address password reads = Ok c
           /\ _refresh_token c = tok).
Proof.
  intros (config & Hcfg & Hm & Hp & Hr). split; [|split].
  - intros rt m p Hrt Hmp. rewrite construct_closed_form, Hcfg, Hm, Hp, Hr. cbn zeta.
    rewrite (empty_arg_default _ Hrt).
    destruct Hmp as [H|H]; rewrite (empty_arg_default _ H); cbn;
      now rewrite ?orb_true_r.
  - intros rt mail p Hne Hat. rewrite construct_closed_form, Hcfg. cbn zeta.
    cbn [default from_option id]. unfold has_at. rewrite Hat.
    apply is_empty_false in Hne. rewrite Hne. cbn.
    now destruct (is_empty _ && is_empty _).
  - intros tok m p Hne Hem Hep. rewrite construct_closed_form, Hcfg, Hm, Hp. cbn zeta.
    rewrite (empty_arg_default _ Hem), (empty_arg_default _ Hep).
    cbn [default from_option id]. apply is_empty_false in Hne. rewrite Hne.
    cbn. eauto.
Qed.

(** *** Successful exchanges *)

Lemma id_token_exchange_ok refresh_token rt s tok s' :
  id_token_exchange utcnow upstream refresh_token rt s = (Ok tok, s') ->
  _id_token (self s') = tok
  /\ _id_token_expire (self s') = utcnow (clock_reads s) + TWENTY_THREE_HOURS
  /\ clock_reads s' = S (clock_reads s)
  /\ posted s' = exchange_request rt :: posted s
  /\ _refresh_token (self s') = _refresh_token (self s)
  /\ _refresh_token_expire (self s') = _refresh_token_expire (self s).
Proof.
  unfold_m. unfold exchange_request. intros H.
  repeat case_match; simplify_eq; cbn; repeat split.
Qed.

Lemma get_id_token_body_ok refresh_token s tok s' :
  get_id_token_body utcnow upstream refresh_token s = (Ok tok, s') ->
  (utcnow (clock_reads s) < _id_token_expire (self s)
   /\ tok = _id_token (self s) /\ s' = tick s)
  \/ (_id_token_expire (self s) <= utcnow (clock_reads s)
      /\ _id_token (self s') = tok
      /\ _id_token_expire (self s')
         = utcnow (Nat.pred (clock_reads s')) + TWENTY_THREE_HOURS
      /\ exists rt rest, posted s' = exchange_request rt :: rest).
Proof.
  destruct (Z.lt_ge_cases (utcnow (clock_reads s)) (_id_token_expire (self s)))
    as [Hv|Hx].
  - rewrite get_id_token_body_valid by exact Hv. intros [= <- <-]. auto.
  - right. split; [exact Hx|].
    unfold get_id_token_body, mbind, M_bind in H.
    destruct (id_token_check _ _ _ s) as [[[tk|rt]|e] s1] eqn:E; [| |discriminate].
    + exfalso. revert E. unfold_m.
      destruct (Z.ltb_spec (utcnow (clock_reads s)) (_id_token_expire (self s)));
        [lia|].
      repeat case_match; intros; simplify_eq.
    + apply id_token_exchange_ok in H as (Ht & He & Hr & Hp & _).
      rewrite Hr. cbn [Nat.pred]. eauto 6.
Qed.

Lemma id_token_exchange_success refresh_token rt s status_code body tok :
  upstream (List.length (posted s)) (exchange_request rt) = Response status_code body ->
  ~ 400 <= status_code < 600 ->
  body !! "idToken"%string = Some tok ->
  id_token_exchange utcnow upstream refresh_token rt s
  = (Ok tok,
     mkstate (set_id_token_expire (utcnow (clock_reads s) + TWENTY_THREE_HOURS)
                (set_id_token tok (self s)))
             (S (clock_reads s)) (exchange_request rt :: posted s) (slept s)).
Proof.
  intros Hup Hst Htok. unfold_m. fold (exchange_request rt). rewrite Hup.
  destruct ((400 <=? status_code) && (status_code <? 600)) eqn:E.
  { exfalso. apply Hst. apply andb_prop in E as [E1 E2].
    apply Z.leb_le in E1. apply Z.ltb_lt in E2. lia. }
  rewrite Htok. reflexivity.
Qed.

(** *** Attempts that raise *)

Lemma get_refresh_token_raises mail_address password s e s' :
  get_refresh_token utcnow upstream mail_address password s = (Raise e, s') ->
  Tenacity.retry_if_exception_type e = false.
Proof.
  unfold_m. intros H.
  repeat case_match; simplify_eq; reflexivity.
Qed.

Lemma id_token_check_raises refresh_token s e s' :
  id_token_check utcnow upstream refresh_token s = (Raise e, s') ->
  Tenacity.retry_if_exception_type e = false.
Proof.
  unfold id_token_check, datetime_now, gets, mbind, mret, M_bind, M_ret.
  cbn [self clock_reads posted slept tick].
  destruct (_ <? _); [discriminate|].
  destruct refresh_token as [x|]; [discriminate|].
  destruct (get_refresh_token _ _ None None (tick s)) as [[x|e0] s2] eqn:E;
    [discriminate|].
  intros [= <- <-]. exact (get_refresh_token_raises _ _ _ _ _ E).
Qed.

(** The retry signal leaves an empty id token that expired at the last
    clock reading. *)
Lemma id_token_exchange_signal refresh_token rt s status_code s' :
  id_token_exchange utcnow upstream refresh_token rt s
  = (Raise (TokenAuthRefreshBadRequestException status_code), s') ->
  exists k, (S k = clock_reads s')%nat /\ _id_token_expire (self s') = utcnow k
            /\ _id_token (self s') = ""%string.
Proof.
  unfold_m. intros H.
  repeat case_match; simplify_eq; cbn; eauto.
Qed.

Lemma retry_signal_expires refresh_token s status_code s' :
  get_id_token_body utcnow upstream refresh_token s
  = (Raise (TokenAuthRefreshBadRequestException status_code), s') ->
  exists k, (S k = clock_reads s')%nat /\ _id_token_expire (self s') = utcnow k
            /\ _id_token (self s') = ""%string.
Proof.
  unfold get_id_token_body, mbind, M_bind.
  destruct (id_token_check _ _ _ s) as [[[tok|rt]|e] s1] eqn:E.
  - discriminate.
  - apply id_token_exchange_signal.
  - intros [= -> <-]. apply id_token_check_raises in E. discriminate.
Qed.




End ClientFacts.

(** ** Callers that interleave *)

Section CallersFacts.

Variable utcnow : nat -> Z.
Variable upstream : nat -> request -> reply.

(** Every caller of a list takes one step in turn. *)
Lemma run_each_once (A B : caller -> Prop) (I : nat -> state -> Prop) :
  (forall c s k, A c -> I k s ->
     B (fst (caller_step utcnow upstream c s))
     /\ I (S k) (snd (caller_step utcnow upstream c s))) ->
  forall todo done s,
    Forall B done -> Forall A todo -> I (List.length done) s ->
    let r := run_schedule utcnow upstream (seq (List.length done) (List.length todo))
                          (done ++ todo, s) in
    Forall B (fst r) /\ I (List.length done + List.length todo)%nat (snd r)
    /\ List.length (fst r) = (List.length done + List.length todo)%nat.
Proof.
  intros Hstep. induction todo as [|c todo IH]; intros done s Hd Ht HI r.
  - unfold r. cbn. rewrite app_nil_r, Nat.add_0_r. auto.
  - destruct (Hstep c s _ (Forall_inv Ht) HI) as [Hb HI'].
    destruct (caller_step utcnow upstream c s) as [c' s'] eqn:E. cbn [fst snd] in *.
    assert (Hs : schedule_step utcnow upstream (done ++ c :: todo, s) (List.length done)
                 = ((done ++ [c']) ++ todo, s')).
    { unfold schedule_step. cbn [fst snd].
      rewrite list_lookup_middle by reflexivity. rewrite E.
      rewrite insert_app_r_alt by lia. rewrite Nat.sub_diag. cbn.
      now rewrite <- app_assoc. }
    unfold r. cbn [List.length seq]. unfold run_schedule. cbn [foldl]. rewrite Hs.
    fold (run_schedule utcnow upstream (seq (S (List.length done)) (List.length todo))
            ((done ++ [c']) ++ todo, s')).
    specialize (IH (done ++ [c']) s').
    rewrite length_app in IH. cbn [List.length] in IH.
    replace (List.length done + 1)%nat with (S (List.length done)) in IH by lia.
    replace (List.length done + S (List.length todo))%nat
      with (S (List.length done) + List.length todo)%nat by lia.
    apply IH.
    + apply Forall_app. split; [exact Hd|]. now constructor.
    + now inversion Ht.
    + exact HI'.
Qed.

Lemma run_schedule_app l1 l2 p :
  run_schedule utcnow upstream (l1 ++ l2) p
  = run_schedule utcnow upstream l2 (run_schedule utcnow upstream l1 p).
Proof. unfold run_schedule. apply foldl_app. Qed.

Lemma get_refresh_token_valid s :
  utcnow (clock_reads s) < _refresh_token_expire (self s) ->
  get_refresh_token utcnow upstream None None s
  = (Ok (_refresh_token (self s)), tick s).
Proof.
  intros H. unfold_m.
  destruct (Z.ltb_spec (utcnow (clock_reads s)) (_refresh_token_expire (self s))); [|lia].
  reflexivity.
Qed.

(** A caller whose token is valid returns it at its first step. *)
Lemma caller_step_valid s :
  utcnow (clock_reads s) < _id_token_expire (self s) ->
  caller_step utcnow upstream (Calling None 1) s
  = (Returned (Ok (_id_token (self s))), tick s).
Proof.
  intros H. cbn [caller_step]. rewrite id_token_check_valid by exact H. reflexivity.
Qed.

(** A caller who finds the id token expired and the refresh token valid
    goes on to the exchange with that refresh token. *)
Lemma caller_step_expired s :
  _id_token_expire (self s) <= utcnow (clock_reads s) ->
  utcnow (S (clock_reads s)) < _refresh_token_expire (self s) ->
  caller_step utcnow upstream (Calling None 1) s
  = (Exchanging None 1 (_refresh_token (self s)), tick (tick s)).
Proof.
  intros H1 H2. cbn [caller_step]. rewrite id_token_check_stored by exact H1.
  rewrite get_refresh_token_valid by exact H2. reflexivity.
Qed.

Lemma caller_step_exchange rt s status_code body tok :
  upstream (List.length (posted s)) (exchange_request rt) = Response status_code body ->
  ~ 400 <= status_code < 600 ->
  body !! "idToken"%string = Some tok ->
  caller_step utcnow upstream (Exchanging None 1 rt) s
  = (Returned (Ok tok),
     mkstate (set_id_token_expire (utcnow (clock_reads s) + TWENTY_THREE_HOURS)
                (set_id_token tok (self s)))
             (S (clock_reads s)) (exchange_request rt :: posted s) (slept s)).
Proof.
  intros Hup Hst Htok. cbn [caller_step].
  rewrite (id_token_exchange_success utcnow upstream _ _ _ _ _ _ Hup Hst Htok). reflexivity.
Qed.

(** *** Valid token: no exchange under any schedule *)

Lemma valid_token_no_exchange s n schedule :
  (forall k, (clock_reads s <= k)%nat -> utcnow k < _id_token_expire (self s)) ->
  let r := run_schedule utcnow upstream schedule (callers n, s) in
  self (snd r) = self s /\ posted (snd r) = posted s /\ slept (snd r) = slept s
  /\ (clock_reads s <= clock_reads (snd r))%nat
  /\ Forall (fun c => c = Calling None 1 \/ c = Returned (Ok (_id_token (self s))))
            (fst r).
Proof.
  intros Hvalid. induction schedule as [|i schedule IH] using rev_ind; intros r.
  - cbn. repeat split; auto. unfold callers. apply Forall_replicate. now left.
  - unfold r. rewrite run_schedule_app.
    destruct (run_schedule utcnow upstream schedule (callers n, s)) as [cs s1].
    cbn [fst snd] in IH. destruct IH as (Hself & Hposted & Hslept & Hreads & Hall).
    cbn [run_schedule foldl]. unfold schedule_step. cbn [fst snd].
    destruct (cs !! i) as [c|] eqn:Ei; [|cbn; auto].
    assert (Hc : c = Calling None 1 \/ c = Returned (Ok (_id_token (self s)))).
    { rewrite Forall_forall in Hall. apply Hall. eapply list_elem_of_lookup_2; eauto. }
    destruct Hc as [-> | ->].
    + rewrite caller_step_valid by (rewrite Hself; apply Hvalid; exact Hreads).
      cbn [fst snd tick self posted slept clock_reads].
      repeat split; auto. apply Forall_insert; [exact Hall|]. right. now rewrite Hself.
    + cbn [caller_step fst snd]. repeat split; auto.
      apply Forall_insert; [exact Hall|]. now right.
Qed.

(** *** Expired token, every caller checks before any exchanges *)

Lemma racing_callers_each_exchange s n :
  (forall k, (clock_reads s <= k)%nat ->
             _id_token_expire (self s) <= utcnow k < _refresh_token_expire (self s)) ->
  always_exchanges upstream ->
  let r := run_schedule utcnow upstream (seq 0 n ++ seq 0 n) (callers n, s) in
  exchange_calls (snd r) = (exchange_calls s + n)%nat
  /\ Forall (fun c => exists tok, c = Returned (Ok tok)) (fst r).
Proof.
  intros Hclock Hup r. unfold r. rewrite run_schedule_app.
  pose proof (run_each_once
    (fun c => c = Calling None 1)
    (fun c => c = Exchanging None 1 (_refresh_token (self s)))
    (fun k s' => self s' = self s /\ posted s' = posted s
                 /\ clock_reads s' = (clock_reads s + 2 * k)%nat)) as H1.
  specialize (H1 ltac:(
    intros c s' k -> (Hself & Hposted & Hreads);
    rewrite caller_step_expired by
      (rewrite Hself; apply Hclock; rewrite Hreads; lia);
    cbn [fst snd tick self posted clock_reads]; rewrite Hself;
    repeat split; auto; lia)).
  specialize (H1 (callers n) [] s (Forall_nil_2 _)).
  unfold callers in *. rewrite length_replicate in H1. cbn [List.length app] in H1.
  destruct H1 as (Hall1 & (Hself & Hposted & _) & Hlen1).
  { apply Forall_replicate. reflexivity. }
  { repeat split; try reflexivity; lia. }
  destruct (run_schedule utcnow upstream (seq 0 n) (replicate n (Calling None 1), s))
    as [cs1 s1]. cbn [fst snd] in *.
  pose proof (run_each_once
    (fun c => c = Exchanging None 1 (_refresh_token (self s)))
    (fun c => exists tok, c = Returned (Ok tok))
    (fun k s' => exchange_calls s' = (exchange_calls s1 + k)%nat)) as H2.
  specialize (H2 ltac:(
    intros c s' k -> Hcalls;
    destruct (Hup (List.length (posted s')) (_refresh_token (self s)))
      as (st & body & tok & Hr & Hst & Htok);
    rewrite (caller_step_exchange _ _ _ _ _ Hr Hst Htok);
    cbn [fst snd]; split; [eauto|];
    unfold exchange_calls in *; cbn [posted List.filter];
    rewrite is_exchange_request; cbn [List.length]; lia)).
  specialize (H2 cs1 [] s1 (Forall_nil_2 _) Hall1).
  cbn [List.length app] in H2. rewrite Hlen1 in H2.
  change (0 + n)%nat with n in H2.
  destruct H2 as (Hall2 & Hcalls & _); [lia|].
  split; [|exact Hall2]. rewrite Hcalls. cbn.
  unfold exchange_calls. now rewrite Hposted.
Qed.

(** *** Expired token, one caller after the other *)

Lemma serial_callers_one_exchange s n status_code body tok :
  _id_token_expire (self s) <= utcnow (clock_reads s) ->
  utcnow (S (clock_reads s)) < _refresh_token_expire (self s) ->
  upstream (List.length (posted s)) (exchange_request (_refresh_token (self s)))
  = Response status_code body ->
  ~ 400 <= status_code < 600 ->
  body !! "idToken"%string = Some tok ->
  (forall k, (clock_reads s + 3 <= k)%nat ->
             utcnow k < utcnow (clock_reads s + 2)%nat + TWENTY_THREE_HOURS) ->
  let r := run_schedule utcnow upstream (0 :: 0 :: seq 1 n)%nat (callers (S n), s) in
  exchange_calls (snd r) = (exchange_calls s + 1)%nat
  /\ Forall (fun c => c = Returned (Ok tok)) (fst r).
Proof.
  intros Hexp Href Hup Hst Htok Hlater r. unfold r, callers.
  cbn [replicate]. unfold run_schedule. cbn [foldl].
  set (s2 := mkstate (set_id_token_expire
                        (utcnow (S (S (clock_reads s))) + TWENTY_THREE_HOURS)
                        (set_id_token tok (self s)))
                     (S (S (S (clock_reads s))))
                     (exchange_request (_refresh_token (self s)) :: posted s)
                     (slept s)).
  assert (Hfirst : schedule_step utcnow upstream
                     (schedule_step utcnow upstream
                        (Calling None 1 :: replicate n (Calling None 1), s) 0%nat) 0%nat
                   = (Returned (Ok tok) :: replicate n (Calling None 1), s2)).
  { unfold schedule_step at 2. cbn [fst snd lookup list_lookup].
    rewrite caller_step_expired by assumption. cbn [insert list_insert].
    unfold schedule_step. cbn [fst snd lookup list_lookup].
    rewrite (caller_step_exchange (_refresh_token (self s)) (tick (tick s)) _ _ _
               Hup Hst Htok).
    reflexivity. }
  rewrite Hfirst.
  pose proof (run_each_once
    (fun c => c = Calling None 1)
    (fun c => c = Returned (Ok tok))
    (fun k s' => self s' = self s2 /\ posted s' = posted s2
                 /\ (clock_reads s2 <= clock_reads s')%nat)) as H.
  specialize (H ltac:(
    intros c s' k -> (Hself & Hposted & Hreads);
    rewrite caller_step_valid by
      (rewrite Hself; cbn [s2 self _id_token_expire set_id_token_expire];
       replace (S (S (clock_reads s))) with (clock_reads s + 2)%nat by lia;
       apply Hlater; cbn [s2 clock_reads] in Hreads; lia);
    cbn [fst snd tick self posted clock_reads]; rewrite Hself;
    repeat split; auto; lia)).
  specialize (H (replicate n (Calling None 1)) [Returned (Ok tok)] s2).
  rewrite length_replicate in H. cbn [List.length app] in H.
  fold (run_schedule utcnow upstream (seq 1 n)
          (Returned (Ok tok) :: replicate n (Calling None 1), s2)).
  destruct H as (Hall & (Hself & Hposted & _) & _).
  { now constructor. }
  { apply Forall_replicate. reflexivity. }
  { repeat split; auto. }
  split; [|exact Hall].
  unfold exchange_calls. rewrite Hposted. cbn [s2 posted List.filter].
  rewrite is_exchange_request. cbn [List.length]. lia.
Qed.

(** *** A caller alone is [get_id_token] *)

Lemma caller_alone fuel : forall attempt_number refresh_token s r s',
  retrying fuel attempt_number (get_id_token_body utcnow upstream refresh_token) s
  = Some (r, s') ->
  exists n,
    run_schedule utcnow upstream (replicate n 0%nat)
                 ([Calling refresh_token attempt_number], s)
    = ([Returned r], s').
Proof.
  induction fuel as [|fuel IH]; intros a rt s r s'; [discriminate|].
  rewrite retrying_unfold.
  assert (Hsettle : forall x s1,
             match after_attempt a x with
             | Finish r0 => Some (r0, s1)
             | Again wait =>
                 retrying fuel (a + 1) (get_id_token_body utcnow upstream rt)
                   (mkstate (self s1) (clock_reads s1) (posted s1) (wait :: slept s1))
             end = Some (r, s') ->
             exists n,
               run_schedule utcnow upstream (replicate n 0%nat)
                 ([fst (settle rt a x s1)], snd (settle rt a x s1))
               = ([Returned r], s')).
  { intros x s1 H. unfold settle. destruct (after_attempt a x) as [r0|wait].
    - injection H as <- <-. exists 0%nat. reflexivity.
    - cbn [time_sleep fst snd]. now apply IH. }
  destruct (id_token_check utcnow upstream rt s) as [[[tok|rtok]|e] s1] eqn:E.
  - assert (Hb : get_id_token_body utcnow upstream rt s = (Ok tok, s1))
      by (unfold get_id_token_body, mbind, M_bind; now rewrite E).
    rewrite Hb. cbn [fst snd]. intros H.
    destruct (Hsettle (Ok tok) s1 H) as [n Hn]. exists (S n).
    cbn [replicate]. unfold run_schedule. cbn [foldl].
    unfold schedule_step at 2. cbn [fst snd lookup list_lookup caller_step].
    rewrite E. destruct (settle rt a (Ok tok) s1) as [c1 s2]. exact Hn.
  - destruct (id_token_exchange utcnow upstream rt rtok s1) as [x s2] eqn:E2.
    assert (Hb : get_id_token_body utcnow upstream rt s = (x, s2))
      by (unfold get_id_token_body, mbind, M_bind; now rewrite E).
    rewrite Hb. cbn [fst snd]. intros H.
    destruct (Hsettle x s2 H) as [n Hn]. exists (S (S n)).
    cbn [replicate]. unfold run_schedule. cbn [foldl].
    unfold schedule_step at 3. cbn [fst snd lookup list_lookup caller_step].
    rewrite E. cbn [insert list_insert].
    unfold schedule_step at 2. cbn [fst snd lookup list_lookup caller_step].
    rewrite E2. destruct (settle rt a x s2) as [c1 s3]. exact Hn.
  - assert (Hb : get_id_token_body utcnow upstream rt s = (Raise e, s1))
      by (unfold get_id_token_body, mbind, M_bind; now rewrite E).
    rewrite Hb. cbn [fst snd]. intros H.
    destruct (Hsettle (Raise e) s1 H) as [n Hn]. exists (S n).
    cbn [replicate]. unfold run_schedule. cbn [foldl].
    unfold schedule_step at 2. cbn [fst snd lookup list_lookup caller_step].
    rewrite E. destruct (settle rt a (Raise e) s1) as [c1 s2]. exact Hn.
Qed.

(** C8, as amended.  Callers of [get_id_token()] on one client, under
    schedules that interleave them.  While the cached token is valid, no
    schedule leads to an exchange: every caller that has run returned the
    cached token and the client is unchanged.  When the token has expired
    there is no lock: if all n callers make their check before any of them
    exchanges, each of them sends its own exchange, n in all.  Exactly one
    exchange is sent when the callers come one after the other, the first
    one's exchange succeeds and the others arrive within the 23 hours: they
    all return the token the first one stored. *)
Theorem concurrent_callers :
  (forall s n schedule,
      (forall k, (clock_reads s <= k)%nat -> utcnow k < _id_token_expire (self s)) ->
      let r := run_schedule utcnow upstream schedule (callers n, s) in
      exchange_calls (snd r) = exchange_calls s
      /\ self (snd r) = self s
      /\ Forall (fun c => c = Calling None 1 \/ c = Returned (Ok (_id_token (self s))))
                (fst r))
  /\ (forall s n,
         (forall k, (clock_reads s <= k)%nat ->
            _id_token_expire (self s) <= utcnow k < _refresh_token_expire (self s)) ->
         always_exchanges upstream ->
         let r := run_schedule utcnow upstream (seq 0 n ++ seq 0 n) (callers n, s) in
         exchange_calls (snd r) = (exchange_calls s + n)%nat
         /\ Forall (fun c => exists tok, c = Returned (Ok tok)) (fst r))
  /\ (forall s n status_code body tok,
         _id_token_expire (self s) <= utcnow (clock_reads s) ->
         utcnow (S (clock_reads s)) < _refresh_token_expire (self s) ->
         upstream (List.length (posted s)) (exchange_request (_refresh_token (self s)))
         = Response status_code body ->
         ~ 400 <= status_code < 600 ->
         body !! "idToken"%string = Some tok ->
         (forall k, (clock_reads s + 3 <= k)%nat ->
            utcnow k < utcnow (clock_reads s + 2)%nat + TWENTY_THREE_HOURS) ->
         let r := run_schedule utcnow upstream (0 :: 0 :: seq 1 n)%nat
                               (callers (S n), s) in
         exchange_calls (snd r) = (exchange_calls s + 1)%nat
         /\ Forall (fun c => c = Returned (Ok tok)) (fst r)).
Proof.
  split; [|split].
  - intros s n schedule Hvalid r.
    destruct (valid_token_no_exchange s n schedule Hvalid)
      as (Hself & Hposted & _ & _ & Hall).
    fold r in Hself, Hposted, Hall. split; [|split]; auto.
    unfold exchange_calls. now rewrite Hposted.
  - intros s n. apply racing_callers_each_exchange.
  - intros s n status_code body tok. apply serial_callers_one_exchange.
Qed.

End CallersFacts.

(** ** The range fetch *)

Section RangeFetchFacts.

Context {dataframe : Type}.
Variable fetch : string -> result dataframe.
Variable concat_sorted : list dataframe -> result dataframe.

Lemma pool_inv_submitted keys : pool_inv fetch keys (submitted keys).
Proof.
  split.
  - intros i key f. unfold submitted. cbn [futures].
    rewrite list_lookup_fmap. destruct (keys !! i) as [k|]; [|discriminate].
    cbn. intros [= <- <-]. split; [reflexivity|discriminate].
  - unfold submitted. cbn [futures]. apply length_map.
  - cbn. intros i Hi. now apply elem_of_nil in Hi.
Qed.

(** A worker changes one future that is not done yet; the done ones stay. *)
Lemma done_kept (fs : list (string * @future dataframe)) i key f f' j key' r :
  fs !! i = Some (key, f) ->
  (forall x, f <> Done x) ->
  fs !! j = Some (key', Done r) ->
  <[i := (key, f')]> fs !! j = Some (key', Done r).
Proof.
  intros Hi Hf Hj. rewrite list_lookup_insert_ne; [exact Hj|].
  intros ->. rewrite Hi in Hj. injection Hj as _ Hd. now apply (Hf r).
Qed.

Lemma succeeded_kept (p : @pool dataframe) i key f f' tk m j :
  futures p !! i = Some (key, f) ->
  (forall x, f <> Done x) ->
  succeeded p j ->
  succeeded (mkpool (<[i := (key, f')]> (futures p)) tk m) j.
Proof.
  intros Hi Hf (k & df & Hj). exists k, df. cbn [futures].
  eapply done_kept; eauto.
Qed.

Lemma not_all_done (fs : list (string * @future dataframe)) i key f :
  fs !! i = Some (key, f) -> (forall x, f <> Done x) ->
  forallb is_done fs = false.
Proof.
  intros Hi Hf. destruct (forallb _ fs) eqn:E; [|reflexivity]. exfalso.
  rewrite forallb_forall in E. 
  assert (In (key, f) fs) as Hin.
  { apply list_elem_of_In. eapply list_elem_of_lookup_2. exact Hi. }
  specialize (E _ Hin). unfold is_done in E. cbn in E.
  destruct f; try discriminate. now apply (Hf r).
Qed.

(** A worker step keeps the invariant. *)
Lemma pool_inv_worker keys (p : @pool dataframe) i key f f' :
  pool_inv fetch keys p ->
  futures p !! i = Some (key, f) ->
  (forall x, f <> Done x) ->
  (forall r, f' = Done r -> r = fetch key) ->
  pool_inv fetch keys (mkpool (<[i := (key, f')]> (futures p)) (taken p) (main p)).
Proof.
  intros [Hk Hl Hm] Hi Hf Hf'. split; cbn [futures taken main].
  - intros j k g Hj. destruct (decide (i = j)) as [<-|Hne].
    + rewrite list_lookup_insert_eq in Hj by (eapply lookup_lt_Some; eauto).
      injection Hj as <- <-. split; [exact (proj1 (Hk _ _ _ Hi))|exact Hf'].
    + rewrite list_lookup_insert_ne in Hj by exact Hne. eauto.
  - now rewrite length_insert.
  - destruct (main p) as [buff|e|r].
    + intros j Hj. eapply succeeded_kept; eauto.
    + destruct Hm as (j & rest & k & Ht & Hj & Hrest).
      exists j, rest, k. split; [exact Ht|]. split.
      * eapply done_kept; eauto.
      * intros x Hx. eapply succeeded_kept; eauto.
    + exfalso. destruct Hm as [(e & j & rest & k & _ & _ & _ & _ & Hall) | Hall].
      * rewrite (not_all_done _ _ _ _ Hi Hf) in Hall. discriminate.
      * destruct (Hall i) as (k & df & Hd); [eapply lookup_lt_Some; eauto|].
        rewrite Hi in Hd. injection Hd as _ ->. now apply (Hf (Ok df)).
Qed.

Lemma all_taken_spec (p : @pool dataframe) i :
  all_taken p = true -> (i < List.length (futures p))%nat -> i ∈ taken p.
Proof.
  unfold all_taken. rewrite forallb_forall. intros H Hi.
  specialize (H i). rewrite bool_decide_eq_true in H. apply H.
  apply in_seq. lia.
Qed.

Lemma pool_inv_step keys ev (p p' : @pool dataframe) :
  pool_inv fetch keys p -> pool_step fetch concat_sorted ev p = Some p' -> pool_inv fetch keys p'.
Proof.
  intros Hinv. pose proof Hinv as [Hk Hl Hm]. destruct ev as [i|i|i|]; cbn [pool_step].
  - destruct (futures p !! i) as [[key [| |r]]|] eqn:Hi; try discriminate.
    destruct (_ && _); [|discriminate]. intros [= <-].
    apply (pool_inv_worker keys p i key Queued Running Hinv Hi); discriminate.
  - destruct (futures p !! i) as [[key [| |r]]|] eqn:Hi; try discriminate.
    intros [= <-].
    apply (pool_inv_worker keys p i key Running (Done (fetch key)) Hinv Hi);
      [discriminate|]. now intros r [= <-].
  - destruct (main p) as [buff|e|r] eqn:Em; try discriminate.
    destruct (bool_decide _); [discriminate|].
    destruct (futures p !! i) as [[key [| |[df|e]]]|] eqn:Hi; try discriminate;
      intros [= <-]; split; cbn [futures taken main]; auto.
    + intros j Hj. apply elem_of_cons in Hj as [->|Hj]; [|now apply Hm].
      now exists key, df.
    + exists i, (taken p), key. auto.
  - destruct (main p) as [buff|e|r] eqn:Em; try discriminate.
    + destruct (all_taken p) eqn:Ea; [|discriminate]. intros [= <-].
      split; cbn [futures taken main]; auto.
      right. intros i Hi. apply Hm. now apply all_taken_spec.
    + destruct (forallb _ _) eqn:Ea; [|discriminate]. intros [= <-].
      split; cbn [futures taken main]; auto.
      left. destruct Hm as (j & rest & key & Ht & Hj & Hrest).
      exists e, j, rest, key. auto.
Qed.

Lemma pool_inv_run keys evs : forall (p p' : @pool dataframe),
  pool_inv fetch keys p -> pool_run fetch concat_sorted evs p = Some p' -> pool_inv fetch keys p'.
Proof.
  induction evs as [|ev evs IH]; intros p p' Hinv; cbn [pool_run].
  - now intros [= <-].
  - destruct (pool_step _ _ ev p) as [p1|] eqn:E; [|discriminate].
    apply IH. eapply pool_inv_step; eauto.
Qed.

Lemma all_done_settled keys (p : @pool dataframe) :
  pool_inv fetch keys p ->
  forallb is_done (futures p) = true ->
  futures p = map (fun key => (key, Done (fetch key))) keys.
Proof.
  intros [Hk Hl _] Hall. apply list_eq. intros i.
  rewrite list_lookup_fmap.
  destruct (futures p !! i) as [[key f]|] eqn:Hi.
  - destruct (Hk _ _ _ Hi) as [Hkey Hr]. rewrite Hkey. cbn.
    rewrite forallb_forall in Hall.
    assert (In (key, f) (futures p)) as Hin.
    { apply list_elem_of_In. eapply list_elem_of_lookup_2. exact Hi. }
    specialize (Hall _ Hin). unfold is_done in Hall. cbn in Hall.
    destruct f as [| |r]; try discriminate. now rewrite (Hr r eq_refl).
  - apply lookup_ge_None in Hi. rewrite Hl in Hi. apply lookup_ge_None in Hi.
    now rewrite Hi.
Qed.

(** C6. Take a range fetch one of whose per-date tasks fails, and any
    interleaving of workers and main thread.  If the call has come back to
    the caller, it came back with an exception and not with a merged frame;
    the exception is that of the first failed future the loop met, every
    future met before it having succeeded; and by then every submitted task
    has run to its end: each future holds the outcome of its own fetch, none
    was cancelled. *)
Theorem range_fetch_failure keys id_token i key e0 evs (p : @pool dataframe) :
  keys !! i = Some key ->
  fetch key = Raise e0 ->
  pool_run fetch concat_sorted evs (get_price_range (Ok id_token) keys) = Some p ->
  forall r, main p = Ended r ->
    exists e j rest key_j,
      r = Raise e
      /\ taken p = j :: rest
      /\ keys !! j = Some key_j /\ fetch key_j = Raise e
      /\ (forall k, k ∈ rest -> exists key_k df, keys !! k = Some key_k /\ fetch key_k = Ok df)
      /\ futures p = map (fun key => (key, Done (fetch key))) keys.
Proof.
  intros Hi Hfail Hrun r Hr. cbn [get_price_range] in Hrun.
  pose proof (pool_inv_run keys evs _ _ (pool_inv_submitted keys) Hrun) as Hinv.
  pose proof Hinv as [Hk Hl Hm]. rewrite Hr in Hm.
  assert (Hsucc : forall k, succeeded p k ->
            exists key_k df, keys !! k = Some key_k /\ fetch key_k = Ok df).
  { intros k (kk & df & Hd). destruct (Hk _ _ _ Hd) as [Hkey Hres].
    exists kk, df. split; [exact Hkey|]. symmetry. now apply Hres. }
  destruct Hm as [(e & j & rest & kj & -> & Ht & Hj & Hrest & Hall) | Hall].
  - exists e, j, rest, kj. split; [reflexivity|]. split; [exact Ht|].
    destruct (Hk _ _ _ Hj) as [Hkey Hres]. split; [exact Hkey|].
    split; [symmetry; now apply Hres|]. split; [auto|].
    now apply all_done_settled.
  - exfalso. destruct (Hsucc i) as (k & df & Hkey & Hok).
    { apply Hall. rewrite Hl. eapply lookup_lt_Some; eauto. }
    congruence.
Qed.

End RangeFetchFacts.

(** ** The claims on concrete runs *)

(** Against C1 as stated: the service refuses three exchanges in a row with
    status 400, no refresh token was passed in and mail address and password
    are set, yet only two of the three failures are followed by a retry: the
    call sleeps twice and ends in RetryError. *)
Lemma third_failure_is_not_retried :
  exists s',
    get_id_token ticking_clock rejecting_service None (fresh mail_client)
    = Some (Raise (RetryError (TokenAuthRefreshBadRequestException 400)), s')
    /\ exchange_calls s' = 3%nat
    /\ slept s' = [5; 5]
    /\ _mail_address (self s') = "user@example.com"%string
    /\ _password (self s') = "secret"%string.
Proof. eexists. split; [vm_compute; reflexivity|]. vm_compute. repeat split. Qed.

Lemma exchange_failure_policy_witness :
  exists s2,
    get_id_token_body frozen_clock rejecting_service None (fresh full_client)
    = (Raise (TokenAuthRefreshBadRequestException 400), s2)
    /\ _refresh_token (self s2) = ""%string
    /\ _id_token (self s2) = ""%string.
Proof.
  destruct (exchange_failure_policy frozen_clock rejecting_service None
              (fresh full_client) "stored" (tick (tick (fresh full_client)))
              400 ∅ 1 2) as [Hgate _].
  - vm_compute. reflexivity.
  - vm_compute. reflexivity.
  - lia.
  - destruct Hgate as (s2 & Hb & Hr & _ & Hi & _).
    + repeat split; discriminate.
    + exists s2. repeat split; assumption.
Defined.

Lemma get_id_token_cached_witness :
  get_id_token ticking_clock rejecting_service None (fresh warm_client)
  = Some (Ok "cached"%string, tick (fresh warm_client)).
Proof.
  apply (get_id_token_cached ticking_clock rejecting_service None (fresh warm_client)).
  vm_compute. reflexivity.
Defined.

(** Against C3 as stated: when every attempt fails the call sleeps 5 seconds
    and then 5 seconds again, not 5 and then 10, and there is no third
    wait; the waits the policy gives after the second and the third attempt
    are 5 seconds, not 10 and 20. *)
Lemma second_wait_is_five_seconds :
  exists r s',
    get_id_token ticking_clock rejecting_service None (fresh mail_client) = Some (r, s')
    /\ rev (slept s') = [5; 5]
    /\ Tenacity.wait_exponential 1 5 300 2 <> 10
    /\ Tenacity.wait_exponential 1 5 300 3 <> 20.
Proof.
  do 2 eexists. split; [vm_compute; reflexivity|].
  vm_compute. repeat split; discriminate.
Qed.

Lemma construct_credentials_witness :
  exists c,
    construct frozen_clock bare_os (Some "token"%string) None None 0 = Ok c
    /\ _refresh_token c = "token"%string.
Proof.
  apply (construct_credentials frozen_clock bare_os 0).
  - apply bare_environment_supplies_nothing; reflexivity.
  - discriminate.
  - now left.
  - now left.
Defined.


(** Against C8 as stated: two callers find the token expired before either
    has exchanged, and two exchanges are sent. *)
Lemma two_callers_two_exchanges :
  let r := run_schedule frozen_clock accepting_service [0; 1; 0; 1]%nat
                        (callers 2, fresh full_client) in
  _id_token_expire full_client <= frozen_clock 0
  /\ exchange_calls (snd r) = 2%nat
  /\ fst r = [Returned (Ok "id"%string); Returned (Ok "id"%string)].
Proof. vm_compute. repeat split. discriminate. Qed.

Lemma concurrent_callers_witness :
  let r := run_schedule frozen_clock accepting_service [1; 0; 1; 2]%nat
                        (callers 3, fresh warm_client) in
  exchange_calls (snd r) = exchange_calls (fresh warm_client)
  /\ self (snd r) = warm_client
  /\ Forall (fun c => c = Calling None 1 \/ c = Returned (Ok "cached"%string)) (fst r).
Proof.
  apply (proj1 (concurrent_callers frozen_clock accepting_service)
           (fresh warm_client) 3%nat [1; 0; 1; 2]%nat).
  intros k _. vm_compute. reflexivity.
Defined.

Lemma same_day_same_range_witness :
  consume 10 (date_range (PyStr (Strptime.compact 2020 2 27))
                         (PyStr (Strptime.compact 2020 3 2)) 1)
  = consume 10 (date_range (PyStr (Strptime.hyphenated 2020 2 27))
                           (PyStr (Strptime.hyphenated 2020 3 2)) 1).
Proof.
  apply (proj1 same_day_same_range 2020 2 27 2020 3 2).
  - reflexivity.
  - reflexivity.
  - now left.
  - right. now left.
  - now left.
  - right. now left.
Defined.

(** The range of the tests, across the leap day of 2020: five dates, as
    many as the span of the two ends says. *)
Lemma leap_day_range :
  date_keys (fst (consume 6 (date_range (PyStr "2020-02-27") (PyStr "2020-03-02") 1)))
  = ["20200227"; "20200228"; "20200229"; "20200301"; "20200302"]%string
  /\ snd (consume 6 (date_range (PyStr "2020-02-27") (PyStr "2020-03-02") 1)) = Exhausted
  /\ span (mkdatetime 737482 0 0 0 0 None) (mkdatetime 737486 0 0 0 0 None) 1 = 5.
Proof. vm_compute. repeat split. Qed.

Lemma date_range_type_check_witness :
  consume 1 (date_range (PyDatetimeSubclass "Timestamp" noon_20200227)
                        (PyStr "20200302") 1)
  = ([], Failed TypeError).
Proof.
  apply (proj1 (date_range_type_check
                  (PyDatetimeSubclass "Timestamp" noon_20200227)
                  (PyStr "20200302") 1)).
  reflexivity.
Defined.

Lemma date_range_termination_witness :
  exists ds,
    (forall fuel, (List.length ds < fuel)%nat ->
       consume fuel (date_range (PyStr "20200302") (PyStr "20200302") (-366))
       = (ds, Failed OverflowError))
    /\ Z.of_nat (List.length ds) = (737486 - 1) / 366 + 1
    /\ Forall (fun d => datetime_le d (mkdatetime 737486 0 0 0 0 None) = Ok true) ds.
Proof.
  destruct (date_range_termination
              (PyStr "20200302") (PyStr "20200302") (-366)
              (mkdatetime 737486 0 0 0 0 None)
              (mkdatetime 737486 0 0 0 0 None)
              ltac:(vm_compute; reflexivity) ltac:(vm_compute; reflexivity)
              ltac:(reflexivity) ltac:(reflexivity)) as [_ H].
  destruct H as (_ & _ & _ & _ & H).
  - split; reflexivity.
  - left. reflexivity.
  - apply H.
    + lia.
    + vm_compute. discriminate.
Defined.

(** The run of C6 on two dates: the second task fails while the first is
    still running; the main thread meets the failure, and the with block
    cannot be left before the first task has finished. *)
Lemma exit_waits_for_running_task :
  pool_run fetch_fails_on_28 concat_frames
    [WorkerStart 0; WorkerStart 1; WorkerFinish 1; MainNext 1; MainExit]
    (get_price_range (Ok "id"%string) ["20200227"; "20200228"]%string)
  = None.
Proof. vm_compute. reflexivity. Qed.

Lemma range_fetch_failure_witness :
  exists p,
    pool_run fetch_fails_on_28 concat_frames
      [WorkerStart 0; WorkerStart 1; WorkerFinish 1; MainNext 1; WorkerFinish 0; MainExit]
      (get_price_range (Ok "id"%string) ["20200227"; "20200228"]%string)
    = Some p
    /\ main p = Ended (Raise (HTTPError 500))
    /\ exists e j rest key_j,
         Raise (A:=list string) (HTTPError 500) = Raise e
         /\ taken p = j :: rest
         /\ ["20200227"; "20200228"]%string !! j = Some key_j
         /\ fetch_fails_on_28 key_j = Raise e
         /\ (forall k, k ∈ rest ->
               exists key_k df, ["20200227"; "20200228"]%string !! k = Some key_k
                                /\ fetch_fails_on_28 key_k = Ok df)
         /\ futures p = map (fun key => (key, Done (fetch_fails_on_28 key)))
                            ["20200227"; "20200228"]%string.
Proof.
  eexists. split; [vm_compute; reflexivity|]. split; [reflexivity|].
  eapply (range_fetch_failure fetch_fails_on_28 concat_frames
            ["20200227"; "20200228"]%string "id"%string 1%nat "20200228"%string
            (HTTPError 500)
            [WorkerStart 0; WorkerStart 1; WorkerFinish 1; MainNext 1; WorkerFinish 0;
             MainExit]).
  - reflexivity.
  - reflexivity.
  - vm_compute. reflexivity.
  - reflexivity.
Defined.

(** * Further properties *)

(** ** The refresh token *)

Section RefreshTokenFacts.

Variable utcnow : nat -> Z.
Variable upstream : nat -> request -> reply.

Lemma usable_login_dec mail password :
  usable_login mail password
  <-> (is_empty mail || is_empty password) = false /\ has_at mail = true.
Proof.
  unfold usable_login, has_at. rewrite orb_false_iff, !is_empty_false. tauto.
Qed.

Lemma status_ok_false status_code :
  ~ 400 <= status_code < 600 ->
  (400 <=? status_code) && (status_code <? 600) = false.
Proof.
  intros H. destruct ((400 <=? status_code) && (status_code <? 600)) eqn:E; [|reflexivity].
  exfalso. apply H. apply andb_prop in E as [E1 E2].
  apply Z.leb_le in E1. apply Z.ltb_lt in E2. lia.
Qed.

(** [get_refresh_token] once the cached token has expired, by cases. *)
Lemma get_refresh_token_expired mail_address password s :
  _refresh_token_expire (self s) <= utcnow (clock_reads s) ->
  let mail := login_mail mail_address (self s) in
  let pass := login_password password (self s) in
  get_refresh_token utcnow upstream mail_address password s
  = if is_empty mail || is_empty pass then (Raise ValueError, tick s)
    else if negb (has_at mail) then (Raise ValueError, tick s)
    else match upstream (List.length (posted s)) (login_request mail pass) with
         | NoResponse =>
             (Raise ConnectionError, sent (login_request mail pass) (tick s))
         | Response status_code body =>
             if (400 <=? status_code) && (status_code <? 600)
             then (Raise (HTTPError status_code),
                   sent (login_request mail pass) (tick s))
             else match body !! "refreshToken"%string with
                  | None => (Raise KeyError,
                             sent (login_request mail pass) (tick s))
                  | Some tok =>
                      (Ok tok,
                       mkstate (set_refresh_token_expire
                                  (utcnow (S (clock_reads s)) + SIX_DAYS)
                                  (set_refresh_token tok (self s)))
                               (S (S (clock_reads s)))
                               (login_request mail pass :: posted s)
                               (slept s))
                  end
         end.
Proof.
  intros Hexp mail pass.
  unfold mail, pass, login_mail, login_password, login_request. unfold_m. unfold sent.
  destruct (Z.ltb_spec (utcnow (clock_reads s)) (_refresh_token_expire (self s))); [lia|].
  destruct mail_address, password; cbn [default from_option id self];
    (destruct (is_empty _ || is_empty _); [reflexivity|]);
    (destruct (has_at _); cbn [negb]; [|reflexivity]);
    cbn [posted];
    (destruct (upstream _ _) as [st body|]; [|reflexivity]);
    (destruct (_ && _); [reflexivity|]);
    (destruct (body !! _); reflexivity).
Qed.

(** X1. Validation comes before the network.  With an expired refresh
    token, when the mail address or the password [get_refresh_token] would
    log in with (the argument where given, an empty string included, the
    stored value otherwise) is empty, or the address has no '@', it raises
    ValueError, nothing has been sent and the client is untouched.  When
    they pass the check, one POST is sent whatever comes of it: the login
    request with that address and that password. *)
Theorem get_refresh_token_validation mail_address password s :
  _refresh_token_expire (self s) <= utcnow (clock_reads s) ->
  let mail := login_mail mail_address (self s) in
  let pass := login_password password (self s) in
  (~ usable_login mail pass ->
   get_refresh_token utcnow upstream mail_address password s
   = (Raise ValueError, tick s))
  /\ (usable_login mail pass ->
      posted (snd (get_refresh_token utcnow upstream mail_address password s))
      = login_request mail pass :: posted s).
Proof.
  intros Hexp mail pass.
  pose proof (get_refresh_token_expired mail_address password s Hexp) as Hrun.
  cbv zeta in Hrun. fold mail pass in Hrun.
  split.
  - intros Hbad. rewrite Hrun. rewrite usable_login_dec in Hbad.
    destruct (is_empty mail || is_empty pass); [reflexivity|].
    destruct (has_at mail); [exfalso; apply Hbad; auto|reflexivity].
  - intros Hok. apply usable_login_dec in Hok as [H1 H2].
    rewrite Hrun, H1, H2. cbn [negb].
    destruct (upstream _ _) as [st body|]; [|reflexivity].
    destruct (_ && _); [reflexivity|].
    destruct (body !! _); reflexivity.
Qed.

(** X2. A login.  With an expired refresh token and usable credentials, an
    answer of the login endpoint that carries a refresh token is returned
    and stored, with an expiry six days after the clock reading that follows
    the answer; one POST has gone to the login endpoint, carrying the mail
    address and the password of the call (the arguments where given); and
    these are not kept: the stored mail address and password, and the id
    token, are as before. *)
Theorem get_refresh_token_login mail_address password s status_code body tok :
  _refresh_token_expire (self s) <= utcnow (clock_reads s) ->
  let mail := login_mail mail_address (self s) in
  let pass := login_password password (self s) in
  usable_login mail pass ->
  upstream (List.length (posted s)) (login_request mail pass)
  = Response status_code body ->
  ~ 400 <= status_code < 600 ->
  body !! "refreshToken"%string = Some tok ->
  exists s',
    get_refresh_token utcnow upstream mail_address password s = (Ok tok, s')
    /\ _refresh_token (self s') = tok
    /\ _refresh_token_expire (self s') = utcnow (S (clock_reads s)) + SIX_DAYS
    /\ _mail_address (self s') = _mail_address (self s)
    /\ _password (self s') = _password (self s)
    /\ _id_token (self s') = _id_token (self s)
    /\ _id_token_expire (self s') = _id_token_expire (self s)
    /\ posted s' = login_request mail pass :: posted s
    /\ clock_reads s' = S (S (clock_reads s)).
Proof.
  intros Hexp mail pass Hok Hup Hst Htok.
  pose proof (get_refresh_token_expired mail_address password s Hexp) as Hrun.
  cbv zeta in Hrun. fold mail pass in Hrun.
  apply usable_login_dec in Hok as [H1 H2]. rewrite H1, H2, Hup, Htok in Hrun.
  cbn [negb] in Hrun. rewrite (status_ok_false _ Hst) in Hrun.
  eexists. split; [exact Hrun|]. repeat split.
Qed.

(** X3. Whatever goes wrong in [get_refresh_token] (a credential missing, a
    connection failure, an error status, an answer without the token), the
    client is as it was before the call. *)
Theorem get_refresh_token_failure_keeps_client mail_address password s e s' :
  get_refresh_token utcnow upstream mail_address password s = (Raise e, s') ->
  self s' = self s.
Proof.
  unfold_m. intros H.
  repeat case_match; simplify_eq; reflexivity.
Qed.

(** While the refresh token has not expired the arguments are not looked
    at. *)
Lemma get_refresh_token_reuse mail_address password s :
  utcnow (clock_reads s) < _refresh_token_expire (self s) ->
  get_refresh_token utcnow upstream mail_address password s
  = (Ok (_refresh_token (self s)), tick s).
Proof.
  intros H. unfold_m.
  destruct (Z.ltb_spec (utcnow (clock_reads s)) (_refresh_token_expire (self s))); [|lia].
  reflexivity.
Qed.

(** X4. The refresh token is cached.  After a login, any further call made
    while less than six days have passed on the clock returns the token of
    that login, whatever mail address and password it is given, and sends
    nothing: one POST in all. *)
Theorem get_refresh_token_twice mail_address password mail_address' password'
    s tok s1 :
  _refresh_token_expire (self s) <= utcnow (clock_reads s) ->
  get_refresh_token utcnow upstream mail_address password s = (Ok tok, s1) ->
  utcnow (clock_reads s1) < utcnow (Nat.pred (clock_reads s1)) + SIX_DAYS ->
  get_refresh_token utcnow upstream mail_address' password' s1 = (Ok tok, tick s1)
  /\ List.length (posted (tick s1)) = S (List.length (posted s)).
Proof.
  intros Hexp H1 Hclock.
  destruct (get_refresh_token_ok _ _ _ _ _ _ _ H1) as [(Hlt & _) | (_ & Htok & Hex & json & Hp)];
    [lia|].
  rewrite get_refresh_token_reuse by (rewrite Hex; exact Hclock).
  rewrite Htok. split; [reflexivity|]. cbn [tick posted]. now rewrite Hp.
Qed.

End RefreshTokenFacts.

(** ** The id token *)

Section IdTokenFacts.

Variable utcnow : nat -> Z.
Variable upstream : nat -> request -> reply.

Lemma get_refresh_token_keeps_login mail_address password s r s' :
  get_refresh_token utcnow upstream mail_address password s = (r, s') ->
  _mail_address (self s') = _mail_address (self s)
  /\ _password (self s') = _password (self s).
Proof.
  unfold_m. intros H.
  repeat case_match; simplify_eq; cbn; auto.
Qed.

Lemma id_token_check_keeps_login refresh_token s r s' :
  id_token_check utcnow upstream refresh_token s = (r, s') ->
  _mail_address (self s') = _mail_address (self s)
  /\ _password (self s') = _password (self s).
Proof.
  unfold id_token_check, datetime_now, gets, mbind, mret, M_bind, M_ret.
  cbn [self clock_reads posted slept tick].
  destruct (_ <? _).
  - intros [= <- <-]. auto.
  - destruct refresh_token as [x|].
    + intros [= <- <-]. auto.
    + destruct (get_refresh_token _ _ None None (tick s)) as [[x|e] s2] eqn:E;
        intros [= <- <-]; exact (get_refresh_token_keeps_login _ _ _ _ _ E).
Qed.

Lemma id_token_exchange_keeps_login refresh_token rt s r s' :
  id_token_exchange utcnow upstream refresh_token rt s = (r, s') ->
  _mail_address (self s') = _mail_address (self s)
  /\ _password (self s') = _password (self s).
Proof.
  unfold_m. intros H.
  repeat case_match; simplify_eq; cbn; auto.
Qed.

Lemma get_id_token_body_keeps_login refresh_token s r s' :
  get_id_token_body utcnow upstream refresh_token s = (r, s') ->
  _mail_address (self s') = _mail_address (self s)
  /\ _password (self s') = _password (self s).
Proof.
  unfold get_id_token_body, mbind, M_bind.
  destruct (id_token_check _ _ _ s) as [[[tok|rt]|e] s1] eqn:E;
    apply id_token_check_keeps_login in E as [Em Ep].
  - intros [= <- <-]. auto.
  - intros H. apply id_token_exchange_keeps_login in H as [Hm Hp].
    split; congruence.
  - intros [= <- <-]. auto.
Qed.

(** X5. [get_id_token] never writes the mail address or the password: they
    are the same after the call as before, whether it returned or raised,
    retries and the emptying of the tokens included. *)
Theorem get_id_token_keeps_login refresh_token s r s' :
  get_id_token utcnow upstream refresh_token s = Some (r, s') ->
  _mail_address (self s') = _mail_address (self s)
  /\ _password (self s') = _password (self s).
Proof.
  unfold get_id_token. generalize 1. generalize 3%nat. intros fuel.
  revert s. induction fuel as [|fuel IH]; intros s a; [discriminate|].
  rewrite retrying_unfold.
  destruct (get_id_token_body utcnow upstream refresh_token s) as [x s1] eqn:E.
  apply get_id_token_body_keeps_login in E as [Em Ep]. cbn [fst snd].
  destruct (after_attempt a x) as [r0|wait].
  - intros [= <- <-]. auto.
  - intros H. apply IH in H. cbn [self] in H. destruct H. split; congruence.
Qed.

Lemma id_token_exchange_given r rt s res s' :
  id_token_exchange utcnow upstream (Some r) rt s = (res, s') ->
  posted s' = exchange_request rt :: posted s
  /\ slept s' = slept s
  /\ _refresh_token (self s') = _refresh_token (self s)
  /\ _refresh_token_expire (self s') = _refresh_token_expire (self s)
  /\ match res with
     | Ok tok =>
         _id_token (self s') = tok
         /\ _id_token_expire (self s') = utcnow (clock_reads s) + TWENTY_THREE_HOURS
     | Raise e =>
         self s' = self s
         /\ (forall status_code, e <> TokenAuthRefreshBadRequestException status_code)
         /\ (forall last, e <> RetryError last)
     end.
Proof.
  unfold_m. unfold exchange_request. intros H.
  repeat case_match; simplify_eq; cbn; repeat split; eauto; intros; discriminate.
Qed.

(** X6. A refresh token passed in is used once and not kept.  When the id
    token has expired, [get_id_token(refresh_token)] sends exactly one POST,
    the exchange of the token passed in, never sleeps and never retries, and
    leaves the stored refresh token and its expiry alone.  If the exchange
    succeeds the id token is stored with an expiry 23 hours after the clock
    reading that follows; otherwise the client is unchanged and what is
    raised is the exception of that one attempt: neither the retry signal
    nor the RetryError of the decorator. *)
Theorem get_id_token_given r s res s' :
  _id_token_expire (self s) <= utcnow (clock_reads s) ->
  get_id_token utcnow upstream (Some r) s = Some (res, s') ->
  posted s' = exchange_request r :: posted s
  /\ slept s' = slept s
  /\ _refresh_token (self s') = _refresh_token (self s)
  /\ _refresh_token_expire (self s') = _refresh_token_expire (self s)
  /\ match res with
     | Ok tok =>
         _id_token (self s') = tok
         /\ _id_token_expire (self s')
            = utcnow (S (clock_reads s)) + TWENTY_THREE_HOURS
     | Raise e =>
         self s' = self s
         /\ (forall status_code, e <> TokenAuthRefreshBadRequestException status_code)
         /\ (forall last, e <> RetryError last)
     end.
Proof.
  intros Hexp. unfold get_id_token. rewrite retrying_unfold.
  assert (Hb : get_id_token_body utcnow upstream (Some r) s
               = id_token_exchange utcnow upstream (Some r) r (tick s)).
  { unfold get_id_token_body, mbind, M_bind.
    now rewrite id_token_check_given by exact Hexp. }
  rewrite Hb.
  destruct (id_token_exchange utcnow upstream (Some r) r (tick s)) as [x s1] eqn:E.
  apply id_token_exchange_given in E as (Hp & Hs & Hr & Hre & Hres).
  cbn [fst snd]. destruct x as [tok|e]; cbn [after_attempt].
  - intros [= <- <-]. auto.
  - destruct Hres as (Hself & Hsig & Hretry).
    assert (Tenacity.retry_if_exception_type e = false) as ->.
    { destruct e; try reflexivity. now destruct (Hsig status_code). }
    intros [= <- <-]. auto 7.
Qed.

(** X7. No way to log in.  When the id token and the stored refresh token
    have both expired and the stored mail address and password cannot be
    used for a login, [get_id_token()] raises ValueError at its first
    attempt, having read the clock twice and sent nothing. *)
Theorem get_id_token_cannot_renew s :
  _id_token_expire (self s) <= utcnow (clock_reads s) ->
  _refresh_token_expire (self s) <= utcnow (S (clock_reads s)) ->
  ~ usable_login (_mail_address (self s)) (_password (self s)) ->
  get_id_token utcnow upstream None s = Some (Raise ValueError, tick (tick s)).
Proof.
  intros Hid Href Hbad. unfold get_id_token. rewrite retrying_unfold.
  assert (Hb : get_id_token_body utcnow upstream None s
               = (Raise ValueError, tick (tick s))).
  { unfold get_id_token_body, mbind, M_bind.
    rewrite id_token_check_stored by exact Hid.
    pose proof (get_refresh_token_expired utcnow upstream None None (tick s) Href)
      as Hrun.
    cbv zeta in Hrun.
    cbn [login_mail login_password default from_option id tick self] in Hrun.
    rewrite Hrun. rewrite usable_login_dec in Hbad.
    destruct (is_empty _ || is_empty _); [reflexivity|].
    destruct (has_at _); [exfalso; apply Hbad; auto|reflexivity]. }
  rewrite Hb. reflexivity.
Qed.

(** X8. Only the status 400 of the exchange is retried.  When the service
    does not answer the exchange, ConnectionError comes out of the decorated
    call at once, and when it answers without an id token, KeyError does:
    one POST for the exchange, no sleep, and the cached tokens as they
    were. *)
Theorem exchange_other_failures refresh_token s rt s1 (attempt_number : Z) (fuel : nat) :
  id_token_check utcnow upstream refresh_token s = (Ok (inr rt), s1) ->
  let body_ := get_id_token_body utcnow upstream refresh_token in
  (upstream (List.length (posted s1)) (exchange_request rt) = NoResponse ->
   retrying (S fuel) attempt_number body_ s
   = Some (Raise ConnectionError, sent (exchange_request rt) s1))
  /\ (forall status_code body,
         upstream (List.length (posted s1)) (exchange_request rt)
         = Response status_code body ->
         ~ 400 <= status_code < 600 ->
         body !! "idToken"%string = None ->
         retrying (S fuel) attempt_number body_ s
         = Some (Raise KeyError, sent (exchange_request rt) s1)).
Proof.
  intros Hcheck body_.
  assert (Hbody : body_ s = id_token_exchange utcnow upstream refresh_token rt s1).
  { unfold body_, get_id_token_body, mbind, M_bind. now rewrite Hcheck. }
  split.
  - intros Hup. rewrite retrying_unfold, Hbody.
    assert (id_token_exchange utcnow upstream refresh_token rt s1
            = (Raise ConnectionError, sent (exchange_request rt) s1)) as ->.
    { unfold_m. fold (exchange_request rt). now rewrite Hup. }
    reflexivity.
  - intros st body Hup Hst Hkey. rewrite retrying_unfold, Hbody.
    assert (id_token_exchange utcnow upstream refresh_token rt s1
            = (Raise KeyError, sent (exchange_request rt) s1)) as ->.
    { unfold_m. fold (exchange_request rt). rewrite Hup.
      rewrite (status_ok_false _ Hst). now rewrite Hkey. }
    reflexivity.
Qed.

(** X9. A stale refresh token is replaced.  The id token has expired, the
    stored refresh token has not, and mail address and password are set;
    the service answers the exchange of the stored token with 400, then
    accepts a login and the exchange of the refresh token it hands out.
    With a clock that does not run backwards, [get_id_token()] returns the
    new id token after three POSTs (exchange, login, exchange) and one sleep
    of 5 seconds, and the client holds the new refresh token, expiring 6
    days after the seventh clock reading of the call, and the new id token,
    expiring 23 hours after the eighth. *)
Theorem get_id_token_recovers s body0 status1 body1 new_refresh status2 body2 tok :
  let r0 := clock_reads s in
  let n0 := List.length (posted s) in
  let stale := _refresh_token (self s) in
  let mail := _mail_address (self s) in
  let pass := _password (self s) in
  monotone_clock utcnow ->
  _id_token_expire (self s) <= utcnow r0 ->
  utcnow (S r0) < _refresh_token_expire (self s) ->
  usable_login mail pass ->
  upstream n0 (exchange_request stale) = Response 400 body0 ->
  upstream (S n0) (login_request mail pass) = Response status1 body1 ->
  ~ 400 <= status1 < 600 ->
  body1 !! "refreshToken"%string = Some new_refresh ->
  upstream (S (S n0)) (exchange_request new_refresh) = Response status2 body2 ->
  ~ 400 <= status2 < 600 ->
  body2 !! "idToken"%string = Some tok ->
  exists s',
    get_id_token utcnow upstream None s = Some (Ok tok, s')
    /\ posted s' = exchange_request new_refresh :: login_request mail pass
                   :: exchange_request stale :: posted s
    /\ slept s' = 5 :: slept s
    /\ _refresh_token (self s') = new_refresh
    /\ _refresh_token_expire (self s') = utcnow (r0 + 6)%nat + SIX_DAYS
    /\ _id_token (self s') = tok
    /\ _id_token_expire (self s') = utcnow (r0 + 7)%nat + TWENTY_THREE_HOURS.
Proof.
  intros r0 n0 stale mail pass Hmono Hid Href Hlogin Hup0 Hup1 Hst1 Hfresh Hup2 Hst2 Htok.
  apply usable_login_dec in Hlogin as [Hne Hat].
  apply orb_false_iff in Hne as [Hm Hp].
  (* first attempt *)
  assert (Hc1 : id_token_check utcnow upstream None s = (Ok (inr stale), tick (tick s))).
  { rewrite id_token_check_stored by exact Hid.
    now rewrite get_refresh_token_valid by exact Href. }
  set (s2 := mkstate (set_id_token_expire (utcnow (S (S (S r0))))
                        (set_id_token ""
                           (set_refresh_token_expire (utcnow (S (S r0)))
                              (set_refresh_token "" (self s)))))
                     (S (S (S (S r0)))) (exchange_request stale :: posted s) (slept s)).
  assert (Hb1 : get_id_token_body utcnow upstream None s
                = (Raise (TokenAuthRefreshBadRequestException 400), s2)).
  { unfold get_id_token_body, mbind, M_bind. rewrite Hc1.
    rewrite (id_token_exchange_http_error utcnow upstream None stale (tick (tick s))
               400 body0 Hup0 ltac:(lia)).
    rewrite on_http_error_retry; [reflexivity|reflexivity| |].
    - apply is_empty_false. exact Hm.
    - apply is_empty_false. exact Hp. }
  unfold get_id_token. rewrite retrying_unfold, Hb1.
  cbn [fst snd after_attempt Tenacity.retry_if_exception_type].
  change (Tenacity.stop_after_attempt MAX_ATTEMPTS 1) with false.
  change (Tenacity.wait_exponential 1 5 300 1) with 5. cbv iota.
  set (s3 := mkstate (self s2) (clock_reads s2) (posted s2) (5 :: slept s2)).
  (* second attempt *)
  rewrite retrying_unfold.
  assert (Hc2 : id_token_check utcnow upstream None s3
                = match get_refresh_token utcnow upstream None None (tick s3) with
                  | (Ok r, s') => (Ok (inr r), s')
                  | (Raise e, s') => (Raise e, s')
                  end).
  { apply id_token_check_stored. cbn. apply Hmono. lia. }
  assert (Hexp : _refresh_token_expire (self (tick s3)) <= utcnow (clock_reads (tick s3))).
  { cbn. apply Hmono. lia. }
  pose proof (get_refresh_token_expired utcnow upstream None None (tick s3) Hexp) as Hl.
  cbv zeta in Hl.
  cbn [login_mail login_password default from_option id tick s3 s2 self posted
       clock_reads slept _mail_address _password set_id_token set_id_token_expire
       set_refresh_token set_refresh_token_expire List.length] in Hl.
  fold mail pass n0 in Hl.
  rewrite Hm, Hp, Hat, Hup1, (status_ok_false _ Hst1), Hfresh in Hl.
  cbn [orb negb] in Hl.
  rewrite Hl in Hc2.
  match type of Hl with _ = (_, ?x) => set (s4 := x) in * end.
  assert (Hb2 : get_id_token_body utcnow upstream None s3
                = id_token_exchange utcnow upstream None new_refresh s4).
  { unfold get_id_token_body, mbind, M_bind. now rewrite Hc2. }
  rewrite Hb2, (id_token_exchange_success utcnow upstream None new_refresh s4 _ _ _
                  Hup2 Hst2 Htok).
  cbn [fst snd after_attempt].
  eexists. split; [reflexivity|].
  cbn [self posted slept clock_reads s4 _refresh_token _refresh_token_expire
       _id_token _id_token_expire set_id_token set_id_token_expire
       set_refresh_token set_refresh_token_expire].
  repeat split; try reflexivity.
  - f_equal. f_equal. fold r0. lia.
  - f_equal. f_equal. fold r0. lia.
Qed.

(** X10. No stale token is handed out.  With a clock that does not run
    backwards, a call of [get_id_token] that starts with an expired id token
    and returns, returns a token it has just obtained by an exchange: the
    token is the one stored, it expires 23 hours after the last clock
    reading of the call, and the last POST sent is an exchange. *)
Theorem get_id_token_fresh refresh_token s tok s' :
  monotone_clock utcnow ->
  _id_token_expire (self s) <= utcnow (clock_reads s) ->
  get_id_token utcnow upstream refresh_token s = Some (Ok tok, s') ->
  _id_token (self s') = tok
  /\ _id_token_expire (self s') = utcnow (Nat.pred (clock_reads s')) + TWENTY_THREE_HOURS
  /\ exists rt rest, posted s' = exchange_request rt :: rest.
Proof.
  intros Hmono Hexp. unfold get_id_token.
  assert (Hinv : expired_before utcnow s) by (exists (clock_reads s); auto).
  clear Hexp. revert Hinv. generalize 1. generalize 3%nat. intros fuel.
  revert s. induction fuel as [|fuel IH]; intros s a Hinv; [discriminate|].
  rewrite retrying_unfold.
  destruct (get_id_token_body utcnow upstream refresh_token s) as [x s1] eqn:E.
  cbn [fst snd]. destruct x as [t|e]; cbn [after_attempt].
  - intros [= <- <-]. apply get_id_token_body_ok in E as [(Hv & _) | (_ & H)]; [|exact H].
    exfalso. destruct Hinv as (k & Hk & Hle).
    pose proof (Hmono _ _ Hk). lia.
  - destruct (Tenacity.retry_if_exception_type e) eqn:Er; [|discriminate].
    destruct (Tenacity.stop_after_attempt _ _); [discriminate|].
    destruct e; try discriminate.
    apply retry_signal_expires in E as (k & Hk & Hek & _).
    apply IH. exists k. cbn [self clock_reads]. split; [lia|]. now rewrite Hek.
Qed.

End IdTokenFacts.

(** ** Configuration *)

Lemma is_ok_spec {A} (r : result A) : is_ok r = true -> exists a, r = Ok a.
Proof. destruct r; [eauto|discriminate]. Qed.

Lemma read_config_cases os path :
  (files os !! path = Some None /\ _read_config os path = Raise ValueError)
  \/ (files os !! path <> Some None
      /\ _read_config os path = Ok (read_table os path)).
Proof.
  unfold read_table, _read_config.
  destruct (files os !! path) as [[doc|]|]; [right|left|right];
    (split; [congruence|]); auto.
  destruct (doc !! _); reflexivity.
Qed.

Lemma lookup_merge (config update : gmap string string) key :
  dict_merge config update !! key
  = match update !! key with Some v => Some v | None => config !! key end.
Proof.
  unfold dict_merge. rewrite lookup_union.
  destruct (update !! key), (config !! key); reflexivity.
Qed.

(** X11. Precedence of the configuration sources.  For each of mail
    address, password and refresh token, the value [_load_config] returns is
    the environment variable of that credential when it is set, even to the
    empty string; otherwise the value of the first file that has the key,
    looking at the file named by JQUANTS_API_CLIENT_CONFIG_FILE, then the
    file of the current directory, then the file of the home directory, then
    (in colab) the file of the drive; otherwise the empty string. *)
Theorem load_config_precedence os config :
  _load_config os = Ok config ->
  let value var key :=
    default (default ""%string (lookup_first key (consulted os))) (environ os !! var) in
  config !! "mail_address"%string
  = Some (value "JQUANTS_API_MAIL_ADDRESS"%string "mail_address"%string)
  /\ config !! "password"%string
     = Some (value "JQUANTS_API_PASSWORD"%string "password"%string)
  /\ config !! "refresh_token"%string
     = Some (value "JQUANTS_API_REFRESH_TOKEN"%string "refresh_token"%string).
Proof.
  unfold _load_config, consulted. fold colab_config_path.
  fold (user_config_path os). fold current_config_path.
  unfold mbind, mret, result_bind, result_ret.
  assert (Hc : forall path, _read_config os path = Ok (read_table os path)
                            \/ _read_config os path = Raise ValueError).
  { intros path. destruct (read_config_cases os path) as [[_ ->]|[_ ->]]; auto. }
  assert (Hfin : forall merged : gmap string string,
     let value var key :=
       default (default ""%string (merged !! key)) (environ os !! var) in
     let cfg :=
       <["refresh_token"%string :=
           env_or_config os "JQUANTS_API_REFRESH_TOKEN" "refresh_token"
             (<["password"%string :=
                  env_or_config os "JQUANTS_API_PASSWORD" "password"
                    (<["mail_address"%string :=
                         env_or_config os "JQUANTS_API_MAIL_ADDRESS" "mail_address" merged]>
                       merged)]>
                (<["mail_address"%string :=
                     env_or_config os "JQUANTS_API_MAIL_ADDRESS" "mail_address" merged]>
                   merged))]>
         (<["password"%string :=
              env_or_config os "JQUANTS_API_PASSWORD" "password"
                (<["mail_address"%string :=
                     env_or_config os "JQUANTS_API_MAIL_ADDRESS" "mail_address" merged]>
                   merged)]>
            (<["mail_address"%string :=
                 env_or_config os "JQUANTS_API_MAIL_ADDRESS" "mail_address" merged]>
               merged)) in
     cfg !! "mail_address"%string
     = Some (value "JQUANTS_API_MAIL_ADDRESS"%string "mail_address"%string)
     /\ cfg !! "password"%string
        = Some (value "JQUANTS_API_PASSWORD"%string "password"%string)
     /\ cfg !! "refresh_token"%string
        = Some (value "JQUANTS_API_REFRESH_TOKEN"%string "refresh_token"%string)).
  { intros merged value cfg. unfold cfg, value, env_or_config.
    rewrite lookup_insert_ne, lookup_insert_ne, lookup_insert_eq by discriminate.
    rewrite lookup_insert_ne, lookup_insert_eq by discriminate.
    rewrite lookup_insert_eq.
    rewrite !lookup_insert_ne by discriminate. auto. }
  assert (Hm : forall (key : string) (t1 t2 t3 t4 : gmap string string),
             dict_merge (dict_merge (dict_merge (dict_merge ∅ t4) t3) t2) t1 !! key
             = lookup_first key [t1; t2; t3; t4]).
  { intros key t1 t2 t3 t4. rewrite !lookup_merge, lookup_empty. cbn [lookup_first].
    repeat (destruct (_ !! key); try reflexivity). }
  assert (Hm3 : forall (key : string) (t1 t2 t3 : gmap string string),
             dict_merge (dict_merge (dict_merge ∅ t3) t2) t1 !! key
             = lookup_first key [t1; t2; t3]).
  { intros key t1 t2 t3. rewrite !lookup_merge, lookup_empty. cbn [lookup_first].
    repeat (destruct (_ !! key); try reflexivity). }
  assert (Hm2 : forall (key : string) (t1 t2 : gmap string string),
             dict_merge (dict_merge ∅ t2) t1 !! key
             = lookup_first key [t1; t2]).
  { intros key t1 t2. rewrite !lookup_merge, lookup_empty. cbn [lookup_first].
    repeat (destruct (_ !! key); try reflexivity). }
  destruct (is_colab os).
  - destruct (Hc colab_config_path) as [-> | ->]; [|discriminate]. cbv beta iota.
    destruct (Hc (user_config_path os)) as [-> | ->]; [|discriminate]. cbv beta iota.
    destruct (Hc current_config_path) as [-> | ->]; [|discriminate]. cbv beta iota.
    destruct (environ os !! "JQUANTS_API_CLIENT_CONFIG_FILE"%string) as [p|].
    + destruct (Hc p) as [-> | ->]; [|discriminate]. cbv beta iota.
      intros [= <-]. cbn [app]. rewrite <- !Hm. apply Hfin.
    + intros [= <-]. cbn [app]. rewrite <- !Hm3. apply Hfin.
  - destruct (Hc (user_config_path os)) as [-> | ->]; [|discriminate]. cbv beta iota.
    destruct (Hc current_config_path) as [-> | ->]; [|discriminate]. cbv beta iota.
    destruct (environ os !! "JQUANTS_API_CLIENT_CONFIG_FILE"%string) as [p|].
    + destruct (Hc p) as [-> | ->]; [|discriminate]. cbv beta iota.
      intros [= <-]. cbn [app]. rewrite <- !Hm3. apply Hfin.
    + intros [= <-]. cbn [app]. rewrite <- !Hm2. apply Hfin.
Qed.

Lemma load_config_raises_iff os :
  (exists path, path ∈ consulted_paths os /\ files os !! path = Some None)
  <-> _load_config os = Raise ValueError.
Proof.
  unfold consulted_paths, _load_config. fold colab_config_path.
  fold (user_config_path os). fold current_config_path.
  unfold mbind, mret, result_bind, result_ret.
  assert (Hin1 : forall (x : string) l, (exists path, path ∈ x :: l /\ files os !! path = Some None)
            <-> files os !! x = Some None
                \/ exists path, path ∈ l /\ files os !! path = Some None).
  { intros x l. split.
    - intros (p & Hp & Hf). apply elem_of_cons in Hp as [->|Hp]; eauto.
    - intros [Hf | (p & Hp & Hf)]; [exists x|exists p];
        (split; [|assumption]); apply elem_of_cons; auto. }
  assert (Hin0 : (exists path : string, path ∈ @nil string /\ files os !! path = Some None)
                 <-> False).
  { split; [|tauto]. intros (p & Hp & _). now apply elem_of_nil in Hp. }
  destruct (is_colab os); cbn [app];
    rewrite ?Hin1;
    repeat match goal with
           | |- context [_read_config os ?p] =>
               destruct (read_config_cases os p) as [[? ->] | [? ->]]; cbv beta iota
           end.
  all: try (split; [intros _; reflexivity|tauto]).
  all: destruct (environ os !! "JQUANTS_API_CLIENT_CONFIG_FILE"%string) as [p|];
    rewrite ?Hin1, ?Hin0;
    try (destruct (read_config_cases os p) as [[? ->] | [? ->]]; cbv beta iota).
  all: try (split; [intros _; reflexivity|tauto]).
  all: split; [tauto|discriminate].
Qed.

Section ConstructFacts.

Variable utcnow : nat -> Z.

(** X12. A configuration file that does not parse stops everything.
    [_load_config] raises ValueError exactly when one of the files it opens
    (the file of the drive in colab, the file of the home directory, the
    file of the current directory, the file named by
    JQUANTS_API_CLIENT_CONFIG_FILE) exists and is not valid TOML, and then
    the constructor raises ValueError whatever credentials are passed to
    it. *)
Theorem malformed_config_stops os :
  ((exists path, path ∈ consulted_paths os /\ files os !! path = Some None)
   <-> _load_config os = Raise ValueError)
  /\ ((exists path, path ∈ consulted_paths os /\ files os !! path = Some None) ->
      forall refresh_token mail_address password reads,
        construct utcnow os refresh_token mail_address password reads
        = Raise ValueError).
Proof.
  split; [apply load_config_raises_iff|].
  intros H rt m p reads. apply load_config_raises_iff in H.
  rewrite construct_closed_form, H. reflexivity.
Qed.

(** X13. When the constructor succeeds, and what it builds.  With mail
    address, password and refresh token each taken from the argument when it
    is given (an empty string included) and from the configuration
    otherwise, the constructor returns a client exactly when the
    configuration loads, mail address and password are both non-empty or the
    refresh token is, and the mail address is empty or contains '@'.  The
    client holds these three values, an empty id token that expires at once,
    and a refresh token expiry six days ahead when the token is non-empty. *)
Theorem construct_succeeds_iff os refresh_token mail_address password reads c :
  construct utcnow os refresh_token mail_address password reads = Ok c
  <-> exists config,
        _load_config os = Ok config
        /\ let mail := default (config !!! "mail_address"%string) mail_address in
           let pass := default (config !!! "password"%string) password in
           let tok := default (config !!! "refresh_token"%string) refresh_token in
           ((mail <> ""%string /\ pass <> ""%string) \/ tok <> ""%string)
           /\ (mail = ""%string \/ Strptime.contains_char "@" mail = true)
           /\ c = mkJSONClient mail pass tok
                    (if is_empty tok then utcnow reads else utcnow reads + SIX_DAYS)
                    "" (utcnow (S reads)).
Proof.
  rewrite construct_closed_form. destruct (_load_config os) as [config|e].
  2:{ split; [discriminate|]. intros (cfg & Hc & _). discriminate. }
  cbv zeta.
  set (mail := default (config !!! "mail_address"%string) mail_address).
  set (pass := default (config !!! "password"%string) password).
  set (tok := default (config !!! "refresh_token"%string) refresh_token).
  split.
  - intros H. exists config. split; [reflexivity|]. cbv zeta. fold mail pass tok.
    unfold has_at in H.
    destruct (is_empty mail) eqn:Em, (is_empty pass) eqn:Ep, (is_empty tok) eqn:Et,
      (Strptime.contains_char "@" mail) eqn:Ea; cbn in H; try discriminate;
      injection H as <-;
      rewrite ?is_empty_true, ?is_empty_false in *; auto 6.
  - intros (cfg & [= <-] & Hcred & Hat & ->). fold mail pass tok in Hcred, Hat |- *.
    unfold has_at.
    destruct (is_empty mail) eqn:Em, (is_empty pass) eqn:Ep, (is_empty tok) eqn:Et,
      (Strptime.contains_char "@" mail) eqn:Ea; cbn; try reflexivity; exfalso;
      rewrite ?is_empty_true, ?is_empty_false in *;
      intuition congruence.
Qed.

End ConstructFacts.

(** ** The range fetch: the executor, progress and the merged frame *)

Section RangeFetchMore.

Context {dataframe : Type}.
Variable fetch : string -> result dataframe.
Variable concat_sorted : list dataframe -> result dataframe.

Implicit Types p : @pool dataframe.

#[local] Abbreviation queued_for := (map (fun key : string => (key, @Queued dataframe))).

(** *** Progress *)

Lemma count_insert {A} (P : A -> bool) (l : list A) i old x :
  l !! i = Some old ->
  (List.length (List.filter P (<[i := x]> l)) + (if P old then 1 else 0)
   = List.length (List.filter P l) + (if P x then 1 else 0))%nat.
Proof.
  intros Hi. rewrite insert_take_drop by (eapply lookup_lt_Some; eauto).
  rewrite <- (take_drop_middle l i old Hi) at 3.
  rewrite !List.filter_app, !length_app. cbn [List.filter].
  destruct (P old), (P x); cbn [List.length]; lia.
Qed.

Lemma untaken_le (t : list nat) i (l : list nat) :
  (List.length (List.filter (fun x => negb (bool_decide (x ∈ i :: t))) l)
   <= List.length (List.filter (fun x => negb (bool_decide (x ∈ t))) l))%nat.
Proof.
  induction l as [|x l IH]; [reflexivity|]. cbn [List.filter].
  destruct (bool_decide (x ∈ t)) eqn:E1.
  - apply bool_decide_eq_true in E1.
    rewrite bool_decide_eq_true_2 by (apply elem_of_cons; auto). exact IH.
  - cbn [negb]. destruct (bool_decide (x ∈ i :: t)); cbn [negb List.length]; lia.
Qed.

Lemma untaken_lt (t : list nat) i (l : list nat) :
  i ∈ l -> i ∉ t ->
  (List.length (List.filter (fun x => negb (bool_decide (x ∈ i :: t))) l)
   < List.length (List.filter (fun x => negb (bool_decide (x ∈ t))) l))%nat.
Proof.
  induction l as [|x l IH]; intros Hin Hnt; [now apply elem_of_nil in Hin|].
  cbn [List.filter]. destruct (decide (x = i)) as [->|Hne].
  - rewrite bool_decide_eq_true_2 by (apply elem_of_cons; auto).
    rewrite bool_decide_eq_false_2 by exact Hnt. cbn [negb List.length].
    pose proof (untaken_le t i l). lia.
  - apply elem_of_cons in Hin as [->|Hin]; [congruence|].
    specialize (IH Hin Hnt).
    destruct (bool_decide (x ∈ t)) eqn:E1.
    + apply bool_decide_eq_true in E1.
      rewrite bool_decide_eq_true_2 by (apply elem_of_cons; auto). exact IH.
    + apply bool_decide_eq_false in E1.
      rewrite bool_decide_eq_false_2; [cbn [negb List.length]; lia|].
      intros [?|?]%elem_of_cons; congruence.
Qed.

(** Every event uses up some of the work left. *)
Lemma step_decreases ev p p' :
  pool_step fetch concat_sorted ev p = Some p' ->
  (work_left p' < work_left p)%nat.
Proof.
  unfold work_left, queued, running, untaken, main_rank.
  destruct ev as [i|i|i|]; cbn [pool_step].
  - destruct (futures p !! i) as [[key [| |r]]|] eqn:Hi; try discriminate.
    destruct (_ && _); [|discriminate]. intros [= <-]. cbn [futures taken main].
    pose proof (count_insert is_running (futures p) i _ (key, Running) Hi) as Hr.
    pose proof (count_insert is_queued (futures p) i _ (key, Running) Hi) as Hq.
    rewrite length_insert. cbn in Hr, Hq. lia.
  - destruct (futures p !! i) as [[key [| |r]]|] eqn:Hi; try discriminate.
    intros [= <-]. cbn [futures taken main].
    pose proof (count_insert is_running (futures p) i _ (key, Done (fetch key)) Hi) as Hr.
    pose proof (count_insert is_queued (futures p) i _ (key, Done (fetch key)) Hi) as Hq.
    rewrite length_insert. cbn in Hr, Hq. lia.
  - destruct (main p) as [buff|e|r]; try discriminate.
    destruct (bool_decide (i ∈ taken p)) eqn:Et; [discriminate|].
    apply bool_decide_eq_false in Et.
    destruct (futures p !! i) as [[key f]|] eqn:Hi; [|discriminate].
    assert (i ∈ seq 0 (List.length (futures p))) as Hin.
    { apply elem_of_seq. apply lookup_lt_Some in Hi. lia. }
    pose proof (untaken_lt (taken p) i _ Hin Et).
    destruct f as [| |[df|e]]; try discriminate; intros [= <-];
      cbn [futures taken main]; lia.
  - destruct (main p) as [buff|e|r]; try discriminate.
    + destruct (all_taken p); [|discriminate]. intros [= <-]. cbn [futures taken main]. lia.
    + destruct (forallb _ _); [|discriminate]. intros [= <-]. cbn [futures taken main]. lia.
Qed.

Lemma run_uses_work evs : forall p p',
  pool_run fetch concat_sorted evs p = Some p' ->
  (List.length evs + work_left p' <= work_left p)%nat.
Proof.
  induction evs as [|ev evs IH]; intros p p'; cbn [pool_run].
  - intros [= <-]. cbn. lia.
  - destruct (pool_step fetch concat_sorted ev p) as [p1|] eqn:E; [|discriminate].
    intros H. apply IH in H. apply step_decreases in E. cbn [List.length]. lia.
Qed.

Lemma work_left_submitted keys :
  work_left (submitted (dataframe:=dataframe) keys) = (3 * List.length keys + 2)%nat.
Proof.
  unfold work_left, queued, running, untaken, main_rank, submitted.
  cbn [futures taken main]. rewrite length_map.
  assert (List.length (List.filter is_queued
            (map (fun key => (key, @Queued dataframe)) keys)) = List.length keys) as ->.
  { induction keys as [|k keys IH]; cbn; [reflexivity|]. now rewrite IH. }
  assert (List.length (List.filter is_running
            (map (fun key => (key, @Queued dataframe)) keys)) = 0%nat) as ->.
  { induction keys as [|k keys IH]; cbn; [reflexivity|]. exact IH. }
  assert (forall l : list nat,
            List.length (List.filter (fun i => negb (bool_decide (i ∈ @nil nat))) l)
            = List.length l) as ->.
  { induction l as [|x l IH]; cbn [List.filter]; [reflexivity|].
    rewrite bool_decide_eq_false_2 by apply not_elem_of_nil. cbn. now rewrite IH. }
  rewrite length_seq. lia.
Qed.

(** X15. A range fetch over n dates is over after at most 3n + 2 events
    (each task is started and finished once, each future is taken once, the
    block is left once), whatever the interleaving. *)
Theorem range_fetch_bounded keys id_token evs p :
  pool_run fetch concat_sorted evs (get_price_range (Ok id_token) keys) = Some p ->
  (List.length evs <= 3 * List.length keys + 2)%nat.
Proof.
  cbn [get_price_range]. intros H. apply run_uses_work in H.
  rewrite work_left_submitted in H. lia.
Qed.

Lemma no_running_count (fs : list (string * @future dataframe)) :
  list_find (fun f => is_running f = true) fs = None ->
  List.length (List.filter is_running fs) = 0%nat.
Proof.
  intros H. apply list_find_None in H.
  induction fs as [|f fs IH]; [reflexivity|]. cbn [List.filter].
  inversion H as [|? ? Hf Hrest]; subst.
  destruct (is_running f); [congruence|]. now apply IH.
Qed.

Lemma worker_can_move p :
  forallb is_done (futures p) = false ->
  exists ev p', pool_step fetch concat_sorted ev p = Some p'.
Proof.
  intros Hnot.
  destruct (list_find (fun f => is_running f = true) (futures p)) as [[j f]|] eqn:Er.
  - apply list_find_Some in Er as (Hj & Hf & _).
    destruct f as [key [| |r]]; try discriminate.
    exists (WorkerFinish j). eexists. cbn [pool_step]. rewrite Hj. reflexivity.
  - destruct (list_find (fun f => is_queued f = true) (futures p)) as [[j f]|] eqn:Eq.
    + apply list_find_Some in Eq as (Hj & Hf & Hmin).
      destruct f as [key [| |r]]; try discriminate.
      exists (WorkerStart j). eexists. cbn [pool_step]. rewrite Hj.
      rewrite (no_running_count _ Er).
      assert (existsb is_queued (take j (futures p)) = false) as ->; [|reflexivity].
      destruct (existsb _ _) eqn:Ex; [|reflexivity]. exfalso.
      apply existsb_exists in Ex as (x & Hin & Hx).
      apply list_elem_of_In, list_elem_of_lookup in Hin as [a Ha].
      apply lookup_take_Some in Ha as [Ha Hlt].
      exact (Hmin _ _ Ha Hlt Hx).
    + exfalso. apply list_find_None in Er, Eq.
      assert (forallb is_done (futures p) = true); [|congruence].
      apply forallb_forall. intros x Hin. apply list_elem_of_In in Hin.
      rewrite Forall_forall in Er, Eq. specialize (Er _ Hin). specialize (Eq _ Hin).
      destruct x as [key [| |r]]; cbn in *; congruence.
Qed.

Lemma can_step p :
  (forall r, main p <> Ended r) ->
  exists ev p', pool_step fetch concat_sorted ev p = Some p'.
Proof.
  intros Hmain. destruct (main p) as [buff|e|r] eqn:Em.
  - (* a future that is done and not yet taken *)
    destruct (List.find (fun i => negb (bool_decide (i ∈ taken p))
                                  && match futures p !! i with
                                     | Some f => is_done f
                                     | None => false
                                     end)
                        (seq 0 (List.length (futures p)))) as [i|] eqn:Ef.
    + apply find_some in Ef as [_ Hi]. apply andb_prop in Hi as [Ht Hd].
      apply negb_true_iff in Ht.
      destruct (futures p !! i) as [[key [| |[df|e]]]|] eqn:Hi; try discriminate;
        exists (MainNext i); eexists; cbn [pool_step]; rewrite Em, Ht, Hi; reflexivity.
    + destruct (all_taken p) eqn:Ea.
      * exists MainExit. eexists. cbn [pool_step]. rewrite Em, Ea. reflexivity.
      * apply worker_can_move.
        destruct (forallb is_done (futures p)) eqn:Ed; [|reflexivity]. exfalso.
        unfold all_taken in Ea.
        assert (forallb (fun i => bool_decide (i ∈ taken p))
                        (seq 0 (List.length (futures p))) = true); [|congruence].
        apply forallb_forall. intros i Hin.
        pose proof (find_none _ _ Ef i Hin) as Hn. cbn beta in Hn.
        apply in_seq in Hin.
        destruct (futures p !! i) as [f|] eqn:Hi.
        2:{ apply lookup_ge_None in Hi. lia. }
        rewrite forallb_forall in Ed.
        rewrite (Ed f) in Hn
          by (apply list_elem_of_In; eapply list_elem_of_lookup_2; eauto).
        rewrite andb_true_r in Hn. now apply negb_false_iff in Hn.
  - destruct (forallb is_done (futures p)) eqn:Ed.
    + exists MainExit. eexists. cbn [pool_step]. rewrite Em, Ed. reflexivity.
    + now apply worker_can_move.
  - now destruct (Hmain r).
Qed.

(** X16. No deadlock.  From any state of a range fetch some run leads to
    the end of the call: the workers and the loop never wait for each other
    for ever, also after a task has failed. *)
Theorem range_fetch_completes p :
  exists evs p' r,
    pool_run fetch concat_sorted evs p = Some p' /\ main p' = Ended r.
Proof.
  remember (work_left p) as n eqn:Hn. revert p Hn.
  induction n as [n IH] using lt_wf_ind. intros p ->.
  destruct (main p) as [buff|e|r] eqn:Em.
  3:{ exists [], p, r. split; [reflexivity|exact Em]. }
  all: destruct (can_step p) as (ev & p1 & Hstep); [intros r; congruence|];
    destruct (IH (work_left p1) (step_decreases _ _ _ Hstep) p1 eq_refl)
      as (evs & p' & r & Hrun & Hend);
    exists (ev :: evs), p', r; cbn [pool_run]; rewrite Hstep; auto.
Qed.

(** *** What the loop collects *)

Lemma futures_ok_queued keys : futures_ok fetch keys (queued_for keys).
Proof.
  split; [apply length_map|].
  intros i key f. rewrite list_lookup_fmap.
  destruct (keys !! i) as [k|]; [|discriminate].
  cbn. intros [= <- <-]. split; [reflexivity|discriminate].
Qed.

Lemma futures_ok_insert keys (futs : list (string * @future dataframe)) i key f f' :
  futures_ok fetch keys futs ->
  futs !! i = Some (key, f) ->
  (forall r, f' = Done r -> r = fetch key) ->
  futures_ok fetch keys (<[i := (key, f')]> futs).
Proof.
  intros [Hl Hk] Hi Hf'. split; [now rewrite length_insert|].
  intros j k g Hj. destruct (decide (i = j)) as [<-|Hne].
  - rewrite list_lookup_insert_eq in Hj by (eapply lookup_lt_Some; eauto).
    injection Hj as <- <-. split; [exact (proj1 (Hk _ _ _ Hi))|exact Hf'].
  - rewrite list_lookup_insert_ne in Hj by exact Hne. eauto.
Qed.

Lemma futures_ok_step keys ev p p' :
  futures_ok fetch keys (futures p) ->
  pool_step fetch concat_sorted ev p = Some p' ->
  futures_ok fetch keys (futures p').
Proof.
  intros Hok. destruct ev as [i|i|i|]; cbn [pool_step].
  - destruct (futures p !! i) as [[key [| |r]]|] eqn:Hi; try discriminate.
    destruct (_ && _); [|discriminate]. intros [= <-]. cbn [futures].
    eapply futures_ok_insert; eauto. discriminate.
  - destruct (futures p !! i) as [[key [| |r]]|] eqn:Hi; try discriminate.
    intros [= <-]. cbn [futures].
    eapply futures_ok_insert; eauto. now intros r [= <-].
  - destruct (main p); try discriminate. destruct (bool_decide _); [discriminate|].
    destruct (futures p !! i) as [[key [| |[df|e]]]|]; try discriminate;
      now intros [= <-].
  - destruct (main p); try discriminate.
    + destruct (all_taken p); [|discriminate]. now intros [= <-].
    + destruct (forallb _ _); [|discriminate]. now intros [= <-].
Qed.

Lemma futures_ok_run keys evs : forall p p',
  futures_ok fetch keys (futures p) ->
  pool_run fetch concat_sorted evs p = Some p' ->
  futures_ok fetch keys (futures p').
Proof.
  induction evs as [|ev evs IH]; intros p p' Hok; cbn [pool_run].
  - now intros [= <-].
  - destruct (pool_step fetch concat_sorted ev p) as [p1|] eqn:E; [|discriminate].
    apply IH. eapply futures_ok_step; eauto.
Qed.

Lemma taken_all_is_seq (keys : list string) (t : list nat) (fetched : list dataframe) :
  NoDup t ->
  map (fun df => Some (Ok df)) fetched = map (fun i => fetch <$> keys !! i) (reverse t) ->
  (forall i, (i < List.length keys)%nat -> i ∈ t) ->
  map Ok fetched ≡ₚ map fetch keys.
Proof.
  intros Hnd Heq Hall.
  assert (Hbound : forall i, i ∈ t -> (i < List.length keys)%nat).
  { intros i Hi. apply elem_of_reverse in Hi.
    apply list_elem_of_lookup in Hi as [a Ha].
    assert (map (fun i => fetch <$> keys !! i) (reverse t) !! a
            = Some (fetch <$> keys !! i)) as Hl
      by (rewrite list_lookup_fmap, Ha; reflexivity).
    rewrite <- Heq, list_lookup_fmap in Hl.
    destruct (fetched !! a); [|discriminate]. cbn in Hl. injection Hl as Hl.
    destruct (keys !! i) eqn:Ek; [|discriminate].
    eapply lookup_lt_Some; eauto. }
  assert (Hperm : t ≡ₚ seq 0 (List.length keys)).
  { apply NoDup_Permutation; [exact Hnd|apply NoDup_seq|].
    intros x. rewrite elem_of_seq.
    split; [intros ?%Hbound; lia|intros [_ ?]; apply Hall; lia]. }
  assert (Hseq : map (fun i => fetch <$> keys !! i) (seq 0 (List.length keys))
                 = map Some (map fetch keys)).
  { apply list_eq. intros i. rewrite !list_lookup_fmap.
    destruct (keys !! i) as [k|] eqn:Ek.
    - rewrite lookup_seq_lt by (eapply lookup_lt_Some; eauto). cbn. now rewrite Ek.
    - rewrite lookup_seq_ge by (now apply lookup_ge_None). reflexivity. }
  assert (Hp : map (fun df => Some (Ok df)) fetched ≡ₚ map Some (map fetch keys)).
  { rewrite Heq, <- Hseq. apply (fmap_Permutation (fun i => fetch <$> keys !! i)).
    rewrite reverse_Permutation. exact Hperm. }
  apply (fmap_Permutation (from_option id (Raise KeyError))) in Hp.
  assert (Hl : forall l : list (result dataframe),
             from_option id (Raise KeyError) <$> map Some l = l).
  { induction l as [|x l IHl]; [reflexivity|]. cbn. f_equal. exact IHl. }
  rewrite Hl in Hp. rewrite <- Hp. clear.
  induction fetched as [|x l IHl]; [reflexivity|]. cbn. constructor. exact IHl.
Qed.

Lemma collect_inv_start buff0 keys :
  collect_inv fetch concat_sorted buff0 keys (mkpool (queued_for keys) [] (Collecting buff0)).
Proof.
  split; cbn; [constructor|]. exists []. now rewrite app_nil_r.
Qed.

Lemma collect_inv_step buff0 keys ev p p' :
  futures_ok fetch keys (futures p) ->
  collect_inv fetch concat_sorted buff0 keys p ->
  pool_step fetch concat_sorted ev p = Some p' ->
  collect_inv fetch concat_sorted buff0 keys p'.
Proof.
  intros [Hl Hk] [Hnd Hm]. destruct ev as [i|i|i|]; cbn [pool_step].
  - destruct (futures p !! i) as [[key [| |r]]|]; try discriminate.
    destruct (_ && _); [|discriminate]. intros [= <-]. now split.
  - destruct (futures p !! i) as [[key [| |r]]|]; try discriminate.
    intros [= <-]. now split.
  - destruct (main p) as [buff|e|r] eqn:Em; try discriminate.
    destruct (bool_decide (i ∈ taken p)) eqn:Et; [discriminate|].
    apply bool_decide_eq_false in Et.
    destruct (futures p !! i) as [[key [| |[df|e]]]|] eqn:Hi; try discriminate;
      intros [= <-]; destruct (Hk _ _ _ Hi) as [Hkey Hres];
      (split; cbn [taken main]; [apply NoDup_cons; auto|]).
    + destruct Hm as (fetched & -> & Hm). exists (fetched ++ [df]).
      split; [now rewrite app_assoc|].
      rewrite reverse_cons, map_app, map_app, Hm. cbn [map].
      rewrite Hkey. cbn. now rewrite <- (Hres _ eq_refl).
    + exists key. split; [eapply list_elem_of_lookup_2; eauto|].
      symmetry. now apply Hres.
  - destruct (main p) as [buff|e|r] eqn:Em; try discriminate.
    + destruct (all_taken p) eqn:Ea; [|discriminate]. intros [= <-].
      split; cbn [taken main]; [exact Hnd|]. right.
      destruct Hm as (fetched & -> & Hm). exists fetched.
      assert (Hall : forall i, (i < List.length keys)%nat -> i ∈ taken p).
      { intros i Hi. apply all_taken_spec; [exact Ea|]. now rewrite Hl. }
      split; [reflexivity|]. split; [|exact Hall].
      eapply taken_all_is_seq; eauto.
    + destruct (forallb _ _); [|discriminate]. intros [= <-].
      split; cbn [taken main]; [exact Hnd|]. left. destruct Hm as (key & ? & ?). eauto.
Qed.

Lemma collect_inv_run buff0 keys evs : forall p p',
  futures_ok fetch keys (futures p) ->
  collect_inv fetch concat_sorted buff0 keys p ->
  pool_run fetch concat_sorted evs p = Some p' ->
  collect_inv fetch concat_sorted buff0 keys p'.
Proof.
  induction evs as [|ev evs IH]; intros p p' Hp Hc; cbn [pool_run].
  - now intros [= <-].
  - destruct (pool_step fetch concat_sorted ev p) as [p1|] eqn:E; [|discriminate].
    apply IH.
    + eapply futures_ok_step; eauto.
    + eapply collect_inv_step; eauto.
Qed.

(** X17. When every date can be fetched, the call returns the merge of
    exactly one frame per date: no date is lost and none is taken twice,
    whatever the order in which the tasks complete. *)
Theorem range_fetch_success keys id_token evs p r :
  (forall key, key ∈ keys -> exists df, fetch key = Ok df) ->
  pool_run fetch concat_sorted evs (get_price_range (Ok id_token) keys) = Some p ->
  main p = Ended r ->
  exists buff, r = concat_sorted buff /\ map Ok buff ≡ₚ map fetch keys.
Proof.
  intros Hok Hrun Hend. cbn [get_price_range] in Hrun.
  pose proof (collect_inv_run [] keys evs
                (mkpool (queued_for keys) [] (Collecting [])) p
                (futures_ok_queued keys)
                (collect_inv_start [] keys) Hrun) as [_ Hm].
  rewrite Hend in Hm. destruct Hm as [(e & key & Hin & Hf) | (buff & -> & H & _)]; [|eauto].
  destruct (Hok key Hin) as [df Hdf]. congruence.
Qed.

End RangeFetchMore.

(** ** Dates: the dates of a range *)

Lemma consume_suspended_contents e step fuel : forall c ds en,
  consume fuel (Suspended c e step) = (ds, en) ->
  forall i d, ds !! i = Some d ->
    d = with_ordinal c (ordinal c + (Z.of_nat i + 1) * step)
    /\ 1 <= ordinal d <= Calendar._MAXORDINAL
    /\ datetime_le d e = Ok true.
Proof.
  induction fuel as [|fuel IH]; intros c ds en.
  - cbn [consume]. intros [= <- <-] i d Hi. discriminate.
  - rewrite consume_suspended. unfold timedelta_days, datetime_add_days.
    destruct (_ && _); [|intros [= <- <-] i d Hi; discriminate].
    destruct ((0 <? ordinal c + step) && (ordinal c + step <=? Calendar._MAXORDINAL))
      eqn:Er; [|intros [= <- <-] i d Hi; discriminate].
    destruct (datetime_le (with_ordinal c (ordinal c + step)) e) as [[|]|ex] eqn:Ele;
      try (intros [= <- <-] i d Hi; discriminate).
    destruct (consume fuel _) as [ds' en'] eqn:Erest.
    intros [= <- <-] [|i] d Hi.
    + cbn in Hi. injection Hi as <-. split; [f_equal; lia|]. split; [|exact Ele].
      apply andb_prop in Er as [E1 E2]. apply Z.ltb_lt in E1. apply Z.leb_le in E2.
      cbn [ordinal with_ordinal]. lia.
    + cbn in Hi. destruct (IH _ _ _ Erest i d Hi) as (-> & Ho & Hle).
      split; [|split; [exact Ho|exact Hle]].
      cbn [with_ordinal ordinal hour minute second microsecond tzinfo].
      f_equal. lia.
Qed.

(** X18. What a range holds.  The i-th date yielded is the start moved by
    i * step_days days: it has the time of day and the zone of the start,
    not those of the end, it is not after the end, and its day lies in the
    calendar.  This holds for every step, and for every prefix of the
    iteration. *)
Theorem date_range_contents start_date end_date step_days s e fuel ds en :
  normalize_date start_date = Ok s ->
  normalize_date end_date = Ok e ->
  1 <= ordinal s <= Calendar._MAXORDINAL ->
  consume fuel (date_range start_date end_date step_days) = (ds, en) ->
  forall i d, ds !! i = Some d ->
    d = with_ordinal s (ordinal s + Z.of_nat i * step_days)
    /\ 1 <= ordinal d <= Calendar._MAXORDINAL
    /\ datetime_le d e = Ok true.
Proof.
  intros Hs He Hos. destruct fuel as [|fuel].
  { cbn [consume]. intros [= <- <-] i d Hi. discriminate. }
  unfold date_range. rewrite (consume_created _ _ _ _ _ _ Hs He).
  destruct (datetime_le s e) as [[|]|ex] eqn:Ele;
    try (intros [= <- <-] i d Hi; discriminate).
  destruct (consume fuel _) as [ds' en'] eqn:Erest.
  intros [= <- <-] [|i] d Hi.
  - cbn in Hi. injection Hi as <-. rewrite Z.mul_0_l, Z.add_0_r, with_ordinal_same.
    auto.
  - cbn in Hi.
    destruct (consume_suspended_contents _ _ _ _ _ _ Erest i d Hi) as (-> & Ho & Hle).
    split; [f_equal; lia|auto].
Qed.

(** ** Data requests *)

Section EndpointFacts.

Variable utcnow : nat -> Z.
Variable upstream : nat -> request -> reply.
Variable service : nat -> get_request -> get_reply.

Lemma get_id_token_total refresh_token s :
  exists r s', get_id_token utcnow upstream refresh_token s = Some (r, s').
Proof.
  unfold get_id_token.
  set (fn := get_id_token_body utcnow upstream refresh_token).
  rewrite retrying_unfold.
  destruct (after_attempt_cases 1 (fst (fn s))) as [[r' ->] | [_ ->]]; [eauto|].
  rewrite retrying_unfold.
  match goal with |- context [fn ?x] => set (s1 := x) end.
  destruct (after_attempt_cases (1 + 1) (fst (fn s1))) as [[r' ->] | [_ ->]]; [eauto|].
  rewrite retrying_unfold.
  match goal with |- context [fn ?x] => set (s2 := x) end.
  change (1 + 1 + 1) with 3.
  destruct (after_third_attempt (fst (fn s2))) as [r' ->]. eauto.
Qed.

Lemma get_id_token_stored refresh_token s tok s' :
  get_id_token utcnow upstream refresh_token s = Some (Ok tok, s') ->
  _id_token (self s') = tok.
Proof.
  unfold get_id_token. intros H. apply retrying_last_attempt in H as [s0 H].
  apply get_id_token_body_ok in H as [(_ & -> & ->) | (_ & H & _)]; [reflexivity|exact H].
Qed.

(** X19. Every data request is authorised with the token the client
    holds.  [_get] always comes back.  Either [get_id_token] raised: the
    same exception comes out and no GET has been sent.  Or it returned a
    token: one GET has been sent to the URL, with the parameters given, a
    timeout of 30 seconds and the header "Authorization: Bearer <token>",
    the token being the one now stored in the client; and [_get] returns a
    response exactly when that GET was answered with a response whose status
    is not from 400 to 599, that response being the one returned. *)
Theorem get_is_authorized url params w :
  exists r w',
    _get utcnow upstream service url params w = Some (r, w')
    /\ ((exists e,
            get_id_token utcnow upstream None (client w) = Some (Raise e, client w')
            /\ r = Raise e /\ got w' = got w)
        \/ (exists tok,
               get_id_token utcnow upstream None (client w) = Some (Ok tok, client w')
               /\ _id_token (self (client w')) = tok
               /\ got w' = mkget url params (bearer tok) 30 :: got w
               /\ (forall text,
                      r = Ok text
                      <-> exists status_code,
                            service (List.length (got w))
                                    (mkget url params (bearer tok) 30)
                            = GetResponse status_code text
                            /\ ~ 400 <= status_code < 600))).
Proof.
  destruct (get_id_token_total None (client w)) as (r0 & s' & H).
  unfold _get, _base_headers. rewrite H. destruct r0 as [tok|e].
  - pose proof (get_id_token_stored _ _ _ _ H) as Hst.
    fold (bearer tok). cbn [got client].
    destruct (service _ _) as [st text|] eqn:Es.
    + destruct ((400 <=? st) && (st <? 600)) eqn:Eb;
        eexists _, _; (split; [reflexivity|]); right; exists tok;
        cbn [client got]; rewrite Es;
        (split; [reflexivity|]); (split; [exact Hst|]); (split; [reflexivity|]).
      * intros text'. split; [discriminate|].
        intros (st' & [= <- <-] & Hn). exfalso. apply Hn.
        apply andb_prop in Eb as [E1 E2].
        apply Z.leb_le in E1. apply Z.ltb_lt in E2. lia.
      * intros text'. split.
        -- intros [= <-]. exists st. split; [reflexivity|].
           intros [H1 H2]. apply Z.leb_le in H1. apply Z.ltb_lt in H2.
           rewrite H1, H2 in Eb. discriminate.
        -- intros (st' & [= <- <-] & _). reflexivity.
    + eexists _, _; (split; [reflexivity|]); right; exists tok; cbn [client got];
        rewrite Es.
      split; [reflexivity|]. split; [exact Hst|]. split; [reflexivity|].
      intros text'. split; [discriminate|].
      intros (st' & Hd & _). discriminate.
  - eexists _, _. split; [reflexivity|]. left. exists e. cbn [client got]. auto.
Qed.

(** X20. A data request made while the id token is valid sends one GET
    with the cached token in its header and nothing else: no POST, no sleep,
    the client as it was, one reading of the clock. *)
Theorem get_with_valid_token url params w :
  utcnow (clock_reads (client w)) < _id_token_expire (self (client w)) ->
  let req := mkget url params (bearer (_id_token (self (client w)))) 30 in
  exists r,
    _get utcnow upstream service url params w
    = Some (r, mkworld (tick (client w)) (req :: got w))
    /\ r = match service (List.length (got w)) req with
           | GetNoResponse => Raise ConnectionError
           | GetResponse status_code text =>
               if (400 <=? status_code) && (status_code <? 600)
               then Raise (HTTPError status_code) else Ok text
           end.
Proof.
  intros Hv req. unfold _get, _base_headers, get_id_token.
  rewrite retrying_unfold, get_id_token_body_valid by exact Hv.
  cbn [fst snd after_attempt got client]. fold (bearer (_id_token (self (client w)))).
  fold req. destruct (service _ _) as [st text|]; [destruct (_ && _)|]; eauto.
Qed.

(** X21. In [get_prices_daily_quotes], [date_yyyymmdd] takes precedence:
    when it is given, [from_yyyymmdd] and [to_yyyymmdd] are ignored, and the
    request carries "code", even when it is empty, and "date" and nothing
    else. *)
Theorem daily_quotes_date_wins code from_yyyymmdd to_yyyymmdd date_yyyymmdd w :
  date_yyyymmdd <> ""%string ->
  get_prices_daily_quotes utcnow upstream service
    code from_yyyymmdd to_yyyymmdd date_yyyymmdd w
  = raw_text (_get utcnow upstream service
                (String.append JQUANTS_API_BASE "/prices/daily_quotes")
                (Some [("code"%string, code); ("date"%string, date_yyyymmdd)]) w).
Proof.
  intros Hd. unfold get_prices_daily_quotes.
  apply is_empty_false in Hd. rewrite Hd. reflexivity.
Qed.

End EndpointFacts.

(** ** The range fetch of the statements and its cache *)

Lemma length_substring_0 n : forall s,
  String.length (String.substring 0 n s) = Nat.min n (String.length s).
Proof.
  induction n as [|n IH]; intros [|c s]; cbn; auto.
Qed.

Lemma list_of_append a b :
  list_ascii_of_string (String.append a b)
  = (list_ascii_of_string a ++ list_ascii_of_string b)%list.
Proof.
  induction a as [|c a IH]; [reflexivity|].
  rewrite StrptimeFacts.append_cons. cbn. now rewrite IH.
Qed.

Lemma length_list_of s :
  List.length (list_ascii_of_string s) = String.length s.
Proof. induction s as [|c s IH]; cbn; auto. Qed.

(** Different dates have different cache files. *)
Lemma cache_file_path_inj cache_dir k1 k2 :
  cache_file_path cache_dir k1 = cache_file_path cache_dir k2 -> k1 = k2.
Proof.
  unfold cache_file_path. intros H.
  apply (f_equal list_ascii_of_string) in H.
  rewrite !list_of_append in H.
  apply app_inv_head in H.
  assert (Hlen : String.length k1 = String.length k2).
  { apply (f_equal (@List.length _)) in H.
    rewrite !length_app, !length_list_of, !length_substring_0 in H.
    remember (Nat.min 4 (String.length k1)) as m1.
    remember (Nat.min 4 (String.length k2)) as m2.
    cbn in H. lia. }
  rewrite !app_assoc in H. apply app_inv_tail in H.
  apply app_inj_2 in H as [_ H]; [|now rewrite !length_list_of].
  rewrite <- (string_of_list_ascii_of_string k1), <- (string_of_list_ascii_of_string k2).
  now rewrite H.
Qed.

Lemma misses_spec cache_dir fs keys key :
  key ∈ misses cache_dir fs keys
  <-> key ∈ keys /\ cache_lookup cache_dir fs key = None.
Proof.
  unfold misses. rewrite list_elem_of_In, filter_In, <- list_elem_of_In.
  unfold is_cached. destruct (cache_lookup cache_dir fs key); cbn; intuition congruence.
Qed.

Section StatementsRangeFacts.

Context {dataframe : Type}.
Variable fetch : string -> result dataframe.
Variable concat_sorted : list dataframe -> result dataframe.
Variable read_csv : string -> result dataframe.
Variable to_csv : dataframe -> string.

Implicit Types p : @pool dataframe.
Implicit Types c : @statements_pool dataframe.

#[local] Abbreviation queued_for := (map (fun key : string => (key, @Queued dataframe))).
#[local] Abbreviation run := (statements_run fetch concat_sorted to_csv).
#[local] Abbreviation call := (get_statements_range read_csv).

(** *** The first loop *)

Lemma first_loop_spec cache_dir fs keys : forall buff futs m futs',
  first_loop read_csv cache_dir fs keys buff futs = (m, futs') ->
  match m with
  | Collecting buff' =>
      futs' = futs ++ queued_for (misses cache_dir fs keys)
      /\ exists cached, buff' = buff ++ cached /\ read_all read_csv cache_dir fs keys cached
  | Leaving e =>
      exists before key after content cached,
        keys = before ++ key :: after
        /\ read_all read_csv cache_dir fs before cached
        /\ cache_lookup cache_dir fs key = Some content
        /\ read_csv content = Raise e
        /\ futs' = futs ++ queued_for (misses cache_dir fs before)
  | Ended _ => False
  end.
Proof.
  unfold read_all, hits, misses.
  induction keys as [|key keys IH]; intros buff futs m futs'; cbn [first_loop].
  - intros [= <- <-]. split; [now rewrite app_nil_r|].
    exists []. split; [now rewrite app_nil_r|constructor].
  - cbn [List.filter].
    destruct (cache_lookup cache_dir fs key) as [content|] eqn:Ec.
    + assert (Hc : is_cached cache_dir fs key = true)
        by (unfold is_cached; now rewrite Ec).
      rewrite Hc. cbn [negb].
      destruct (read_csv content) as [df|e] eqn:Er.
      * intros H. apply IH in H. destruct m as [buff'|e|r]; [| |exact H].
        -- destruct H as (-> & cached & -> & Hall). split; [reflexivity|].
           exists (df :: cached). split; [now rewrite <- app_assoc|].
           constructor; eauto.
        -- destruct H as (before & k & after & ct & cached & -> & Hall & Hk & Hr & ->).
           exists (key :: before), k, after, ct, (df :: cached).
           cbn [List.filter]. rewrite Hc. cbn [negb].
           repeat split; eauto.
      * intros [= <- <-]. exists [], key, keys, content, [].
        cbn. rewrite app_nil_r. repeat split; auto.
    + assert (Hc : is_cached cache_dir fs key = false)
        by (unfold is_cached; now rewrite Ec).
      rewrite Hc. cbn [negb]. intros H. apply IH in H.
      destruct m as [buff'|e|r]; [| |exact H].
      * destruct H as (-> & cached & -> & Hall). split; [now rewrite <- app_assoc|].
        eauto.
      * destruct H as (before & k & after & ct & cached & -> & Hall & Hk & Hr & ->).
        exists (key :: before), k, after, ct, cached.
        cbn [List.filter]. rewrite Hc. cbn [negb map].
        rewrite <- app_assoc. repeat split; auto.
Qed.


Lemma first_loop_all_cached cache_dir fs keys : forall buff futs,
  (forall key, key ∈ keys -> is_Some (cache_lookup cache_dir fs key)) ->
  snd (first_loop read_csv cache_dir fs keys buff futs) = futs.
Proof.
  induction keys as [|key keys IH]; intros buff futs Hall; cbn [first_loop]; [reflexivity|].
  destruct (Hall key) as [content ->]; [left|].
  destruct (read_csv content); [|reflexivity].
  apply IH. intros k Hk. apply Hall. now right.
Qed.

(** *** The files along a run *)

Lemma taken_step ev p p' i :
  pool_step fetch concat_sorted ev p = Some p' ->
  i ∈ taken p' ->
  i ∈ taken p \/ ev = MainNext i.
Proof.
  intros Hstep. destruct ev as [j|j|j|]; cbn [pool_step] in Hstep.
  - destruct (futures p !! j) as [[k [| |x]]|]; try discriminate.
    destruct (_ && _); [|discriminate]. injection Hstep as <-. auto.
  - destruct (futures p !! j) as [[k [| |x]]|]; try discriminate.
    injection Hstep as <-. auto.
  - destruct (main p); try discriminate. destruct (bool_decide _); [discriminate|].
    destruct (futures p !! j) as [[k [| |[df|e]]]|]; try discriminate;
      injection Hstep as <-; cbn [taken]; intros [->|H]%elem_of_cons; auto.
  - destruct (main p); try discriminate.
    + destruct (all_taken p); [|discriminate]. injection Hstep as <-. auto.
    + destruct (forallb _ _); [|discriminate]. injection Hstep as <-. auto.
Qed.

Lemma files_inv_step cache_dir fs keys ev c c' :
  (forall key, key ∈ keys -> cache_lookup cache_dir fs key = None) ->
  futures_ok fetch keys (futures (run_pool c)) ->
  files_inv fetch to_csv cache_dir fs keys c ->
  statements_step fetch concat_sorted to_csv cache_dir ev c = Some c' ->
  files_inv fetch to_csv cache_dir fs keys c'.
Proof.
  intros Hmiss [Hl Hk] [Hoff Hold Hnew Htaken]. unfold statements_step.
  destruct (pool_step fetch concat_sorted ev (run_pool c)) as [p'|] eqn:Hstep;
    [|discriminate].
  intros [= <-].
  assert (Hsame : forall files,
             files = run_files c ->
             (forall i, i ∈ taken p' -> i ∈ taken (run_pool c)) ->
             files_inv fetch to_csv cache_dir fs keys (mkstatements p' files)).
  { intros files -> Ht. split; cbn [run_pool run_files]; eauto. }
  destruct ev as [j|j|j|];
    try (apply Hsame; [reflexivity|];
         intros i Hi; destruct (taken_step _ _ _ _ Hstep Hi) as [H|H];
         [exact H|discriminate]).
  destruct (futures (run_pool c) !! j) as [[key f]|] eqn:Hj.
  2:{ cbn [pool_step] in Hstep. rewrite Hj in Hstep.
      destruct (main (run_pool c)); try discriminate.
      destruct (bool_decide _); discriminate. }
  destruct (Hk _ _ _ Hj) as [Hkey Hres].
  assert (Hbad : forall i k df,
             i ∈ taken p' -> keys !! i = Some k -> fetch k = Ok df ->
             i ∈ taken (run_pool c) \/ (k = key /\ f = Done (Ok df))).
  { intros i k df Hi Hik Hf. destruct (taken_step _ _ _ _ Hstep Hi) as [H|H]; [auto|].
    injection H as <-. right. rewrite Hkey in Hik. injection Hik as <-.
    split; [reflexivity|].
    cbn [pool_step] in Hstep. rewrite Hj in Hstep.
    destruct (main (run_pool c)); try discriminate.
    destruct (bool_decide _); [discriminate|].
    destruct f as [| |r]; try discriminate.
    rewrite (Hres r eq_refl), Hf. reflexivity. }
  destruct f as [| |[df|e]].
  1,2,4: (split; cbn [run_pool run_files]; eauto;
          intros i k d He Hi Hik Hf; destruct (Hbad _ _ _ Hi Hik Hf) as [H|[_ H]];
          [eauto|discriminate]).
  assert (Hd : is_empty cache_dir = true \/ is_empty cache_dir = false)
    by (destruct (is_empty cache_dir); auto).
  destruct Hd as [Edir|Edir]; rewrite Edir; cbn [negb].
  { split; cbn [run_pool run_files]; [auto|auto|auto|intros; congruence]. }
  assert (Hfree : fs !! cache_file_path cache_dir key = None).
  { specialize (Hmiss key (list_elem_of_lookup_2 _ _ _ Hkey)).
    unfold cache_lookup in Hmiss. now rewrite Edir in Hmiss. }
  split; cbn [run_pool run_files].
  - intros; congruence.
  - intros path content Hp. rewrite lookup_insert_ne; [auto|].
    intros <-. congruence.
  - intros path content. destruct (decide (cache_file_path cache_dir key = path)) as [<-|Hne].
    + rewrite lookup_insert_eq. intros [= <-]. right. split; [exact Edir|].
      exists key, df. split; [eapply list_elem_of_lookup_2; eauto|].
      split; [symmetry; now apply Hres|auto].
    + rewrite lookup_insert_ne by exact Hne. auto.
  - intros i k d _ Hi Hik Hf. destruct (Hbad _ _ _ Hi Hik Hf) as [H|[-> _]].
    + destruct (decide (cache_file_path cache_dir key = cache_file_path cache_dir k))
        as [<-|Hne].
      * rewrite lookup_insert_eq. eauto.
      * rewrite lookup_insert_ne by exact Hne. eauto.
    + rewrite lookup_insert_eq. eauto.
Qed.

Lemma statements_step_pool cache_dir ev c c' :
  statements_step fetch concat_sorted to_csv cache_dir ev c = Some c' ->
  pool_step fetch concat_sorted ev (run_pool c) = Some (run_pool c').
Proof.
  unfold statements_step.
  destruct (pool_step fetch concat_sorted ev (run_pool c)); [|discriminate].
  now intros [= <-].
Qed.

Lemma statements_run_pool cache_dir evs : forall c c',
  run cache_dir evs c = Some c' ->
  pool_run fetch concat_sorted evs (run_pool c) = Some (run_pool c').
Proof.
  induction evs as [|ev evs IH]; intros c c'; cbn [statements_run pool_run].
  - now intros [= <-].
  - destruct (statements_step _ _ _ cache_dir ev c) as [c1|] eqn:E; [|discriminate].
    rewrite (statements_step_pool _ _ _ _ E). apply IH.
Qed.

Lemma files_inv_run cache_dir fs keys evs : forall c c',
  (forall key, key ∈ keys -> cache_lookup cache_dir fs key = None) ->
  futures_ok fetch keys (futures (run_pool c)) ->
  files_inv fetch to_csv cache_dir fs keys c ->
  run cache_dir evs c = Some c' ->
  files_inv fetch to_csv cache_dir fs keys c'.
Proof.
  induction evs as [|ev evs IH]; intros c c' Hmiss Hok Hinv; cbn [statements_run].
  - now intros [= <-].
  - destruct (statements_step _ _ _ cache_dir ev c) as [c1|] eqn:E; [|discriminate].
    apply IH; [exact Hmiss| |].
    + eapply futures_ok_step; [exact Hok|]. eapply statements_step_pool; eauto.
    + eapply files_inv_step; eauto.
Qed.

Lemma files_inv_start cache_dir fs keys p :
  taken p = [] ->
  files_inv fetch to_csv cache_dir fs keys (mkstatements p fs).
Proof.
  intros Ht. split; cbn [run_pool run_files]; auto.
  intros i key df _ Hi. rewrite Ht in Hi. now apply elem_of_nil in Hi.
Qed.

Lemma first_loop_ok cache_dir fs keys : forall cached buff futs,
  read_all read_csv cache_dir fs keys cached ->
  first_loop read_csv cache_dir fs keys buff futs
  = (Collecting (buff ++ cached), futs ++ queued_for (misses cache_dir fs keys)).
Proof.
  unfold read_all, hits, misses.
  induction keys as [|key keys IH]; intros cached buff futs; cbn [first_loop List.filter].
  - intros H. apply Forall2_nil_inv_l in H as ->. now rewrite !app_nil_r.
  - destruct (cache_lookup cache_dir fs key) as [content|] eqn:Ec.
    + assert (Hc : is_cached cache_dir fs key = true)
        by (unfold is_cached; now rewrite Ec).
      rewrite Hc. cbn [negb].
      intros H. apply Forall2_cons_inv_l in H as (df & rest & (ct & Hct & Hr) & Hall & ->).
      assert (ct = content) as -> by congruence. rewrite Hr.
      rewrite (IH rest) by exact Hall. now rewrite <- app_assoc.
    + assert (Hc : is_cached cache_dir fs key = false)
        by (unfold is_cached; now rewrite Ec).
      rewrite Hc. cbn [negb].
      intros H. rewrite (IH cached) by exact H. cbn [map]. now rewrite <- app_assoc.
Qed.

(** The initial state of the call, whatever the first loop met. *)
Lemma call_start id_token cache_dir fs keys :
  exists sub m,
    call (Ok id_token) cache_dir fs keys = mkstatements (mkpool (queued_for sub) [] m) fs
    /\ (forall key, key ∈ sub -> key ∈ keys /\ cache_lookup cache_dir fs key = None).
Proof.
  unfold get_statements_range.
  destruct (first_loop read_csv cache_dir fs keys [] []) as [m futs] eqn:E.
  pose proof (first_loop_spec cache_dir fs keys _ _ _ _ E) as H.
  destruct m as [buff|e|r]; [| |contradiction].
  - destruct H as (-> & _). exists (misses cache_dir fs keys), (Collecting buff).
    split; [reflexivity|]. intros key. apply misses_spec.
  - destruct H as (before & k & after & ct & cached & -> & _ & _ & _ & ->).
    exists (misses cache_dir fs before), (Leaving e).
    split; [reflexivity|]. intros key Hk. apply misses_spec in Hk as [Hin Hnone].
    split; [|exact Hnone]. apply elem_of_app. now left.
Qed.

(** X22. The cache is only ever extended, and only by frames that were
    fetched.  Whatever the run and its outcome: a file that was there keeps
    its content, a file that is new is the cache file of a date of the range
    and holds the frame fetched for it, and with [cache_dir] empty no file
    is written at all. *)
Theorem statements_range_keeps_cache preload cache_dir fs keys evs c :
  run cache_dir evs (call preload cache_dir fs keys) = Some c ->
  (forall path content,
      fs !! path = Some content -> run_files c !! path = Some content)
  /\ (forall path content,
         run_files c !! path = Some content ->
         fs !! path = Some content
         \/ exists key df,
              key ∈ keys /\ fetch key = Ok df
              /\ path = cache_file_path cache_dir key /\ content = to_csv df)
  /\ (cache_dir = ""%string -> run_files c = fs).
Proof.
  intros Hrun.
  assert (Hinv : exists sub,
             (forall key, key ∈ sub -> key ∈ keys)
             /\ files_inv fetch to_csv cache_dir fs sub c).
  { destruct preload as [id_token|e].
    - destruct (call_start id_token cache_dir fs keys) as (sub & m & Hc & Hsub).
      rewrite Hc in Hrun. exists sub. split; [intros k Hk; now apply Hsub|].
      eapply files_inv_run; [| | |exact Hrun].
      + intros k Hk. now apply Hsub.
      + apply futures_ok_queued.
      + now apply files_inv_start.
    - exists []. split; [intros k Hk; now apply elem_of_nil in Hk|].
      eapply files_inv_run; [| | |exact Hrun].
      + intros k Hk. now apply elem_of_nil in Hk.
      + apply (futures_ok_queued fetch []).
      + now apply files_inv_start. }
  destruct Hinv as (sub & Hsub & [Hoff Hold Hnew _]).
  split; [exact Hold|]. split.
  - intros path content Hp. destruct (Hnew _ _ Hp) as [H|(_ & key & df & Hk & H)]; [auto|].
    right. exists key, df. split; [now apply Hsub|exact H].
  - intros ->. now apply Hoff.
Qed.

(** X23. Each date is served once, from the cache when its file is there
    and by a fetch otherwise.  If every cache file found reads and every
    other date can be fetched, the call returns the merge of the cached
    frames, in the order of the dates, followed by one fetched frame for
    each remaining date; afterwards, with a cache directory, each of these
    dates has its cache file, holding the frame fetched for it, and a second
    call over the same range submits no task at all. *)
Theorem statements_range_result cache_dir fs keys id_token cached evs c r :
  read_all read_csv cache_dir fs keys cached ->
  (forall key, key ∈ misses cache_dir fs keys -> exists df, fetch key = Ok df) ->
  run cache_dir evs (call (Ok id_token) cache_dir fs keys) = Some c ->
  main (run_pool c) = Ended r ->
  (exists fetched,
      r = concat_sorted (cached ++ fetched)
      /\ map Ok fetched ≡ₚ map fetch (misses cache_dir fs keys))
  /\ (cache_dir <> ""%string ->
      (forall key df,
          key ∈ misses cache_dir fs keys -> fetch key = Ok df ->
          run_files c !! cache_file_path cache_dir key = Some (to_csv df))
      /\ forall id_token',
           futures (run_pool (call (Ok id_token') cache_dir (run_files c) keys)) = []).
Proof.
  intros Hread Hfetch Hrun Hend.
  unfold get_statements_range in Hrun.
  rewrite (first_loop_ok _ _ _ _ _ _ Hread) in Hrun. cbn [app] in Hrun.
  set (sub := misses cache_dir fs keys) in *.
  pose proof (statements_run_pool _ _ _ _ Hrun) as Hpool. cbn [run_pool] in Hpool.
  pose proof (collect_inv_run fetch concat_sorted cached sub evs
                (mkpool (queued_for sub) [] (Collecting cached)) _
                (futures_ok_queued fetch sub)
                (collect_inv_start fetch concat_sorted cached sub) Hpool) as [_ Hm].
  rewrite Hend in Hm.
  destruct Hm as [(e & key & Hin & Hf) | (fetched & -> & Hperm & Hall)].
  { destruct (Hfetch key Hin) as [df Hdf]. congruence. }
  split; [eauto|]. intros Hdir. apply is_empty_false in Hdir.
  assert (Hmiss : forall key, key ∈ sub -> cache_lookup cache_dir fs key = None)
    by (intros key Hk; now apply misses_spec in Hk).
  pose proof (files_inv_run cache_dir fs sub evs
                (mkstatements (mkpool (queued_for sub) [] (Collecting cached)) fs) _
                Hmiss (futures_ok_queued fetch sub)
                (files_inv_start cache_dir fs sub
                   (mkpool (queued_for sub) [] (Collecting cached)) eq_refl) Hrun)
    as [_ Hold Hnew Htaken].
  assert (Hfile : forall key df,
             key ∈ sub -> fetch key = Ok df ->
             run_files c !! cache_file_path cache_dir key = Some (to_csv df)).
  { intros key df Hin Hf.
    apply list_elem_of_lookup in Hin as [i Hi].
    destruct (Htaken i key df Hdir) as [content Hc]; [|exact Hi|exact Hf|].
    { apply Hall. eapply lookup_lt_Some; eauto. }
    rewrite Hc. destruct (Hnew _ _ Hc) as [Hfs | (_ & k & d & Hk & Hd & Hp & ->)].
    - specialize (Hmiss key (list_elem_of_lookup_2 _ _ _ Hi)).
      unfold cache_lookup in Hmiss. rewrite Hdir in Hmiss. cbn in Hmiss. congruence.
    - apply cache_file_path_inj in Hp as <-. congruence. }
  split; [exact Hfile|].
  intros id_token'. unfold get_statements_range.
  destruct (first_loop read_csv cache_dir (run_files c) keys [] []) as [m futs] eqn:E.
  cbn [run_pool futures].
  change futs with (snd (m, futs)). rewrite <- E.
  apply first_loop_all_cached. intros key Hin.
  unfold cache_lookup. rewrite Hdir. cbn [negb].
  destruct (cache_lookup cache_dir fs key) as [content|] eqn:Ec.
  - unfold cache_lookup in Ec. rewrite Hdir in Ec. cbn in Ec.
    rewrite (Hold _ _ Ec). eauto.
  - assert (Hs : key ∈ sub) by (apply misses_spec; auto).
    destruct (Hfetch key Hs) as [df Hdf]. rewrite (Hfile key df Hs Hdf). eauto.
Qed.

(** *** A cache file that does not read *)

Lemma leaving_step ev p p' e :
  main p = Leaving e ->
  pool_step fetch concat_sorted ev p = Some p' ->
  taken p' = taken p
  /\ (main p' = Leaving e
      \/ main p' = Ended (Raise e) /\ forallb is_done (futures p') = true).
Proof.
  intros Hm. destruct ev as [i|i|i|]; cbn [pool_step]; rewrite ?Hm.
  - destruct (futures p !! i) as [[key [| |r]]|]; try discriminate.
    destruct (_ && _); [|discriminate]. intros [= <-]. auto.
  - destruct (futures p !! i) as [[key [| |r]]|]; try discriminate.
    intros [= <-]. auto.
  - discriminate.
  - destruct (forallb _ _) eqn:Ea; [|discriminate]. intros [= <-]. auto.
Qed.

Lemma first_loop_bad cache_dir fs key after content e before :
  cache_lookup cache_dir fs key = Some content ->
  read_csv content = Raise e ->
  forall cached buff futs,
    read_all read_csv cache_dir fs before cached ->
    first_loop read_csv cache_dir fs (before ++ key :: after) buff futs
    = (Leaving e, futs ++ queued_for (misses cache_dir fs before)).
Proof.
  intros Hc Hr. unfold read_all, hits, misses.
  induction before as [|k before IH]; intros cached buff futs;
    cbn [first_loop List.filter app].
  - intros _. rewrite Hc, Hr. now rewrite app_nil_r.
  - destruct (cache_lookup cache_dir fs k) as [ct|] eqn:Ec.
    + assert (Hk : is_cached cache_dir fs k = true)
        by (unfold is_cached; now rewrite Ec).
      rewrite Hk. cbn [negb].
      intros H. apply Forall2_cons_inv_l in H as (df & rest & (ct' & Hct & Hd) & Hall & ->).
      assert (ct' = ct) as -> by congruence. rewrite Hd.
      now rewrite (IH rest) by exact Hall.
    + assert (Hk : is_cached cache_dir fs k = false)
        by (unfold is_cached; now rewrite Ec).
      rewrite Hk. cbn [negb].
      intros H. rewrite (IH cached) by exact H. cbn [map]. now rewrite <- app_assoc.
Qed.

Lemma all_done_futures keys (futs : list (string * @future dataframe)) :
  futures_ok fetch keys futs ->
  forallb is_done futs = true ->
  futs = map (fun key => (key, Done (fetch key))) keys.
Proof.
  intros [Hl Hk] Hall. apply list_eq. intros i.
  rewrite list_lookup_fmap.
  destruct (futs !! i) as [[key f]|] eqn:Hi.
  - destruct (Hk _ _ _ Hi) as [Hkey Hr]. rewrite Hkey. cbn.
    rewrite forallb_forall in Hall.
    assert (In (key, f) futs) as Hin.
    { apply list_elem_of_In. eapply list_elem_of_lookup_2. exact Hi. }
    specialize (Hall _ Hin). unfold is_done in Hall. cbn in Hall.
    destruct f as [| |r]; try discriminate. now rewrite (Hr r eq_refl).
  - apply lookup_ge_None in Hi. rewrite Hl in Hi. apply lookup_ge_None in Hi.
    now rewrite Hi.
Qed.

Lemma unwinding_step cache_dir e fs ev c c' :
  unwinding e fs c ->
  statements_step fetch concat_sorted to_csv cache_dir ev c = Some c' ->
  unwinding e fs c'.
Proof.
  intros [Hf Hm]. unfold statements_step.
  destruct (pool_step fetch concat_sorted ev (run_pool c)) as [p'|] eqn:Hstep;
    [|discriminate].
  intros [= <-]. unfold unwinding. cbn [run_pool run_files].
  destruct ev as [i|i|i|]; cbn [pool_step] in Hstep.
  - destruct (futures (run_pool c) !! i) as [[key [| |r]]|] eqn:Hi; try discriminate.
    destruct (_ && _); [|discriminate]. injection Hstep as <-. cbn [main futures].
    split; [exact Hf|]. destruct Hm as [Hm|[Hm Hall]]; [auto|].
    rewrite (not_all_done _ _ _ _ Hi) in Hall; discriminate.
  - destruct (futures (run_pool c) !! i) as [[key [| |r]]|] eqn:Hi; try discriminate.
    injection Hstep as <-. cbn [main futures].
    split; [exact Hf|]. destruct Hm as [Hm|[Hm Hall]]; [auto|].
    rewrite (not_all_done _ _ _ _ Hi) in Hall; discriminate.
  - destruct Hm as [Hm|[Hm _]]; rewrite Hm in Hstep; discriminate.
  - destruct Hm as [Hm|[Hm _]]; rewrite Hm in Hstep; [|discriminate].
    destruct (forallb _ _) eqn:Ea; [|discriminate]. injection Hstep as <-.
    cbn [main futures]. auto.
Qed.

Lemma unwinding_run cache_dir e fs evs : forall c c',
  unwinding e fs c ->
  run cache_dir evs c = Some c' ->
  unwinding e fs c'.
Proof.
  induction evs as [|ev evs IH]; intros c c' Hu; cbn [statements_run].
  - now intros [= <-].
  - destruct (statements_step _ _ _ cache_dir ev c) as [c1|] eqn:E; [|discriminate].
    apply IH. eapply unwinding_step; eauto.
Qed.

(** X24. A cache file that cannot be read ends the call.  The exception
    of [read_csv] comes out, the dates after that one are neither read nor
    submitted, the tasks submitted for the dates before it have all run to
    their end by the time the exception reaches the caller, no result is
    taken and nothing is written to the cache. *)
Theorem statements_range_bad_cache_file
    cache_dir fs before key after content e cached id_token evs c r :
  read_all read_csv cache_dir fs before cached ->
  cache_lookup cache_dir fs key = Some content ->
  read_csv content = Raise e ->
  run cache_dir evs (call (Ok id_token) cache_dir fs (before ++ key :: after)) = Some c ->
  main (run_pool c) = Ended r ->
  r = Raise e
  /\ run_files c = fs
  /\ taken (run_pool c) = []
  /\ futures (run_pool c)
     = map (fun k => (k, Done (fetch k))) (misses cache_dir fs before).
Proof.
  intros Hread Hc Hr Hrun Hend. unfold get_statements_range in Hrun.
  rewrite (first_loop_bad _ _ _ _ _ _ _ Hc Hr _ _ _ Hread) in Hrun. cbn [app] in Hrun.
  set (sub := misses cache_dir fs before) in *.
  set (c0 := mkstatements (mkpool (queued_for sub) [] (Leaving e)) fs) in *.
  assert (Hu0 : unwinding e fs c0) by (split; cbn; auto).
  destruct (unwinding_run cache_dir e fs evs c0 c Hu0 Hrun) as [Hf Hm].
  pose proof (statements_run_pool _ _ _ _ Hrun) as Hpool.
  pose proof (futures_ok_run fetch concat_sorted sub evs _ _
                (futures_ok_queued fetch sub : futures_ok fetch sub (futures (run_pool c0)))
                Hpool) as Hok.
  destruct Hm as [Hm|[Hm Hall]]; [congruence|].
  split; [congruence|]. split; [exact Hf|]. split.
  - clear -Hpool. revert Hpool. generalize (run_pool c).
    assert (H0 : taken (run_pool c0) = [] /\ forall b, main (run_pool c0) <> Collecting b)
      by (split; [reflexivity|discriminate]).
    revert H0. generalize (run_pool c0). clear.
    induction evs as [|ev evs IH]; intros p [Ht Hn] p'; cbn [pool_run].
    + now intros [= <-].
    + destruct (pool_step fetch concat_sorted ev p) as [p1|] eqn:E; [|discriminate].
      apply IH. destruct ev as [i|i|i|]; cbn [pool_step] in E.
      * destruct (futures p !! i) as [[key [| |r]]|]; try discriminate.
        destruct (_ && _); [|discriminate]. injection E as <-. auto.
      * destruct (futures p !! i) as [[key [| |r]]|]; try discriminate.
        injection E as <-. auto.
      * destruct (main p) as [b| |]; try discriminate. now destruct (Hn b).
      * destruct (main p) as [b| |]; try discriminate; [now destruct (Hn b)|].
        destruct (forallb _ _); [|discriminate]. injection E as <-.
        split; [exact Ht|discriminate].
  - now apply all_done_futures.
Qed.


End StatementsRangeFacts.

(** ** The further properties on concrete runs *)

Lemma get_refresh_token_validation_witness :
  get_refresh_token frozen_clock accepting_service None None (fresh spent_client)
  = (Raise ValueError, tick (fresh spent_client)).
Proof.
  apply (get_refresh_token_validation frozen_clock accepting_service None None
           (fresh spent_client)).
  - vm_compute. discriminate.
  - intros [H _]. now apply H.
Defined.

Lemma get_refresh_token_login_witness :
  exists s',
    get_refresh_token frozen_clock accepting_service None (Some "other"%string)
                      (fresh mail_client)
    = (Ok "fresh"%string, s')
    /\ _password (self s') = "secret"%string
    /\ posted s' = [login_request "user@example.com" "other"].
Proof.
  destruct (get_refresh_token_login frozen_clock accepting_service
              None (Some "other"%string) (fresh mail_client) 200
              {[ "refreshToken"%string := "fresh"%string ]} "fresh")
    as (s' & Hrun & _ & _ & _ & Hp & _ & _ & Hposted & _).
  - vm_compute. discriminate.
  - repeat split; discriminate.
  - reflexivity.
  - lia.
  - reflexivity.
  - exists s'. repeat split; assumption.
Defined.

Lemma get_refresh_token_failure_keeps_client_witness :
  self (snd (get_refresh_token frozen_clock silent_service None None (fresh mail_client)))
  = mail_client.
Proof.
  apply (get_refresh_token_failure_keeps_client frozen_clock silent_service None None
           (fresh mail_client) ConnectionError).
  vm_compute. reflexivity.
Defined.

Lemma get_refresh_token_twice_witness :
  exists s1,
    get_refresh_token ticking_clock accepting_service None None (fresh mail_client)
    = (Ok "fresh"%string, s1)
    /\ get_refresh_token ticking_clock accepting_service
         (Some "other@example.com"%string) (Some ""%string) s1
       = (Ok "fresh"%string, tick s1)
    /\ List.length (posted (tick s1)) = 1%nat.
Proof.
  eexists. split; [vm_compute; reflexivity|].
  apply (get_refresh_token_twice ticking_clock accepting_service None None
           (Some "other@example.com"%string) (Some ""%string) (fresh mail_client)).
  - vm_compute. discriminate.
  - vm_compute. reflexivity.
  - vm_compute. reflexivity.
Defined.

Lemma get_id_token_keeps_login_witness :
  exists r s',
    get_id_token ticking_clock rejecting_service None (fresh mail_client) = Some (r, s')
    /\ _mail_address (self s') = "user@example.com"%string
    /\ _password (self s') = "secret"%string.
Proof.
  do 2 eexists. split; [vm_compute; reflexivity|].
  eapply (get_id_token_keeps_login ticking_clock rejecting_service None
            (fresh mail_client)).
  vm_compute. reflexivity.
Defined.

Lemma get_id_token_given_witness :
  exists s',
    get_id_token frozen_clock accepting_service (Some "given"%string) (fresh mail_client)
    = Some (Ok "id"%string, s')
    /\ posted s' = [exchange_request "given"]
    /\ _refresh_token (self s') = ""%string.
Proof.
  eexists. split; [vm_compute; reflexivity|].
  refine (match get_id_token_given frozen_clock accepting_service "given"
                  (fresh mail_client) (Ok "id"%string) _ _ _ with
          | conj Hp (conj _ (conj Hr _)) => conj Hp Hr
          end).
  - vm_compute. discriminate.
  - vm_compute. reflexivity.
Defined.

Lemma get_id_token_cannot_renew_witness :
  get_id_token frozen_clock accepting_service None (fresh spent_client)
  = Some (Raise ValueError, tick (tick (fresh spent_client))).
Proof.
  apply (get_id_token_cannot_renew frozen_clock accepting_service (fresh spent_client)).
  - vm_compute. discriminate.
  - vm_compute. discriminate.
  - intros [H _]. now apply H.
Defined.

Lemma exchange_other_failures_witness :
  get_id_token frozen_clock silent_service None (fresh full_client)
  = Some (Raise ConnectionError,
          sent (exchange_request "stored") (tick (tick (fresh full_client)))).
Proof.
  apply (proj1 (exchange_other_failures frozen_clock silent_service None
                  (fresh full_client) "stored" (tick (tick (fresh full_client)))
                  1 2 ltac:(vm_compute; reflexivity))).
  reflexivity.
Defined.

Lemma get_id_token_recovers_witness :
  exists s',
    get_id_token ticking_clock renewing_service None (fresh full_client)
    = Some (Ok "id"%string, s')
    /\ posted s' = [exchange_request "fresh";
                    login_request "user@example.com" "secret";
                    exchange_request "stored"]
    /\ slept s' = [5]
    /\ _refresh_token (self s') = "fresh"%string.
Proof.
  destruct (get_id_token_recovers ticking_clock renewing_service (fresh full_client)
              ∅ 200 {[ "refreshToken"%string := "fresh"%string ]} "fresh"
              200 {[ "idToken"%string := "id"%string ]} "id")
    as (s' & Hrun & Hp & Hs & Hr & _).
  - intros i j Hij. unfold ticking_clock. lia.
  - vm_compute. discriminate.
  - vm_compute. reflexivity.
  - repeat split; discriminate.
  - reflexivity.
  - reflexivity.
  - lia.
  - reflexivity.
  - reflexivity.
  - lia.
  - reflexivity.
  - exists s'. repeat split; assumption.
Defined.

Lemma get_id_token_fresh_witness :
  exists s',
    get_id_token ticking_clock accepting_service None (fresh full_client)
    = Some (Ok "id"%string, s')
    /\ _id_token (self s') = "id"%string
    /\ _id_token_expire (self s')
       = ticking_clock (Nat.pred (clock_reads s')) + TWENTY_THREE_HOURS
    /\ exists rt rest, posted s' = exchange_request rt :: rest.
Proof.
  eexists. split; [vm_compute; reflexivity|].
  eapply (get_id_token_fresh ticking_clock accepting_service None (fresh full_client)).
  - intros i j Hij. unfold ticking_clock. lia.
  - vm_compute. discriminate.
  - vm_compute. reflexivity.
Defined.

Lemma load_config_precedence_witness :
  exists config,
    _load_config configured_os = Ok config
    /\ config !! "mail_address"%string = Some "env@example.com"%string
    /\ config !! "password"%string = Some "from-file"%string
    /\ config !! "refresh_token"%string = Some ""%string.
Proof.
  destruct (is_ok_spec (_load_config configured_os)) as [config E];
    [vm_compute; reflexivity|].
  exists config. split; [exact E|].
  destruct (load_config_precedence configured_os config E) as (H1 & H2 & H3).
  rewrite H1, H2, H3. repeat split; vm_compute; reflexivity.
Defined.

Lemma malformed_config_stops_witness :
  construct frozen_clock broken_os (Some "token"%string) None None 0 = Raise ValueError.
Proof.
  apply (proj2 (malformed_config_stops frozen_clock broken_os)).
  exists current_config_path. split.
  - apply elem_of_cons. right. apply elem_of_cons. now left.
  - reflexivity.
Defined.

Lemma construct_succeeds_iff_witness :
  exists config,
    _load_config bare_os = Ok config
    /\ ((default (config !!! "mail_address"%string) (Some "user@example.com"%string)
         <> ""%string
         /\ default (config !!! "password"%string) None <> ""%string)
        \/ default (config !!! "refresh_token"%string) (Some "token"%string)
           <> ""%string).
Proof.
  destruct (proj1 (construct_succeeds_iff frozen_clock bare_os (Some "token"%string)
                     (Some "user@example.com"%string) None 0
                     (mkJSONClient "user@example.com" "" "token"
                        (frozen_clock 0 + SIX_DAYS) "" (frozen_clock 1)))
                  ltac:(vm_compute; reflexivity))
    as (config & Hc & Hcred & _).
  exists config. split; [exact Hc|exact Hcred].
Defined.

Lemma range_fetch_bounded_witness :
  (List.length [WorkerStart 0; WorkerStart 1; WorkerFinish 1; MainNext 1;
                WorkerFinish 0; MainExit]
   <= 3 * List.length ["20200227"; "20200228"]%string + 2)%nat.
Proof.
  eapply (range_fetch_bounded fetch_fails_on_28 concat_frames
            ["20200227"; "20200228"]%string "id"%string).
  vm_compute. reflexivity.
Defined.

Lemma range_fetch_completes_witness :
  exists evs p' r,
    pool_run fetch_fails_on_28 concat_frames evs
      (get_price_range (Ok "id"%string) ["20200227"; "20200228"]%string)
    = Some p'
    /\ main p' = Ended r.
Proof.
  exact (range_fetch_completes fetch_fails_on_28 concat_frames
           (get_price_range (Ok "id"%string) ["20200227"; "20200228"]%string)).
Defined.

Lemma range_fetch_success_witness :
  exists buff,
    Ok ["20200228"; "20200227"]%string = concat_frames buff
    /\ map Ok buff ≡ₚ map fetch_all ["20200227"; "20200228"]%string.
Proof.
  eapply (range_fetch_success fetch_all concat_frames
            ["20200227"; "20200228"]%string "id"%string
            [WorkerStart 0; WorkerStart 1; WorkerFinish 1; MainNext 1;
             WorkerFinish 0; MainNext 0; MainExit]).
  - intros key _. eexists. reflexivity.
  - vm_compute. reflexivity.
  - reflexivity.
Defined.

Lemma date_range_contents_witness :
  mkdatetime 737484 0 0 0 0 None
  = with_ordinal (mkdatetime 737482 0 0 0 0 None) (737482 + Z.of_nat 2 * 1)
  /\ 1 <= ordinal (mkdatetime 737484 0 0 0 0 None) <= Calendar._MAXORDINAL
  /\ datetime_le (mkdatetime 737484 0 0 0 0 None) (mkdatetime 737486 0 0 0 0 None)
     = Ok true.
Proof.
  eapply (date_range_contents (PyStr "2020-02-27") (PyStr "2020-03-02") 1
            (mkdatetime 737482 0 0 0 0 None) (mkdatetime 737486 0 0 0 0 None) 6).
  - vm_compute. reflexivity.
  - vm_compute. reflexivity.
  - vm_compute. split; discriminate.
  - vm_compute. reflexivity.
  - reflexivity.
Defined.

Lemma get_with_valid_token_witness :
  exists r,
    _get frozen_clock silent_service data_service
         "https://api.jpx-jquants.com/v1/fins/announcement" None
         (mkworld (fresh warm_client) [])
    = Some (r, mkworld (tick (fresh warm_client))
                       [mkget "https://api.jpx-jquants.com/v1/fins/announcement" None
                              (bearer "cached") 30]).
Proof.
  destruct (get_with_valid_token frozen_clock silent_service data_service
              "https://api.jpx-jquants.com/v1/fins/announcement" None
              (mkworld (fresh warm_client) []))
    as (r & Hrun & _).
  - vm_compute. reflexivity.
  - exists r. exact Hrun.
Defined.

Lemma daily_quotes_date_wins_witness :
  get_prices_daily_quotes frozen_clock silent_service data_service
    "" "20200101" "20200131" "20200227" (mkworld (fresh warm_client) [])
  = raw_text (_get frozen_clock silent_service data_service
                (String.append JQUANTS_API_BASE "/prices/daily_quotes")
                (Some [("code"%string, ""%string); ("date"%string, "20200227"%string)])
                (mkworld (fresh warm_client) [])).
Proof.
  apply (daily_quotes_date_wins frozen_clock silent_service data_service).
  discriminate.
Defined.

Lemma statements_range_keeps_cache_witness :
  exists c,
    statements_run fetch_all concat_frames to_csv_lines "cache"
      [WorkerStart 0; WorkerFinish 0; MainNext 0; MainExit]
      (get_statements_range read_csv_lines (Ok "id"%string) "cache" cache_with_27
         ["20200227"; "20200228"]%string)
    = Some c
    /\ forall path content,
         cache_with_27 !! path = Some content -> run_files c !! path = Some content.
Proof.
  eexists. split; [vm_compute; reflexivity|].
  eapply (statements_range_keeps_cache fetch_all concat_frames read_csv_lines
            to_csv_lines (Ok "id"%string) "cache" cache_with_27
            ["20200227"; "20200228"]%string
            [WorkerStart 0; WorkerFinish 0; MainNext 0; MainExit]).
  vm_compute. reflexivity.
Defined.

Lemma statements_range_result_witness :
  exists c,
    statements_run fetch_all concat_frames to_csv_lines "cache"
      [WorkerStart 0; WorkerFinish 0; MainNext 0; MainExit]
      (get_statements_range read_csv_lines (Ok "id"%string) "cache" cache_with_27
         ["20200227"; "20200228"]%string)
    = Some c
    /\ main (run_pool c) = Ended (Ok ["20200227"; "20200228"]%string)
    /\ run_files c !! cache_file_path "cache" "20200228" = Some "20200228"%string
    /\ futures (run_pool (get_statements_range read_csv_lines (Ok "again"%string)
                            "cache" (run_files c) ["20200227"; "20200228"]%string))
       = [].
Proof.
  eexists. split; [vm_compute; reflexivity|]. split; [reflexivity|].
  lazymatch goal with
  | |- run_files ?c !! _ = _ /\ _ =>
      destruct (statements_range_result fetch_all concat_frames read_csv_lines
                  to_csv_lines "cache" cache_with_27 ["20200227"; "20200228"]%string
                  "id"%string [["20200227"%string]]
                  [WorkerStart 0; WorkerFinish 0; MainNext 0; MainExit]
                  c (Ok ["20200227"; "20200228"]%string))
        as [_ H]
  end.
  - unfold read_all.
    replace (hits "cache" cache_with_27 ["20200227"; "20200228"]%string)
      with ["20200227"%string] by (vm_compute; reflexivity).
    constructor; [|constructor]. exists "20200227"%string.
    split; vm_compute; reflexivity.
  - intros key _. eexists. reflexivity.
  - vm_compute. reflexivity.
  - reflexivity.
  - destruct (H ltac:(discriminate)) as [Hfile Hagain]. split.
    + apply (Hfile "20200228"%string ["20200228"%string]); [|reflexivity].
      apply misses_spec. split; [|vm_compute; reflexivity].
      apply elem_of_cons. right. apply elem_of_cons. now left.
    + apply Hagain.
Defined.

Lemma statements_range_bad_cache_file_witness :
  exists c,
    statements_run fetch_all concat_frames to_csv_lines "cache"
      [WorkerStart 0; WorkerFinish 0; MainExit]
      (get_statements_range read_csv_lines (Ok "id"%string) "cache" cache_with_empty_27
         (["20200226"%string] ++ "20200227"%string :: ["20200228"%string]))
    = Some c
    /\ main (run_pool c) = Ended (Raise ValueError)
    /\ run_files c = cache_with_empty_27
    /\ taken (run_pool c) = [].
Proof.
  eexists. split; [vm_compute; reflexivity|]. split; [reflexivity|].
  lazymatch goal with
  | |- run_files ?c = _ /\ _ =>
      destruct (statements_range_bad_cache_file fetch_all concat_frames
                  read_csv_lines to_csv_lines "cache" cache_with_empty_27
                  ["20200226"%string] "20200227" ["20200228"%string] ""
                  ValueError [] "id"
                  [WorkerStart 0; WorkerFinish 0; MainExit] c (Raise ValueError))
        as (_ & Hf & Ht & _)
  end.
  - unfold read_all.
    replace (hits "cache" cache_with_empty_27 ["20200226"%string])
      with (@nil string) by (vm_compute; reflexivity).
    constructor.
  - vm_compute. reflexivity.
  - reflexivity.
  - vm_compute. reflexivity.
  - reflexivity.
  - split; assumption.
Defined.

